(** * simple-shell: a shallow embedding of [shell.c]

    The interpreter is modelled as a state-passing program over an explicit
    C-like memory: blocks of byte cells addressed by (block, offset)
    pointers, the globals [buffer_size] and [pid], the standard streams,
    the working directory and a trace of the system calls issued.  What the
    operating system and the allocator decide (the content of fresh memory,
    the results of [fork], [waitpid], [chdir] and [execvp]) is read from
    oracle fields of the state.

    Conventions of the model.  Undefined behaviour (a read or write outside
    a block, a string without its NUL, a null or wild pointer dereferenced)
    is the outcome [Undef].  [malloc] and [strdup] always succeed.  Sizes
    and counters are natural numbers: the model covers lines short enough
    for [int] and [size_t] not to wrap.  Output is taken as written, without
    the buffering of stdio.  Loops carry a step budget; the budgets of the
    inner loops are computed from the state and proved sufficient, the
    budget of the main loop is the number of iterations followed. *)

From Stdlib Require Import ZArith Ascii String List Lia.
From stdpp Require Import base numbers option list.

Local Open Scope Z_scope.
Local Open Scope nat_scope.

(** ** Characters and C strings *)

Definition NUL : ascii := Ascii.zero.
Definition SP : ascii := " "%char.
Definition LF : ascii := "010"%char.

(** A string literal as the characters it denotes (without the NUL). *)
Definition chars (s : string) : list ascii := list_ascii_of_string s.

Definition is_nul (c : ascii) : bool := Ascii.eqb c NUL.

(** [c] occurs in the delimiter set [delim]. *)
Definition in_set (delim : list ascii) (c : ascii) : bool :=
  existsb (Ascii.eqb c) delim.

(** ** Memory *)

Record ptr := Ptr { blk : nat; off : nat }.

(** One byte of memory: a plain character, or byte [k] of the
    representation of a pointer (pointers are stored opaquely). *)
Inductive memval :=
| Chr (c : ascii)
| Frag (p : ptr) (k : nat).

(** The value of an object of type [char *] or [char **]. [Vraw] is a bit
    pattern that is neither the null pointer nor a stored pointer. *)
Inductive val :=
| Vnull
| Vptr (p : ptr)
| Vraw (cs : list memval).

#[global] Instance ptr_eq_dec : EqDecision ptr.
Proof. solve_decision. Defined.
#[global] Instance ascii_eq_dec' : EqDecision ascii := ascii_dec.
#[global] Instance memval_eq_dec : EqDecision memval.
Proof. solve_decision. Defined.

(** A heap is a sequence of blocks; a freed block is [None].  Block
    identifiers are never reused. *)
Abbreviation heap_t := (list (option (list memval))).

(** Status reported by [waitpid(pid, &status, WUNTRACED)]. *)
Inductive wstatus :=
| WExited (code : Z)
| WSignaled (sig : Z)
| WStopped (sig : Z).

Definition WIFEXITED (w : wstatus) : bool :=
  match w with WExited _ => true | _ => false end.
Definition WIFSIGNALED (w : wstatus) : bool :=
  match w with WSignaled _ => true | _ => false end.

(** What the child created by [fork] goes on to do. *)
Inductive child_outcome :=
| ChildExec (prog : list ascii) (argv : list (list ascii))
| ChildExit (code : Z)
| ChildUndefined.

Inductive event :=
| EvFork (ret : Z) (child : option child_outcome)
| EvWaitpid (p : Z) (w : wstatus)
| EvKill (p : Z) (sig : Z)
| EvChdir (path : list ascii) (ok : bool)
| EvPerror (msg : list ascii).

Record state := State {
  heap : heap_t;
  buffer_size : nat;            (* size_t buffer_size *)
  pid : Z;                      (* pid_t pid *)
  olds : val;                   (* the saved pointer of strtok *)
  stdin : list ascii;           (* input not yet read *)
  stdout : list ascii;
  cwd : list ascii;
  trace : list event;
  on_sigint : bool;             (* signalHandler is installed for SIGINT *)
  (* oracles *)
  junk : nat -> nat -> memval;  (* content of fresh block b at offset i *)
  forks : list Z;               (* return values of the next fork calls *)
  waits : list wstatus;         (* statuses of the next waitpid calls *)
  fs : list ascii -> list ascii -> option (list ascii);
                                (* chdir: cwd, path => new cwd or failure *)
  runnable : list ascii -> bool (* execvp finds and starts the program *)
}.

Definition set_heap (h : heap_t) (st : state) : state :=
  State h (buffer_size st) (pid st) (olds st) (stdin st) (stdout st)
        (cwd st) (trace st) (on_sigint st) (junk st) (forks st) (waits st) (fs st)
        (runnable st).
Definition set_buffer_size (n : nat) (st : state) : state :=
  State (heap st) n (pid st) (olds st) (stdin st) (stdout st)
        (cwd st) (trace st) (on_sigint st) (junk st) (forks st) (waits st) (fs st)
        (runnable st).
Definition set_pid (p : Z) (st : state) : state :=
  State (heap st) (buffer_size st) p (olds st) (stdin st) (stdout st)
        (cwd st) (trace st) (on_sigint st) (junk st) (forks st) (waits st) (fs st)
        (runnable st).
Definition set_olds (v : val) (st : state) : state :=
  State (heap st) (buffer_size st) (pid st) v (stdin st) (stdout st)
        (cwd st) (trace st) (on_sigint st) (junk st) (forks st) (waits st) (fs st)
        (runnable st).
Definition set_stdin (i : list ascii) (st : state) : state :=
  State (heap st) (buffer_size st) (pid st) (olds st) i (stdout st)
        (cwd st) (trace st) (on_sigint st) (junk st) (forks st) (waits st) (fs st)
        (runnable st).
Definition set_stdout (o : list ascii) (st : state) : state :=
  State (heap st) (buffer_size st) (pid st) (olds st) (stdin st) o
        (cwd st) (trace st) (on_sigint st) (junk st) (forks st) (waits st) (fs st)
        (runnable st).
Definition set_cwd (d : list ascii) (st : state) : state :=
  State (heap st) (buffer_size st) (pid st) (olds st) (stdin st) (stdout st)
        d (trace st) (on_sigint st) (junk st) (forks st) (waits st) (fs st)
        (runnable st).
Definition set_trace (t : list event) (st : state) : state :=
  State (heap st) (buffer_size st) (pid st) (olds st) (stdin st) (stdout st)
        (cwd st) t (on_sigint st) (junk st) (forks st) (waits st) (fs st)
        (runnable st).
Definition set_forks (l : list Z) (st : state) : state :=
  State (heap st) (buffer_size st) (pid st) (olds st) (stdin st) (stdout st)
        (cwd st) (trace st) (on_sigint st) (junk st) l (waits st) (fs st)
        (runnable st).
Definition set_waits (l : list wstatus) (st : state) : state :=
  State (heap st) (buffer_size st) (pid st) (olds st) (stdin st) (stdout st)
        (cwd st) (trace st) (on_sigint st) (junk st) (forks st) l (fs st)
        (runnable st).

Definition set_on_sigint (b : bool) (st : state) : state :=
  State (heap st) (buffer_size st) (pid st) (olds st) (stdin st) (stdout st)
        (cwd st) (trace st) b (junk st) (forks st) (waits st) (fs st)
        (runnable st).

Definition log (e : event) (st : state) : state :=
  set_trace (trace st ++ [e]) st.

(** The state in which [main] starts: [buffer_size] is 80 and [pid] is -1,
    as their initialisers say; the heap is empty and nothing was written.
    The arguments are the input and what the environment will answer. *)
Definition initial (inp dir : list ascii) (jk : nat -> nat -> memval)
    (fk : list Z) (ws : list wstatus)
    (fsys : list ascii -> list ascii -> option (list ascii))
    (run : list ascii -> bool) : state :=
  State [] 80 (-1)%Z Vnull inp [] dir [] false jk fk ws fsys run.

(** ** Outcomes and the execution monad *)

Inductive result (A : Type) :=
| Ret (a : A) (st : state)       (* the call returns [a] *)
| Exit (code : Z) (st : state)   (* [exit(code)] ended the process *)
| Killed (sig : Z) (st : state)  (* the default action of a signal did *)
| Exec (prog : list ascii) (argv : list (list ascii)) (st : state)
                                 (* [execvp] replaced the process image *)
| Blocked (st : state)           (* a system call never returns *)
| Fuel (st : state)              (* the step budget of the model ran out *)
| Undef.                         (* undefined behaviour *)
Arguments Ret {A} a st.
Arguments Exit {A} code st.
Arguments Killed {A} sig st.
Arguments Exec {A} prog argv st.
Arguments Blocked {A} st.
Arguments Fuel {A} st.
Arguments Undef {A}.

Definition M (A : Type) : Type := state -> result A.

Definition ret {A} (a : A) : M A := fun st => Ret a st.

Definition bind {A B} (m : M A) (k : A -> M B) : M B := fun st =>
  match m st with
  | Ret a st' => k a st'
  | Exit c st' => Exit c st'
  | Killed s st' => Killed s st'
  | Exec p a st' => Exec p a st'
  | Blocked st' => Blocked st'
  | Fuel st' => Fuel st'
  | Undef => Undef
  end.

Notation "'let*' x ':=' m 'in' k" := (bind m (fun x => k))
  (at level 10, x name, m at level 200, k at level 200).

(** Lift a partial read of the state: [None] is undefined behaviour. *)
Definition get {A} (f : state -> option A) : M A := fun st =>
  match f st with Some a => Ret a st | None => Undef end.
Definition modify (f : state -> state) : M unit := fun st => Ret tt (f st).
Definition undef {A} : M A := fun _ => Undef.
Definition exit {A} (code : Z) : M A := fun st => Exit code st.

Section Shell.

(** The size of a [char *] object in bytes. *)
Variable ptr_size : nat.

(** ** Memory operations *)

Definition block_at (h : heap_t) (b : nat) : option (list memval) :=
  mjoin (h !! b).

Definition ptr_add (p : ptr) (k : nat) : ptr := Ptr (blk p) (off p + k).

(** The characters from the head of [cs] up to the first NUL; no answer if
    the cells end, or hold part of a pointer, before a NUL is met. *)
Fixpoint cstring (cs : list memval) : option (list ascii) :=
  match cs with
  | Chr c :: r => if is_nul c then Some [] else cons c <$> cstring r
  | _ => None
  end.

Definition load_string (h : heap_t) (v : val) : option (list ascii) :=
  match v with
  | Vptr p => cs ← block_at h (blk p); cstring (drop (off p) cs)
  | _ => None
  end.

(** Overwrite the cells at [p] with [new]; the write must fit the block. *)
Definition store_cells (h : heap_t) (v : val) (new : list memval)
  : option heap_t :=
  match v with
  | Vptr p =>
      cs ← block_at h (blk p);
      if decide (off p + length new ≤ length cs)
      then Some (<[blk p := Some (list_inserts (off p) new cs)]> h)
      else None
  | _ => None
  end.

Definition load_cells (h : heap_t) (v : val) (n : nat)
  : option (list memval) :=
  match v with
  | Vptr p =>
      cs ← block_at h (blk p);
      if decide (off p + n ≤ length cs)
      then Some (take n (drop (off p) cs))
      else None
  | _ => None
  end.

(** Representation of pointer values in memory. *)
Definition encode (v : val) : list memval :=
  match v with
  | Vnull => replicate ptr_size (Chr NUL)
  | Vptr p => Frag p <$> seq 0 ptr_size
  | Vraw cs => cs
  end.

Definition decode (cs : list memval) : val :=
  if decide (cs = replicate ptr_size (Chr NUL)) then Vnull
  else match cs with
       | Frag p _ :: _ =>
           if decide (cs = Frag p <$> seq 0 ptr_size) then Vptr p
           else Vraw cs
       | _ => Vraw cs
       end.

Definition is_chr (m : memval) : bool :=
  match m with Chr _ => true | Frag _ _ => false end.
Definition is_zero (m : memval) : bool :=
  match m with Chr c => is_nul c | Frag _ _ => false end.

(** The test [v == NULL].  A bit pattern mixing pointer bytes with plain
    bytes compares in a way the model does not determine. *)
Definition is_null (v : val) : option bool :=
  match v with
  | Vnull => Some true
  | Vptr _ => Some false
  | Vraw cs => if forallb is_chr cs then Some (forallb is_zero cs) else None
  end.

(** [a + i] for [a] of type [char **]. *)
Definition slot (a : val) (i : nat) : val :=
  match a with
  | Vptr p => Vptr (ptr_add p (i * ptr_size))
  | _ => a
  end.

(** [a[i]] read as an rvalue. *)
Definition index (h : heap_t) (a : val) (i : nat) : option val :=
  decode <$> load_cells h (slot a i) ptr_size.

Definition state_of : M state := fun st => Ret st st.

Definition load_index (a : val) (i : nat) : M val :=
  get (fun st => index (heap st) a i).

Definition store (v : val) (new : list memval) : M unit := fun st =>
  match store_cells (heap st) v new with
  | Some h => Ret tt (set_heap h st)
  | None => Undef
  end.

(** [a[i] = v] *)
Definition store_index (a : val) (i : nat) (v : val) : M unit :=
  store (slot a i) (encode v).

(** [malloc(n)]: a fresh block whose content the allocator decides.
    Allocation is assumed to succeed. *)
Definition malloc (n : nat) : M val := fun st =>
  let b := length (heap st) in
  Ret (Vptr (Ptr b 0))
      (set_heap (heap st ++ [Some (junk st b <$> seq 0 n)]) st).

Definition free (v : val) : M unit := fun st =>
  match v with
  | Vnull => Ret tt st
  | Vptr (Ptr b 0) =>
      match block_at (heap st) b with
      | Some _ => Ret tt (set_heap (<[b := None]> (heap st)) st)
      | None => Undef
      end
  | _ => Undef
  end.

Definition memset (v : val) (c : ascii) (n : nat) : M unit :=
  store v (replicate n (Chr c)).

Definition strlen (v : val) : M nat :=
  get (fun st => length <$> load_string (heap st) v).

Definition strdup (v : val) : M val :=
  let* s := get (fun st => load_string (heap st) v) in
  let* d := malloc (length s + 1) in
  let* _ := store d ((Chr <$> s) ++ [Chr NUL]) in
  ret d.

Definition printf (s : list ascii) : M unit :=
  modify (fun st => set_stdout (stdout st ++ s) st).

(** ** strtok

    [strspn] and [strcspn] on the characters of a C string; [strtok] as the
    C library defines it: skip delimiters, return the start of the next
    token, overwrite the delimiter ending it with NUL, and remember where
    to resume. *)

Fixpoint strspn (s accept : list ascii) : nat :=
  match s with
  | c :: r => if in_set accept c then S (strspn r accept) else 0
  | [] => 0
  end.

Fixpoint strcspn (s reject : list ascii) : nat :=
  match s with
  | c :: r => if in_set reject c then 0 else S (strcspn r reject)
  | [] => 0
  end.

Definition strtok (s : val) (delim : list ascii) : M val :=
  let* st := state_of in
  let s := match s with Vnull => olds st | _ => s end in
  match s with
  | Vptr p =>
      let* str := get (fun st => load_string (heap st) s) in
      let k := strspn str delim in
      let tok := ptr_add p k in
      match drop k str with
      | [] => let* _ := modify (set_olds (Vptr tok)) in ret Vnull
      | (_ :: _) as str1 =>
          let m := strcspn str1 delim in
          let e := ptr_add tok m in
          match drop m str1 with
          | [] => let* _ := modify (set_olds (Vptr e)) in ret (Vptr tok)
          | _ :: _ =>
              let* _ := store (Vptr e) [Chr NUL] in
              let* _ := modify (set_olds (Vptr (ptr_add e 1))) in
              ret (Vptr tok)
          end
      end
  | _ => undef
  end.

(** ** parseLine *)

(** The delimiter set given to [strtok]: space and newline. *)
Definition delimiters : list ascii := [SP; LF].

(** The [while (token != NULL)] loop.  Every iteration calls [strtok],
    which consumes at least one character, so a budget of the
    length of the duplicated line is never exhausted. *)
Fixpoint parse_loop (fuel : nat) (buffer token : val) (i : nat) : M nat :=
  let* isnull := get (fun _ => is_null token) in
  if isnull : bool then ret i
  else match fuel with
       | 0 => fun st => Fuel st
       | S fuel' =>
           let* _ := store_index buffer i token in
           let* token' := strtok Vnull delimiters in
           parse_loop fuel' buffer token' (i + 1)
       end.

(** [budget] is the step budget of the loop, not a variable of the
    source; the out-parameter [num_tokens] is returned with the array. *)
Definition parseLine (line : val) : M (val * nat) :=
  let* st := state_of in
  let* buffer := malloc (ptr_size * (buffer_size st / 2)) in
  let* _ := memset buffer NUL (buffer_size st / 2) in
  let* args := strdup line in
  let* budget := strlen args in
  let* token := strtok args delimiters in
  let* num_tokens := parse_loop budget buffer token 0 in
  ret (buffer, num_tokens).

(** ** readLine *)

(** The next line of the input, its newline included when it has one, and
    the input that follows. *)
Fixpoint next_line (inp : list ascii) : list ascii * list ascii :=
  match inp with
  | [] => ([], [])
  | c :: r =>
      if Ascii.eqb c LF then ([c], r)
      else let (l, r') := next_line r in (c :: l, r')
  end.

(** [realloc] to [n] bytes, modelled as growing the block in place. *)
Definition grow (v : val) (n : nat) : M unit := fun st =>
  match v with
  | Vptr (Ptr b 0) =>
      match block_at (heap st) b with
      | Some cs =>
          let more := junk st b <$> seq (length cs) (n - length cs) in
          Ret tt (set_heap (<[b := Some (cs ++ more)]> (heap st)) st)
      | None => Undef
      end
  | _ => Undef
  end.

(** [getline(&buffer, &buffer_size, stdin)] as POSIX describes it: at end
    of input with nothing read it returns -1 and leaves the buffer as it
    is; otherwise it stores the line and a NUL, after enlarging the buffer
    (to twice its size at least, as the GNU C library does) when the line
    does not fit, and updates [buffer_size]. *)
Definition getline (buffer : val) : M Z := fun st =>
  match stdin st with
  | [] => Ret (-1)%Z st
  | _ :: _ =>
      let (l, rest) := next_line (stdin st) in
      let needed := length l + 1 in
      (let* _ :=
         if decide (buffer_size st < needed)
         then let size := Nat.max needed (2 * buffer_size st) in
              let* _ := grow buffer size in
              modify (set_buffer_size size)
         else ret tt in
       let* _ := store buffer ((Chr <$> l) ++ [Chr NUL]) in
       let* _ := modify (set_stdin rest) in
       ret (Z.of_nat (length l))) st
  end.

Definition readLine : M val :=
  let* st := state_of in
  let* buffer := malloc (1 * buffer_size st) in
  let* num_characters_read := getline buffer in
  ret buffer.

(** ** Builtins *)

Definition perror (msg : list ascii) : M unit :=
  modify (log (EvPerror msg)).

Definition chdir (path : val) : M Z :=
  let* p := get (fun st => load_string (heap st) path) in
  fun st =>
    match fs st (cwd st) p with
    | Some d => Ret 0%Z (log (EvChdir p true) (set_cwd d st))
    | None => Ret (-1)%Z (log (EvChdir p false) st)
    end.

Definition simpleShellCd (args : val) : M Z :=
  let* a1 := load_index args 1 in
  let* isnull := get (fun _ => is_null a1) in
  let* _ :=
    if isnull : bool then ret tt
    else let* status := chdir a1 in
         if (status =? -1)%Z
         then printf (chars "cd failed, check your path" ++ [LF])
         else ret tt in
  ret 1%Z.

Definition simpleShellHelp (args : val) : M Z :=
  let* _ := printf (chars "Commands available: cd, help, echo, exit"
                    ++ [LF]) in
  ret 1%Z.

(** The loop of [simpleShellEcho].  Its condition is
    [args[i] != NULL && args[i] != 0]: both operands compare [args[i]] with
    the null pointer, the second being evaluated when the first holds.  The
    index advances on every iteration, so a budget of the size of the array
    is never exhausted. *)
Definition echo_test (args : val) (i : nat) : M bool :=
  let* a := load_index args i in
  let* isnull := get (fun _ => is_null a) in
  if isnull : bool then ret false
  else let* a' := load_index args i in
       let* isnull' := get (fun _ => is_null a') in
       ret (negb isnull').

Fixpoint echo_loop (fuel : nat) (args : val) (i : nat) : M unit :=
  let* go := echo_test args i in
  if go : bool
  then match fuel with
       | 0 => fun st => Fuel st
       | S fuel' =>
           let* a := load_index args i in
           let* s := get (fun st => load_string (heap st) a) in
           let* _ := printf (s ++ [SP]) in
           echo_loop fuel' args (i + 1)
       end
  else ret tt.

Definition block_size (h : heap_t) (v : val) : option nat :=
  match v with
  | Vptr p => length <$> block_at h (blk p)
  | _ => None
  end.

Definition simpleShellEcho (args : val) : M Z :=
  let* budget := get (fun st => block_size (heap st) args) in
  let* _ := echo_loop budget args 1 in
  let* _ := printf [LF] in
  ret 1%Z.

Definition simpleShellExit (args : val) : M Z := ret 0%Z.

Definition num_builtins : nat := 4.

Definition builtin_commands : list (list ascii) :=
  [chars "cd"; chars "help"; chars "echo"; chars "exit"].

Definition builtin_pointers : list (val -> M Z) :=
  [simpleShellCd; simpleShellHelp; simpleShellEcho; simpleShellExit].

(** ** startProcess *)

Definition SIGINT : Z := 2%Z.

(** The argument vector [execvp] hands to the new program: the strings
    [args[0]], [args[1]], ... up to the first null pointer. *)
Fixpoint read_argv (fuel : nat) (h : heap_t) (args : val) (i : nat)
  : option (list (list ascii)) :=
  match fuel with
  | 0 => None
  | S fuel' =>
      a ← index h args i;
      isnull ← is_null a;
      if isnull : bool then Some []
      else s ← load_string h a;
           cons s <$> read_argv fuel' h args (i + 1)
  end.

Definition argv_of (h : heap_t) (args : val) : option (list (list ascii)) :=
  n ← block_size h args; read_argv (S n) h args 0.

(** [execvp] returns, with -1, only when it fails. *)
Definition execvp (file args : val) : M Z :=
  let* prog := get (fun st => load_string (heap st) file) in
  let* argv := get (fun st => argv_of (heap st) args) in
  fun st => if runnable st prog then Exec prog argv st else Ret (-1)%Z st.

Definition child_of (r : result Z) : child_outcome :=
  match r with
  | Exec prog argv _ => ChildExec prog argv
  | Exit code _ => ChildExit code
  | _ => ChildUndefined
  end.

(** [fork()].  In the calling process it returns the oracle's next value
    (a failure when the oracle has none); when that is a child's pid, the
    event records what the child, which continues with [k] and sees the
    return value 0, goes on to do. *)
Definition fork (k : Z -> M Z) : M Z := fun st =>
  match forks st with
  | [] => Ret (-1)%Z (log (EvFork (-1) None) st)
  | r :: rest =>
      let st' := set_forks rest st in
      if (0 <? r)%Z
      then Ret r (log (EvFork r (Some (child_of (k 0%Z st')))) st')
      else Ret r (log (EvFork r None) st')
  end.

Definition waitpid (p : Z) : M wstatus := fun st =>
  match waits st with
  | [] => Blocked st
  | w :: rest => Ret w (log (EvWaitpid p w) (set_waits rest st))
  end.

(** The [while] loop of the parent.  Every iteration takes one status from
    the oracle, so a budget of one more than the number of statuses left
    is never exhausted: the loop ends or [waitpid] blocks. *)
Fixpoint wait_loop (fuel : nat) (child_status : wstatus) : M unit :=
  if negb (WIFEXITED child_status) && negb (WIFSIGNALED child_status)
  then match fuel with
       | 0 => fun st => Fuel st
       | S fuel' =>
           let* st := state_of in
           let* child_status' := waitpid (pid st) in
           wait_loop fuel' child_status'
       end
  else ret tt.

(** [startProcess] from the assignment of [fork]'s result to [pid] on. *)
Definition after_fork (args : val) (r : Z) : M Z :=
  let* _ := modify (set_pid r) in
  let* st := state_of in
  let* _ :=
    if (pid st =? 0)%Z then
      let* a0 := load_index args 0 in
      let* e := execvp a0 args in
      if (e =? -1)%Z
      then let* _ := perror (chars "simple-shell") in exit 1%Z
      else ret tt
    else if (pid st <? 0)%Z then
      let* _ := perror (chars "simple-shell") in exit 1%Z
    else
      let* child_status := waitpid (pid st) in
      let* st1 := state_of in
      let* _ := wait_loop (S (length (waits st1))) child_status in
      modify (set_pid (-1)%Z) in
  ret 1%Z.

Definition startProcess (args : val) : M Z :=
  let* r := fork (after_fork args) in
  after_fork args r.

(** ** executeCommand *)

Definition strcmp0 (v : val) (s : list ascii) : M bool :=
  let* a := get (fun st => load_string (heap st) v) in
  ret (bool_decide (a = s)).

(** The [for] loop over the builtin table, [n] iterations from index [i];
    when it finds nothing the command is launched as a process. *)
Fixpoint builtin_loop (n i : nat) (args : val) : M Z :=
  match n with
  | 0 => startProcess args
  | S n' =>
      let* a0 := load_index args 0 in
      let* name := get (fun _ => builtin_commands !! i) in
      let* same := strcmp0 a0 name in
      if same : bool
      then let* f := get (fun _ => builtin_pointers !! i) in f args
      else builtin_loop n' (i + 1) args
  end.

Definition executeCommand (args : val) : M Z :=
  let* a0 := load_index args 0 in
  let* isnull := get (fun _ => is_null a0) in
  if isnull : bool then ret 1%Z
  else builtin_loop num_builtins 0 args.

(** ** signalHandler *)

Definition kill (p sig : Z) : M Z := fun st =>
  Ret 0%Z (log (EvKill p sig) st).

Definition signalHandler (sig_id : Z) : M unit :=
  let* _ := printf ([LF] ++ chars "simple-shell terminated" ++ [LF]) in
  let* st := state_of in
  let* _ :=
    if bool_decide (pid st ≠ (-1)%Z)
    then let* _ := kill (pid st) SIGINT in ret tt
    else ret tt in
  exit 0%Z.

(** Delivery of SIGINT to the interpreter in state [st]. *)
Definition interrupt : M unit := fun st =>
  if on_sigint st then signalHandler SIGINT st else Killed SIGINT st.

(** ** mainLoop and main *)

Definition prompt : list ascii := chars "simple-shell> ".

(** The [while (status)] loop; [fuel] bounds the number of iterations the
    model follows.  [tokens] keeps its value across iterations. *)
Fixpoint main_while (fuel : nat) (status : Z) (tokens : val) : M unit :=
  if (status =? 0)%Z then ret tt
  else match fuel with
       | 0 => fun st => Fuel st
       | S fuel' =>
           let* line := readLine in
           let* isnull := get (fun _ => is_null line) in
           let* r :=
             if negb isnull
             then let* t := parseLine line in
                  let* status' := executeCommand (fst t) in
                  let* _ := printf prompt in
                  ret (status', fst t)
             else ret (status, tokens) in
           let* _ := free line in
           let* _ := free (snd r) in
           main_while fuel' (fst r) (snd r)
       end.

(** The local [tokens] is not initialised: [Vraw []] stands for its
    indeterminate value. *)
Definition mainLoop (fuel : nat) : M unit :=
  let* _ := printf prompt in
  let* _ := main_while fuel 1%Z (Vraw []) in
  printf [LF].

Definition main (fuel : nat) : M Z :=
  let* _ := modify (set_on_sigint true) in
  let* _ := mainLoop fuel in
  ret 0%Z.

(** ** What the tokenizer computes

    [scan] follows the successive calls of [strtok] on the characters [s]
    found at offset [o] of the duplicated line and lists the tokens with
    their offsets; [nul_out] is the content the calls leave in the
    duplicate; [store_slots] is the token array after the pointers [ps]
    were stored from index [i] on. *)

Fixpoint scan (fuel o : nat) (s : list ascii) : list (nat * list ascii) :=
  match fuel with
  | 0 => []
  | S fuel' =>
      let k := strspn s delimiters in
      match drop k s with
      | [] => []
      | (_ :: _) as s1 =>
          let m := strcspn s1 delimiters in
          (o + k, take m s1) :: scan fuel' (o + k + m + 1) (drop (m + 1) s1)
      end
  end.

Fixpoint nul_out (fuel o : nat) (s : list ascii) (cs : list memval)
  : list memval :=
  match fuel with
  | 0 => cs
  | S fuel' =>
      let k := strspn s delimiters in
      match drop k s with
      | [] => cs
      | (_ :: _) as s1 =>
          let m := strcspn s1 delimiters in
          match drop m s1 with
          | [] => cs
          | _ :: r =>
              nul_out fuel' (o + k + m + 1) r (<[o + k + m := Chr NUL]> cs)
          end
      end
  end.

Fixpoint store_slots (cs : list memval) (i : nat) (ps : list ptr)
  : list memval :=
  match ps with
  | [] => cs
  | p :: r =>
      store_slots (list_inserts (i * ptr_size) (encode (Vptr p)) cs) (i + 1) r
  end.

Definition ptr_in (b : nat) (t : nat * list ascii) : ptr := Ptr b t.1.

(** The token array as [parseLine] allocates and clears it in state [st]:
    [ptr_size * (buffer_size / 2)] cells from the allocator, of which the
    first [buffer_size / 2] are set to zero. *)
Definition fresh_array (st : state) : list memval :=
  list_inserts 0 (replicate (buffer_size st / 2) (Chr NUL))
    (junk st (length (heap st)) <$> seq 0 (ptr_size * (buffer_size st / 2))).

Definition no_nul (s : list ascii) : Prop :=
  Forall (fun c => is_nul c = false) s.

(** The tokens of the line [s], in the order [strtok] returns them. *)
Definition tokens_of (s : list ascii) : list (list ascii) :=
  (scan (S (length s)) 0 s).*2.

(** The strings a token array of [n] entries points to. *)
Definition token_seq (h : heap_t) (a : val) (n : nat)
  : option (list (list ascii)) :=
  mapM (fun i => index h a i ≫= load_string h) (seq 0 n).

(** [a] points to an array whose entries are pointers to the strings
    [toks], in order, followed by a null pointer. *)
Definition args_array (h : heap_t) (a : val) (toks : list (list ascii))
  : Prop :=
  (forall j t, toks !! j = Some t ->
     exists p, index h a j = Some (Vptr p) /\ load_string h (Vptr p) = Some t)
  /\ index h a (length toks) = Some Vnull.

(** ** The tokenizer as the specification words it

    Split the line at every whitespace character (space or newline), then
    discard the empty fields. *)

Definition is_space (c : ascii) : bool := in_set delimiters c.

Fixpoint fields (s : list ascii) : list (list ascii) :=
  match s with
  | [] => [[]]
  | c :: r =>
      if is_space c then [] :: fields r
      else match fields r with
           | f :: fs => (c :: f) :: fs
           | [] => [[c]]
           end
  end.

Definition split_whitespace (s : list ascii) : list (list ascii) :=
  filter (fun f => f ≠ []) (fields s).

(** The heap [parseLine] leaves for the line [s]: the token array and the
    duplicate of the line are added as two new blocks. *)
Definition parsed_heap (st : state) (s : list ascii) : heap_t :=
  heap st ++
  [Some (store_slots (fresh_array st) 0
           (ptr_in (S (length (heap st))) <$> scan (S (length s)) 0 s));
   Some (nul_out (S (length s)) 0 s ((Chr <$> s) ++ [Chr NUL]))].

(** What [simpleShellEcho] writes for the arguments [args]: each one
    followed by a space. *)
Definition echo_text (args : list (list ascii)) : list ascii :=
  concat ((fun t => t ++ [SP]) <$> args).

(** A status after which the parent stops waiting. *)
Definition final (w : wstatus) : bool := WIFEXITED w || WIFSIGNALED w.

(** What the child of a launch from state [st] does: it starts as a copy
    of the parent in which [fork] has returned 0. *)
Definition child_of_fork (a : val) (st : state) : child_outcome :=
  child_of (after_fork a 0%Z (set_forks (tail (forks st)) st)).

(** The text [signalHandler] prints. *)
Definition notice : list ascii :=
  [LF] ++ chars "simple-shell terminated" ++ [LF].

(** The buffer size [getline] leaves for a line of [n] characters. *)
Definition size_for (st : state) (n : nat) : nat :=
  if decide (buffer_size st < n + 1)
  then Nat.max (n + 1) (2 * buffer_size st)
  else buffer_size st.

End Shell.

(** * Sample states *)

Definition no_fs : list ascii → list ascii → option (list ascii) :=
  fun _ _ => None.
Definition flat_fs : list ascii → list ascii → option (list ascii) :=
  fun _ path => Some path.
Definition any_program : list ascii → bool := fun _ => true.
Definition zero_junk : nat → nat → memval := fun _ _ => Chr NUL.
Definition ff_junk : nat → nat → memval := fun _ _ => Chr "255"%char.

(** The initial state with input [inp] and fresh memory filled by [jk]. *)
Definition session (inp : list ascii) (jk : nat → nat → memval)
    (fk : list Z) (ws : list wstatus) : state :=
  initial inp (chars "/") jk fk ws no_fs any_program.

(** A state whose block 0 holds the line [s]. *)
Definition with_line (s : list ascii) (jk : nat → nat → memval) : state :=
  set_heap [Some ((Chr <$> s) ++ [Chr NUL])] (session [] jk [] []).

(** The state after [parseLine], for 8-byte pointers, of the line [s]
    held in block 0; the token array is block 1. *)
Definition parsed (s : list ascii) (jk : nat → nat → memval) : state :=
  set_heap (parsed_heap 8 (with_line s jk) s) (with_line s jk).

(** What [readLine] followed by [parseLine] leaves: the number of tokens,
    [buffer_size], and the entry of the token array after the last
    token. *)
Definition read_and_parse (p : nat) : M (val * nat) :=
  let* line := readLine in parseLine p line.

Definition sentinel_of (p : nat) (r : result (val * nat))
  : option (nat * nat * option val) :=
  match r with
  | Ret (buffer, n) st => Some (n, buffer_size st, index p (heap st) buffer n)
  | _ => None
  end.

(** A line of 200 characters with 12 tokens. *)
Definition long_line : list ascii :=
  replicate 177 "x"%char ++ concat (replicate 11 (chars " a")) ++ [LF].

(** The output and the status of a line run through [parseLine] and
    [executeCommand]. *)
Definition run_line (p : nat) (s : list ascii) : option (Z * list ascii) :=
  match (let* t := parseLine p (Vptr (Ptr 0 0)) in executeCommand p (fst t))
          (with_line s zero_junk) with
  | Ret status st => Some (status, stdout st)
  | _ => None
  end.

(** Fresh memory as an allocator that reuses freed chunks hands it out in
    the second iteration of the loop: the token array of that iteration,
    block 4, is the chunk of the first one and still holds its seven
    pointers into the first duplicate, block 2. *)
Definition stale_junk : nat → nat → memval := fun b i =>
  if (b =? 4) && (i <? 56)
  then Frag (Ptr 2 (nth (i / 8) [0; 5; 7; 9; 11; 13; 15] 0)) (i mod 8)
  else Chr NUL.

Definition two_commands : list ascii :=
  chars "echo 1 2 3 4 5 6" ++ [LF] ++ chars "ls a b c d" ++ [LF].

Definition trace_of {A} (r : result A) : list event :=
  match r with
  | Ret _ st | Exit _ st | Killed _ st | Exec _ _ st | Blocked st | Fuel st =>
      trace st
  | Undef => []
  end.

Definition set_fs (f : list ascii → list ascii → option (list ascii))
    (st : state) : state :=
  State (heap st) (buffer_size st) (pid st) (olds st) (stdin st) (stdout st)
        (cwd st) (trace st) (on_sigint st) (junk st) (forks st) (waits st) f
        (runnable st).

Definition blank_line : list ascii := chars "   ".
Definition echo_a_b : list ascii := chars "echo a b" ++ [LF].
Definition ls_l : list ascii := chars "ls -l" ++ [LF].
Definition cd_alone : list ascii := chars "cd" ++ [LF].
Definition cd_x : list ascii := chars "cd /x" ++ [LF].
Definition four_tokens : list ascii := chars "a b c d" ++ [LF].
Definition five_tokens : list ascii := chars "a b c d e" ++ [LF].

(** The interpreter idle at the prompt, and with child 7 recorded. *)
Definition idle : state := set_on_sigint true (session [] zero_junk [] []).
Definition busy : state := set_pid 7%Z idle.

(** About to launch [ls -l]: [fork] will return 7. *)
Definition launching (ws : list wstatus) : state :=
  set_waits ws (set_forks [7%Z] (parsed ls_l zero_junk)).


(** * Outcomes and what a command leaves alone *)

(** [wp m Q E st]: if [m], run from [st], returns [a] in state [st'] then
    [Q a st'] holds; if it ends in any other way with state [st'], by
    [exit], by an [execvp] that succeeds, in a call that blocks, then
    [E st'] holds. *)
Definition wp {A} (m : M A) (Q : A → state → Prop) (E : state → Prop)
    (st : state) : Prop :=
  match m st with
  | Ret a st' => Q a st'
  | Exit _ st' | Killed _ st' | Exec _ _ st' | Blocked st' | Fuel st' => E st'
  | Undef => True
  end.

(** [m] keeps the relation [R] to the state it started from, however it
    ends. *)
Definition keeps (R : state → state → Prop) {A} (m : M A) : Prop :=
  ∀ st0 st, R st0 st → wp m (fun _ s => R st0 s) (R st0) st.

(** The state an outcome leaves. *)
Definition state_after {A} (r : result A) : option state :=
  match r with
  | Ret _ st | Exit _ st | Killed _ st | Exec _ _ st | Blocked st | Fuel st =>
      Some st
  | Undef => None
  end.

(** What running a command leaves alone: the memory, the size recorded for
    the line buffer, the input not yet read, the saved pointer of
    [strtok], the handler installed for SIGINT. *)
Definition same_memory (st st' : state) : Prop :=
  heap st' = heap st ∧ buffer_size st' = buffer_size st
  ∧ stdin st' = stdin st ∧ olds st' = olds st
  ∧ on_sigint st' = on_sigint st ∧ junk st' = junk st
  ∧ fs st' = fs st ∧ runnable st' = runnable st.

(** What a builtin leaves alone besides: the processes. *)
Definition same_processes (st st' : state) : Prop :=
  same_memory st st' ∧ pid st' = pid st ∧ forks st' = forks st
  ∧ waits st' = waits st.

(** A word: a token as the tokenizer produces them. *)
Definition word (t : list ascii) : Prop :=
  t ≠ [] ∧ Forall (fun c => is_space c = false) t.

(** ** More sample states *)

(** About to read [ls -l] from block 0 and launch it: [fork] will return
    7 and the child will exit with status 0. *)
Definition before_launch : state :=
  set_waits [WExited 0] (set_forks [7%Z] (with_line ls_l zero_junk)).

Definition exit_line : list ascii := chars "exit now" ++ [LF].

(** [fork] is about to fail. *)
Definition no_more_processes : state :=
  set_forks [(-1)%Z] (parsed ls_l zero_junk).

(** A line of 79 characters with 40 tokens: as many as the token array
    for a line buffer of 80 bytes has entries. *)
Definition full_line : list ascii :=
  chars "l" ++ concat (replicate 39 (chars " a")).

(** Waiting for child 7, which is stopped, with the handler installed. *)
Definition waiting : state :=
  set_on_sigint true (launching [WStopped 19]).

(** An allocator whose fresh blocks still spell an earlier command. *)
Definition exit_junk : nat → nat → memval := fun _ i =>
  nth i (Chr <$> chars "exit") (Chr NUL).
(** * Proofs *)

#[local] Arguments in_set : simpl never.
#[local] Arguments wait_loop : simpl never.
(** * Properties of the tokenizer on strings *)

Lemma scan_nil fuel o : scan fuel o [] = [].
Proof. by destruct fuel. Qed.

Lemma strspn_le s d : strspn s d ≤ length s.
Proof. induction s as [|c r IH]; simpl; [lia|]. destruct (in_set d c); simpl; lia. Qed.

Lemma strcspn_le s d : strcspn s d ≤ length s.
Proof. induction s as [|c r IH]; simpl; [lia|]. destruct (in_set d c); simpl; lia. Qed.

(** A token is not empty: [strcspn] is positive on a string that starts
    with a character outside the delimiters. *)
Lemma strspn_stop s d c r :
  drop (strspn s d) s = c :: r → in_set d c = false.
Proof.
  induction s as [|a s IH]; simpl; [done|].
  destruct (in_set d a) eqn:E; simpl; [done|]. by intros [= <- _].
Qed.

Lemma strcspn_stop s d c r :
  drop (strcspn s d) s = c :: r → in_set d c = true.
Proof.
  induction s as [|a s IH]; simpl; [done|].
  destruct (in_set d a) eqn:E; simpl; [|done]. by intros [= <- _].
Qed.

Lemma strcspn_pos d c r : in_set d c = false → 0 < strcspn (c :: r) d.
Proof. intros H. simpl. rewrite H. lia. Qed.

Lemma fields_unfold s :
  fields s = take (strcspn s delimiters) s ::
             match drop (strcspn s delimiters) s with
             | [] => []
             | _ :: r => fields r
             end.
Proof.
  induction s as [|c r IH]; [done|].
  simpl. unfold is_space. destruct (in_set delimiters c); [done|].
  rewrite IH. done.
Qed.

Lemma split_whitespace_skip s :
  split_whitespace s = split_whitespace (drop (strspn s delimiters) s).
Proof.
  induction s as [|c r IH]; [done|].
  simpl strspn. destruct (in_set delimiters c) eqn:E; [|done].
  simpl drop. rewrite <- IH. unfold split_whitespace. simpl. unfold is_space.
  rewrite E. by rewrite filter_cons_False by (intros H; by apply H).
Qed.

Lemma split_whitespace_token c r :
  in_set delimiters c = false →
  split_whitespace (c :: r) =
    take (strcspn (c :: r) delimiters) (c :: r) ::
    split_whitespace (drop (strcspn (c :: r) delimiters + 1) (c :: r)).
Proof.
  intros Hc. unfold split_whitespace at 1. rewrite fields_unfold.
  pose proof (strcspn_pos delimiters c r Hc) as Hpos.
  rewrite filter_cons_True.
  2:{ destruct (strcspn (c :: r) delimiters); [lia|done]. }
  f_equal. rewrite <- drop_drop.
  destruct (drop (strcspn (c :: r) delimiters) (c :: r)) as [|a t] eqn:E.
  - done.
  - simpl. rewrite drop_0. done.
Qed.

(** The tokens [strtok] returns are the non-empty fields of the line. *)
Lemma scan_split fuel o s :
  length s < fuel → (scan fuel o s).*2 = split_whitespace s.
Proof.
  revert o s. induction fuel as [|fuel IH]; intros o s Hlen; [lia|].
  rewrite split_whitespace_skip. simpl.
  pose proof (strspn_le s delimiters) as Hk.
  destruct (drop (strspn s delimiters) s) as [|c r] eqn:E; [done|].
  assert (length (c :: r) ≤ length s) as Hl.
  { rewrite <- E, length_drop. lia. }
  rewrite split_whitespace_token by (by eapply strspn_stop).
  cbn [fmap list_fmap snd]. f_equal.
  apply IH. rewrite length_drop. simpl in *. lia.
Qed.

Lemma tokens_of_split s : tokens_of s = split_whitespace s.
Proof. apply scan_split. lia. Qed.

(** Extra fuel changes nothing. *)
Lemma scan_fuel fuel fuel' o s :
  length s < fuel → length s < fuel' → scan fuel o s = scan fuel' o s.
Proof.
  revert fuel' o s. induction fuel as [|fuel IH]; intros [|fuel'] o s H1 H2; try lia.
  simpl. pose proof (strspn_le s delimiters) as Hk.
  destruct (drop (strspn s delimiters) s) as [|c r] eqn:E; [done|].
  assert (length (c :: r) ≤ length s) as Hl.
  { rewrite <- E, length_drop. lia. }
  f_equal. apply IH; rewrite length_drop; simpl in *; lia.
Qed.

(** A line of [n] characters holds at most [(n + 1) / 2] tokens. *)
Lemma scan_length fuel o s : 2 * length (scan fuel o s) ≤ length s + 1.
Proof.
  revert o s. induction fuel as [|fuel IH]; intros o s; simpl; [lia|].
  pose proof (strspn_le s delimiters) as Hk.
  destruct (drop (strspn s delimiters) s) as [|c r] eqn:E; [simpl; lia|].
  assert (length (c :: r) ≤ length s) as Hl.
  { rewrite <- E, length_drop. lia. }
  pose proof (strcspn_pos delimiters c r (strspn_stop _ _ _ _ E)) as Hpos.
  simpl length.
  specialize (IH (o + strspn s delimiters + strcspn (c :: r) delimiters + 1)
                 (drop (strcspn (c :: r) delimiters + 1) (c :: r))).
  rewrite length_drop in IH. simpl in *. lia.
Qed.

(** * Properties of the memory operations *)

#[local] Arguments strspn : simpl never.
#[local] Arguments strcspn : simpl never.
#[local] Arguments scan : simpl never.
#[local] Arguments nul_out : simpl never.

Section Proofs.
Variable ptr_size : nat.

Lemma bind_Ret {A B} (m : M A) (k : A → M B) st a st' :
  m st = Ret a st' → bind m k st = k a st'.
Proof. unfold bind. by intros ->. Qed.


Lemma cstring_chars s r :
  no_nul s → cstring ((Chr <$> s) ++ Chr NUL :: r) = Some s.
Proof.
  induction 1 as [|c s Hc _ IH]; [done|].
  cbn [fmap list_fmap app cstring]. rewrite Hc.
  cbn [fmap list_fmap] in IH. by rewrite IH.
Qed.

Lemma cstring_inv cs s :
  cstring cs = Some s →
  no_nul s ∧ ∃ r, cs = (Chr <$> s) ++ Chr NUL :: r.
Proof.
  revert s. induction cs as [|[c|] cs IH]; intros s; simpl; try done.
  destruct (is_nul c) eqn:E.
  - intros [= <-]. split; [constructor|]. exists cs. simpl.
    apply Ascii.eqb_eq in E. by rewrite E.
  - destruct (cstring cs) as [t|]; [|done]. intros [= <-].
    destruct (IH t eq_refl) as [Hn [r ->]]. split; [by constructor|].
    by exists r.
Qed.

Lemma cstring_length cs s : cstring cs = Some s → length s < length cs.
Proof.
  intros H. apply cstring_inv in H as [_ [r ->]].
  rewrite length_app, length_fmap. simpl. lia.
Qed.

Lemma no_nul_drop n s : no_nul s → no_nul (drop n s).
Proof. apply Forall_drop. Qed.

Lemma no_nul_take n s : no_nul s → no_nul (take n s).
Proof. apply Forall_take. Qed.

Lemma cstring_drop n cs s :
  cstring cs = Some s → n ≤ length s → cstring (drop n cs) = Some (drop n s).
Proof.
  intros H Hn. apply cstring_inv in H as [Hs [r ->]].
  rewrite drop_app_le by (rewrite length_fmap; lia).
  rewrite <- fmap_drop. apply cstring_chars. by apply no_nul_drop.
Qed.

(** The string at [o] once the cell [m] characters further is set to NUL. *)
Lemma cstring_cut o m C s :
  cstring (drop o C) = Some s → m ≤ length s →
  cstring (drop o (<[o + m := Chr NUL]> C)) = Some (take m s).
Proof.
  intros H Hm. pose proof (cstring_length _ _ H) as Hl.
  rewrite length_drop in Hl.
  apply cstring_inv in H as [Hs [r Hr]].
  rewrite drop_insert_ge by lia.
  replace (o + m - o) with m by lia. rewrite Hr.
  destruct (decide (m = length s)) as [->|Hne].
  - rewrite firstn_all. rewrite insert_app_r_alt by (rewrite length_fmap; lia).
    rewrite length_fmap, Nat.sub_diag. simpl. by apply cstring_chars.
  - rewrite insert_app_l by (rewrite length_fmap; lia).
    rewrite <- (take_drop m s) at 1. rewrite fmap_app, insert_app_r_alt.
    2:{ rewrite length_fmap, length_take. lia. }
    rewrite length_fmap, length_take, Nat.min_l, Nat.sub_diag by lia.
    destruct (drop m s) as [|c t] eqn:E.
    { apply (f_equal length) in E. rewrite length_drop in E. simpl in E. lia. }
    simpl. rewrite <- app_assoc. simpl. apply cstring_chars.
    by apply no_nul_take.
Qed.

Lemma block_at_insert_eq (h : heap_t) b x :
  b < length h → block_at (<[b := x]> h) b = x.
Proof. intros H. unfold block_at. rewrite list_lookup_insert_eq; done. Qed.

Lemma block_at_insert_ne (h : heap_t) b b' x :
  b ≠ b' → block_at (<[b := x]> h) b' = block_at h b'.
Proof. intros H. unfold block_at. by rewrite list_lookup_insert_ne. Qed.

Lemma block_at_lt (h : heap_t) b cs : block_at h b = Some cs → b < length h.
Proof.
  unfold block_at. destruct (h !! b) eqn:E; [|done].
  intros _. by eapply lookup_lt_Some.
Qed.

Lemma block_at_lookup (h : heap_t) b cs :
  block_at h b = Some cs → h !! b = Some (Some cs).
Proof. unfold block_at. by destruct (h !! b) as [[|]|]; simpl; intros [= ->]. Qed.

Lemma load_string_eq h b o cs :
  block_at h b = Some cs →
  load_string h (Vptr (Ptr b o)) = cstring (drop o cs).
Proof. unfold load_string. simpl. by intros ->. Qed.

(** One call of [strtok] on the duplicate held in block [ba]. *)
Lemma strtok_step st X ba o C rest :
  block_at (heap st) ba = Some C →
  (X = Vptr (Ptr ba o) ∨ X = Vnull ∧ olds st = Vptr (Ptr ba o)) →
  cstring (drop o C) = Some rest →
  strtok X delimiters st =
    let k := strspn rest delimiters in
    match drop k rest with
    | [] => Ret Vnull (set_olds (Vptr (Ptr ba (o + k))) st)
    | (_ :: _) as s1 =>
        let m := strcspn s1 delimiters in
        match drop m s1 with
        | [] => Ret (Vptr (Ptr ba (o + k)))
                    (set_olds (Vptr (Ptr ba (o + k + m))) st)
        | _ :: _ =>
            Ret (Vptr (Ptr ba (o + k)))
                (set_olds (Vptr (Ptr ba (o + k + m + 1)))
                   (set_heap (<[ba := Some (<[o + k + m := Chr NUL]> C)]>
                                (heap st)) st))
        end
    end.
Proof.
  intros HC HX Hs.
  assert (strtok X delimiters st =
          strtok (Vptr (Ptr ba o)) delimiters st) as ->.
  { destruct HX as [->|[-> Ho]]; [done|]. unfold strtok, bind, state_of.
    by rewrite Ho. }
  unfold strtok. unfold bind at 1. unfold state_of at 1.
  unfold bind at 1. unfold get at 1. rewrite (load_string_eq _ _ _ _ HC), Hs.
  cbn zeta. unfold ptr_add; simpl.
  pose proof (cstring_length _ _ Hs) as Hlen. rewrite length_drop in Hlen.
  pose proof (strspn_le rest delimiters) as Hk.
  destruct (drop (strspn rest delimiters) rest) as [|c r] eqn:E; [done|].
  assert (length (c :: r) = length rest - strspn rest delimiters) as Hl.
  { by rewrite <- E, length_drop. }
  pose proof (strcspn_le (c :: r) delimiters) as Hm.
  destruct (drop (strcspn (c :: r) delimiters) (c :: r)) as [|c' r'] eqn:E';
    [done|].
  assert (strcspn (c :: r) delimiters < length (c :: r)) as Hm'.
  { apply (f_equal length) in E'. rewrite length_drop in E'. simpl in *. lia. }
  unfold bind, store, store_cells, modify. simpl blk. simpl off. rewrite HC.
  simpl. rewrite decide_True by (simpl in *; lia). done.
Qed.

Lemma length_encode_ptr p : length (encode ptr_size (Vptr p)) = ptr_size.
Proof. simpl. by rewrite length_fmap, length_seq. Qed.

Lemma store_index_ptr st bb T i p :
  block_at (heap st) bb = Some T →
  (i + 1) * ptr_size ≤ length T →
  store_index ptr_size (Vptr (Ptr bb 0)) i (Vptr p) st =
    Ret tt (set_heap (<[bb := Some (list_inserts (i * ptr_size)
                                      (encode ptr_size (Vptr p)) T)]>
                        (heap st)) st).
Proof.
  intros HT Hi. unfold store_index, store, store_cells, slot, ptr_add.
  simpl blk. simpl off. rewrite HT. simpl.
  rewrite length_fmap, length_seq, decide_True by lia. done.
Qed.

Lemma scan_S fuel o s :
  scan (S fuel) o s =
    match drop (strspn s delimiters) s with
    | [] => []
    | (_ :: _) as s1 =>
        (o + strspn s delimiters, take (strcspn s1 delimiters) s1) ::
        scan fuel (o + strspn s delimiters + strcspn s1 delimiters + 1)
             (drop (strcspn s1 delimiters + 1) s1)
    end.
Proof. done. Qed.

Lemma nul_out_S fuel o s cs :
  nul_out (S fuel) o s cs =
    match drop (strspn s delimiters) s with
    | [] => cs
    | (_ :: _) as s1 =>
        match drop (strcspn s1 delimiters) s1 with
        | [] => cs
        | _ :: r =>
            nul_out fuel (o + strspn s delimiters + strcspn s1 delimiters + 1)
              r (<[o + strspn s delimiters + strcspn s1 delimiters
                   := Chr NUL]> cs)
        end
    end.
Proof. done. Qed.

Lemma nul_out_nil fuel o cs : nul_out fuel o [] cs = cs.
Proof. by destruct fuel. Qed.

Lemma set_heap_id st : set_heap (heap st) st = st.
Proof. by destruct st. Qed.

Lemma heap_unchanged st ba bb C T :
  block_at (heap st) ba = Some C →
  block_at (heap st) bb = Some T →
  set_heap (<[ba:=Some C]> (<[bb:=Some T]> (heap st))) st = st.
Proof.
  intros HC HT. rewrite (list_insert_id _ bb) by (by apply block_at_lookup).
  rewrite list_insert_id by (by apply block_at_lookup). apply set_heap_id.
Qed.


(** The first call of [strtok] followed by the loop of [parseLine]: the
    loop returns the number of tokens [scan] lists, leaves their pointers in
    the token array and the content [nul_out] in the duplicate. *)
Lemma parse_loop_sim f : ∀ st X ba bb o C T rest i,
  ba ≠ bb →
  block_at (heap st) ba = Some C →
  block_at (heap st) bb = Some T →
  (X = Vptr (Ptr ba o) ∨ X = Vnull ∧ olds st = Vptr (Ptr ba o)) →
  cstring (drop o C) = Some rest →
  length rest ≤ f →
  (i + length (scan (S f) o rest)) * ptr_size ≤ length T →
  ∃ v,
    (let* token := strtok X delimiters in
     parse_loop ptr_size f (Vptr (Ptr bb 0)) token i) st =
    Ret (i + length (scan (S f) o rest))
        (set_olds v
           (set_heap
              (<[ba := Some (nul_out (S f) o rest C)]>
                 (<[bb := Some (store_slots ptr_size T i
                                  (ptr_in ba <$> scan (S f) o rest))]>
                    (heap st))) st)).
Proof.
  induction f as [|f IH]; intros st X ba bb o C T rest i Hne HC HT HX Hs Hf Hi.
  - destruct rest; [|simpl in Hf; lia].
    rewrite scan_nil, nul_out_nil.
    rewrite (bind_Ret _ _ _ _ _ (strtok_step _ _ _ _ _ _ HC HX Hs)).
    simpl. eexists. unfold bind, get, ret. simpl. rewrite ?Nat.add_0_r.
    rewrite (heap_unchanged _ _ _ _ _ HC HT). reflexivity.
  - pose proof (strtok_step _ _ _ _ _ _ HC HX Hs) as Hstep.
    rewrite scan_S in Hi |- *. rewrite nul_out_S. cbn zeta in Hstep.
    pose proof (strspn_le rest delimiters) as Hk.
    destruct (drop (strspn rest delimiters) rest) as [|c r] eqn:E.
    { rewrite (bind_Ret _ _ _ _ _ Hstep).
      simpl. eexists. unfold bind, get, ret. simpl. rewrite ?Nat.add_0_r.
      rewrite (heap_unchanged _ _ _ _ _ HC HT). reflexivity. }
    cbv beta iota zeta in Hi, Hstep |- *.
    set (k := strspn rest delimiters) in *.
    set (m := strcspn (c :: r) delimiters) in *.
    assert (length (c :: r) = length rest - k) as Hl.
    { by rewrite <- E, length_drop. }
    assert (Hsuf : cstring (drop (o + k) C) = Some (c :: r)).
    { rewrite <- drop_drop, <- E. by apply cstring_drop. }
    assert (Hm : m ≤ length (c :: r)) by apply strcspn_le.
    cbn [length] in Hi.
    destruct (drop m (c :: r)) as [|c' r'] eqn:E'.
    + (* the token reaches the end of the line *)
      assert (drop (m + 1) (c :: r) = []) as E2.
      { rewrite <- drop_drop, E'. done. }
      rewrite E2 in Hi |- *. rewrite scan_nil in Hi |- *.
      set (T1 := list_inserts (i * ptr_size)
                    (encode ptr_size (Vptr (Ptr ba (o + k)))) T).
      destruct (IH (set_heap (<[bb:=Some T1]> (heap st))
                      (set_olds (Vptr (Ptr ba (o + k + m))) st))
                   Vnull ba bb (o + k + m) C T1 [] (i + 1) Hne)
        as [v Hv].
      * simpl. rewrite block_at_insert_ne by done. done.
      * simpl. apply block_at_insert_eq. by eapply block_at_lt.
      * right. done.
      * rewrite <- drop_drop, <- E'. by apply cstring_drop.
      * simpl. lia.
      * unfold T1. rewrite scan_nil, length_inserts. simpl. lia.
      * exists v.
        rewrite (bind_Ret _ _ _ _ _ Hstep). clear Hstep.
        cbn [parse_loop]. unfold bind at 1. unfold get at 1. cbn [is_null].
        rewrite (bind_Ret _ _ _ _ _
                   (store_index_ptr
                      (set_olds (Vptr (Ptr ba (o + k + m))) st)
                      bb T i (Ptr ba (o + k)) HT ltac:(simpl; lia))).
        subst T1. refine (eq_trans Hv _).
        rewrite ?scan_nil, ?nul_out_nil. simpl.
        f_equal; [lia|]. unfold set_olds, set_heap, ptr_in. simpl.
        f_equal. rewrite list_insert_insert_eq. done.
    + (* the token is ended by a delimiter, which strtok overwrites *)
      assert (Hm' : m < length (c :: r)).
      { apply (f_equal length) in E'. rewrite length_drop in E'.
        simpl in *. lia. }
      pose proof (block_at_lt _ _ _ HC) as Hba.
      pose proof (block_at_lt _ _ _ HT) as Hbb.
      pose proof (cstring_length _ _ Hsuf) as HlC. rewrite length_drop in HlC.
      assert (drop (m + 1) (c :: r) = r') as E2.
      { rewrite <- drop_drop, E'. done. }
      rewrite E2 in Hi |- *.
      set (T1 := list_inserts (i * ptr_size)
                    (encode ptr_size (Vptr (Ptr ba (o + k)))) T).
      set (C1 := <[o + k + m:=Chr NUL]> C).
      destruct (IH (set_heap (<[bb:=Some T1]> (<[ba:=Some C1]> (heap st)))
                      (set_olds (Vptr (Ptr ba (o + k + m + 1))) st))
                   Vnull ba bb (o + k + m + 1) C1 T1 r' (i + 1) Hne)
        as [v Hv].
      * simpl. rewrite block_at_insert_ne by done.
        by apply block_at_insert_eq.
      * simpl. apply block_at_insert_eq. by rewrite length_insert.
      * right. done.
      * unfold C1. rewrite drop_insert_lt by lia.
        replace (o + k + m + 1) with ((o + k) + (m + 1)) by lia.
        rewrite <- drop_drop, <- E2. apply cstring_drop; [done|lia].
      * apply (f_equal length) in E2. rewrite length_drop in E2.
        simpl in *. lia.
      * unfold T1. rewrite length_inserts. simpl. lia.
      * exists v.
        rewrite (bind_Ret _ _ _ _ _ Hstep). clear Hstep.
        cbn [parse_loop]. unfold bind at 1. unfold get at 1. cbn [is_null].
        rewrite (bind_Ret _ _ _ _ _
                   (store_index_ptr
                      (set_olds (Vptr (Ptr ba (o + k + m + 1)))
                         (set_heap (<[ba:=Some C1]> (heap st)) st))
                      bb T i (Ptr ba (o + k))
                      ltac:(simpl; by rewrite block_at_insert_ne)
                      ltac:(simpl; lia))).
        subst T1 C1. refine (eq_trans Hv _). simpl. f_equal; [lia|].
        unfold set_olds, set_heap, ptr_in. simpl. f_equal.
        rewrite list_insert_insert_eq.
        rewrite (list_insert_insert_ne _ bb ba) by done.
        rewrite list_insert_insert_eq.
        reflexivity.
Qed.

Lemma bind_assoc {A B C} (m : M A) (f : A → M B) (g : B → M C) st :
  bind (bind m f) g st = bind m (fun x => bind (f x) g) st.
Proof. unfold bind. by destruct (m st). Qed.

Lemma block_at_app_l (h h' : heap_t) b :
  b < length h → block_at (h ++ h') b = block_at h b.
Proof. intros H. unfold block_at. by rewrite lookup_app_l. Qed.

Lemma block_at_app_r (h h' : heap_t) b :
  block_at (h ++ h') (length h + b) = block_at h' b.
Proof.
  unfold block_at. rewrite lookup_app_r by lia.
  by replace (length h + b - length h) with b by lia.
Qed.

Lemma length_fresh_array st :
  length (fresh_array ptr_size st) = ptr_size * (buffer_size st / 2).
Proof. unfold fresh_array. by rewrite length_inserts, length_fmap, length_seq. Qed.

Ltac mstep lem :=
  lazymatch goal with
  | |- bind ?m ?k ?st = _ => rewrite (bind_Ret m k st _ _ lem); cbv beta
  end.

Lemma store_last st h J new :
  heap st = h ++ [Some J] →
  length new ≤ length J →
  store (Vptr (Ptr (length h) 0)) new st =
    Ret tt (set_heap (h ++ [Some (list_inserts 0 new J)]) st).
Proof.
  intros Hh Hn. unfold store, store_cells. simpl. rewrite Hh.
  replace (length h) with (length h + 0) at 1 by lia.
  rewrite block_at_app_r. simpl. rewrite decide_True by done.
  rewrite insert_app_r_alt by lia. by rewrite Nat.sub_diag.
Qed.

Lemma malloc_eq n st :
  malloc n st =
    Ret (Vptr (Ptr (length (heap st)) 0))
        (set_heap (heap st ++ [Some (junk st (length (heap st)) <$> seq 0 n)])
           st).
Proof. done. Qed.

Lemma strdup_spec st bl ol L s :
  block_at (heap st) bl = Some L →
  cstring (drop ol L) = Some s →
  strdup (Vptr (Ptr bl ol)) st =
    Ret (Vptr (Ptr (length (heap st)) 0))
        (set_heap (heap st ++ [Some ((Chr <$> s) ++ [Chr NUL])]) st).
Proof.
  intros HL Hs. unfold strdup.
  assert (get (λ st, load_string (heap st) (Vptr (Ptr bl ol))) st = Ret s st)
    as H1.
  { unfold get. by rewrite (load_string_eq _ _ _ _ HL), Hs. }
  mstep H1. mstep (malloc_eq (length s + 1) st).
  set (J := junk st (length (heap st)) <$> seq 0 (length s + 1)).
  assert (length ((Chr <$> s) ++ [Chr NUL]) = length J) as Hlen.
  { unfold J. rewrite length_app, !length_fmap, length_seq. done. }
  mstep (store_last (set_heap (heap st ++ [Some J]) st) (heap st) J
           ((Chr <$> s) ++ [Chr NUL]) eq_refl ltac:(lia)).
  unfold ret, set_heap. simpl. do 4 f_equal.
  rewrite <- (app_nil_r J), list_inserts_0_r by done. by rewrite app_nil_r.
Qed.

(** [parseLine] on a line whose characters [s] fit the line buffer: it
    returns the token array, allocated as block [length (heap st)], and
    the number of tokens, and adds to the heap that array and the
    duplicate of the line, nothing else. *)
Lemma parseLine_spec st bl ol L s :
  0 < ptr_size →
  block_at (heap st) bl = Some L →
  cstring (drop ol L) = Some s →
  length s < buffer_size st →
  ∃ v,
    parseLine ptr_size (Vptr (Ptr bl ol)) st =
    Ret (Vptr (Ptr (length (heap st)) 0), length (tokens_of s))
        (set_olds v
           (set_heap
              (heap st ++
               [Some (store_slots ptr_size (fresh_array ptr_size st) 0
                        (ptr_in (S (length (heap st))) <$>
                         scan (S (length s)) 0 s));
                Some (nul_out (S (length s)) 0 s ((Chr <$> s) ++ [Chr NUL]))])
              st)).
Proof.
  intros HP HL Hs Hlen.
  pose proof (block_at_lt _ _ _ HL) as Hbl.
  destruct (cstring_inv _ _ Hs) as [Hnn _].
  set (n0 := length (heap st)).
  set (J := junk st n0 <$> seq 0 (ptr_size * (buffer_size st / 2))).
  set (T0 := fresh_array ptr_size st).
  set (C0 := (Chr <$> s) ++ [Chr NUL]).
  set (st1 := set_heap (heap st ++ [Some T0]) st).
  set (st2 := set_heap (heap st ++ [Some T0; Some C0]) st).
  assert (HT0 : block_at (heap st2) n0 = Some T0).
  { unfold st2. simpl.
    replace n0 with (length (heap st) + 0) by (unfold n0; lia).
    by rewrite block_at_app_r. }
  assert (HC0 : block_at (heap st2) (S n0) = Some C0).
  { unfold st2. simpl.
    replace (S n0) with (length (heap st) + 1) by (unfold n0; lia).
    by rewrite block_at_app_r. }
  destruct (parse_loop_sim (length s) st2 (Vptr (Ptr (S n0) 0))
              (S n0) n0 0 C0 T0 s 0) as [v Hv]; try done.
  - by left.
  - rewrite drop_0. by apply cstring_chars.
  - unfold T0. rewrite length_fresh_array.
    pose proof (scan_length (S (length s)) 0 s) as H2.
    assert (length (scan (S (length s)) 0 s) ≤ buffer_size st / 2) as H3.
    { apply Nat.div_le_lower_bound; lia. }
    revert H3. generalize (buffer_size st / 2).
    generalize (length (scan (S (length s)) 0 s)). intros a b Hab.
    rewrite Nat.add_0_l, (Nat.mul_comm a). by apply Nat.mul_le_mono_l.
  - exists v. unfold parseLine.
    mstep (eq_refl : state_of st = Ret st st).
    mstep (malloc_eq (ptr_size * (buffer_size st / 2)) st).
    fold n0. fold J.
    assert (length (replicate (buffer_size st / 2) (Chr NUL)) ≤ length J)
      as HJ.
    { unfold J. rewrite length_replicate, length_fmap, length_seq.
      generalize (buffer_size st / 2). intros a.
      rewrite <- (Nat.mul_1_l a) at 1. apply Nat.mul_le_mono_r. lia. }
    unfold memset.
    mstep (store_last (set_heap (heap st ++ [Some J]) st) (heap st) J
             _ eq_refl HJ).
    change (set_heap _ (set_heap _ st)) with st1.
    assert (strdup (Vptr (Ptr bl ol)) st1 = Ret (Vptr (Ptr (S n0) 0)) st2)
      as Hdup.
    { rewrite (strdup_spec st1 bl ol L s); [|by unfold st1; simpl;
        rewrite block_at_app_l|done].
      unfold st1, st2. simpl. rewrite length_app. simpl.
      unfold set_heap. simpl. rewrite <- app_assoc. simpl.
      do 3 f_equal. unfold n0. lia. }
    mstep Hdup.
    assert (strlen (Vptr (Ptr (S n0) 0)) st2 = Ret (length s) st2) as Hstrlen.
    { unfold strlen, get. rewrite (load_string_eq _ _ _ _ HC0), drop_0.
      unfold C0. by rewrite cstring_chars. }
    mstep Hstrlen.
    rewrite <- bind_assoc. mstep Hv.
    unfold ret. unfold tokens_of. rewrite length_fmap. simpl. f_equal.
    unfold st2, set_olds, set_heap. simpl. f_equal.
    unfold n0.
    rewrite (insert_app_r_alt (heap st)) by lia.
    replace (length (heap st) - length (heap st)) with 0 by lia. simpl.
    rewrite cons_middle, app_assoc.
    rewrite insert_app_r_alt by (rewrite length_app; simpl; lia).
    rewrite length_app. simpl.
    replace (S (length (heap st)) - (length (heap st) + 1)) with 0 by lia.
    simpl. rewrite <- app_assoc. done.
Qed.

(** ** The content of the token array and of the duplicate *)

Lemma length_store_slots T i ps :
  length (store_slots ptr_size T i ps) = length T.
Proof.
  revert T i. induction ps as [|p ps IH]; intros T i; simpl; [done|].
  by rewrite IH, length_inserts.
Qed.

(** Cells outside the slots written keep their content. *)
Lemma store_slots_outside T i ps y :
  y < i * ptr_size ∨ (i + length ps) * ptr_size ≤ y →
  store_slots ptr_size T i ps !! y = T !! y.
Proof.
  revert T i. induction ps as [|p ps IH]; intros T i Hy; [done|].
  cbn [store_slots]. cbn [length] in Hy.
  rewrite IH by nia.
  destruct Hy as [Hy|Hy].
  - by rewrite list_lookup_inserts_lt.
  - rewrite list_lookup_inserts_ge; [done|].
    rewrite length_encode_ptr. nia.
Qed.

(** Slot [i + j] holds the representation of the [j]-th pointer. *)
Lemma store_slots_inside T i ps j p x :
  (i + length ps) * ptr_size ≤ length T →
  ps !! j = Some p → x < ptr_size →
  store_slots ptr_size T i ps !! ((i + j) * ptr_size + x) = Some (Frag p x).
Proof.
  revert T i j. induction ps as [|q ps IH]; intros T i j HT Hj Hx; [done|].
  cbn [store_slots]. cbn [length] in HT. destruct j as [|j].
  - injection Hj as ->. rewrite store_slots_outside by nia.
    rewrite list_lookup_inserts.
    2:{ rewrite length_encode_ptr. nia. }
    2:{ nia. }
    replace ((i + 0) * ptr_size + x - i * ptr_size) with x by nia.
    simpl. rewrite list_lookup_fmap, lookup_seq_lt by done. done.
  - replace (i + S j) with (i + 1 + j) by lia. apply IH; [|done|done].
    rewrite length_inserts. nia.
Qed.

Lemma take_drop_lookup {A} (l k : list A) o :
  o + length k ≤ length l →
  (∀ x, x < length k → l !! (o + x) = k !! x) →
  take (length k) (drop o l) = k.
Proof.
  intros Hl H. apply list_eq. intros x.
  destruct (decide (x < length k)) as [Hx|Hx].
  - rewrite lookup_take_lt, lookup_drop by done. by apply H.
  - rewrite lookup_take_ge by lia. symmetry. apply lookup_ge_None. lia.
Qed.

Lemma decode_encode_ptr p :
  0 < ptr_size → decode ptr_size (encode ptr_size (Vptr p)) = Vptr p.
Proof.
  intros HP. unfold decode, encode.
  destruct ptr_size as [|n]; [lia|]. simpl.
  by rewrite decide_True.
Qed.

Lemma decode_zero : decode ptr_size (replicate ptr_size (Chr NUL)) = Vnull.
Proof. unfold decode. by rewrite decide_True. Qed.

(** Reading entry [j] of an array held in block [b]. *)
Lemma index_eq h b T j cells :
  block_at h b = Some T →
  (j + 1) * ptr_size ≤ length T →
  take ptr_size (drop (j * ptr_size) T) = cells →
  index ptr_size h (Vptr (Ptr b 0)) j = Some (decode ptr_size cells).
Proof.
  intros HT Hj <-. unfold index, load_cells, slot, ptr_add. simpl.
  rewrite HT. simpl. rewrite decide_True by lia. done.
Qed.

Lemma index_store_slots h b T ps j p :
  0 < ptr_size →
  block_at h b = Some (store_slots ptr_size T 0 ps) →
  length ps * ptr_size ≤ length T →
  ps !! j = Some p →
  index ptr_size h (Vptr (Ptr b 0)) j = Some (Vptr p).
Proof.
  intros HP Hb HT Hj. pose proof (lookup_lt_Some _ _ _ Hj) as Hlt.
  rewrite <- (decode_encode_ptr p HP).
  apply (index_eq _ _ _ _ _ Hb).
  - rewrite length_store_slots. nia.
  - rewrite <- (length_encode_ptr p) at 1. apply take_drop_lookup.
    + rewrite length_encode_ptr, length_store_slots. nia.
    + intros x Hx. rewrite length_encode_ptr in Hx.
      change (j * ptr_size + x) with ((0 + j) * ptr_size + x).
      rewrite (store_slots_inside T 0 ps j p x) by (simpl; done || lia).
      simpl. by rewrite list_lookup_fmap, lookup_seq_lt.
Qed.

(** Past the last token the array is as [parseLine] cleared it. *)
Lemma index_past_slots h b T ps j :
  block_at h b = Some (store_slots ptr_size T 0 ps) →
  length ps ≤ j →
  (j + 1) * ptr_size ≤ length T →
  index ptr_size h (Vptr (Ptr b 0)) j =
    Some (decode ptr_size (take ptr_size (drop (j * ptr_size) T))).
Proof.
  intros Hb Hj HT. apply (index_eq _ _ _ _ _ Hb).
  - by rewrite length_store_slots.
  - apply list_eq. intros x.
    destruct (decide (x < ptr_size)) as [Hx|Hx].
    + rewrite !lookup_take_lt, !lookup_drop by done.
      apply store_slots_outside. right. simpl. nia.
    + by rewrite !lookup_take_ge by lia.
Qed.

Lemma nul_out_prefix fuel : ∀ o s C,
  take o (nul_out fuel o s C) = take o C.
Proof.
  induction fuel as [|fuel IH]; intros o s C; [done|].
  rewrite nul_out_S.
  destruct (drop (strspn s delimiters) s) as [|c r]; [done|].
  cbv beta iota zeta.
  destruct (drop (strcspn (c :: r) delimiters) (c :: r)) as [|c' r']; [done|].
  set (o' := o + strspn s delimiters + strcspn (c :: r) delimiters + 1).
  replace o with (o `min` o') by lia.
  rewrite <- take_take, IH, take_take, take_insert_ge by lia. done.
Qed.

(** A string that ends before offset [n] reads the same in any content
    that agrees up to [n]. *)
Lemma cstring_prefix A B q t n :
  cstring (drop q A) = Some t →
  q + length t < n →
  take n A = take n B →
  cstring (drop q B) = Some t.
Proof.
  intros Ht Hn HAB.
  destruct (cstring_inv _ _ Ht) as [Hnn [r Hr]].
  pose proof (cstring_length _ _ Ht) as Hl. rewrite length_drop in Hl.
  assert (take (S (length t)) (drop q B) = (Chr <$> t) ++ [Chr NUL]) as HB.
  { rewrite take_drop_commute.
    replace (take (q + S (length t)) B)
      with (take (q + S (length t)) (take n B))
      by (rewrite take_take; f_equal; lia).
    rewrite <- HAB, take_take.
    replace ((q + S (length t)) `min` n) with (q + S (length t)) by lia.
    rewrite <- take_drop_commute.
    rewrite Hr. rewrite (cons_middle (Chr NUL)), app_assoc.
    rewrite take_app_length'; [done|].
    rewrite length_app, length_fmap. simpl. lia. }
  rewrite <- (take_drop (S (length t)) (drop q B)), HB.
  rewrite <- app_assoc. simpl. by apply cstring_chars.
Qed.

(** Every token [scan] lists is, in the end, the string at its offset. *)
Lemma scan_tokens fuel : ∀ o s C j q t,
  cstring (drop o C) = Some s →
  scan fuel o s !! j = Some (q, t) →
  cstring (drop q (nul_out fuel o s C)) = Some t.
Proof.
  induction fuel as [|fuel IH]; intros o s C j q t Hs Hj; [done|].
  rewrite scan_S in Hj. rewrite nul_out_S.
  pose proof (strspn_le s delimiters) as Hk.
  destruct (drop (strspn s delimiters) s) as [|c r] eqn:E; [done|].
  cbv beta iota zeta in Hj |- *.
  set (k := strspn s delimiters) in *.
  set (m := strcspn (c :: r) delimiters) in *.
  assert (Hsuf : cstring (drop (o + k) C) = Some (c :: r)).
  { rewrite <- drop_drop, <- E. by apply cstring_drop. }
  assert (Hm : m ≤ length (c :: r)) by apply strcspn_le.
  pose proof (cstring_length _ _ Hsuf) as HlC. rewrite length_drop in HlC.
  destruct (drop m (c :: r)) as [|c' r'] eqn:E'.
  - assert (drop (m + 1) (c :: r) = []) as E2.
    { rewrite <- drop_drop, E'. done. }
    rewrite E2, scan_nil in Hj. destruct j as [|j]; [|done].
    injection Hj as <- <-. rewrite take_ge; [done|].
    apply (f_equal length) in E'. rewrite length_drop in E'. simpl in *. lia.
  - assert (Hm' : m < length (c :: r)).
    { apply (f_equal length) in E'. rewrite length_drop in E'.
      simpl in *. lia. }
    assert (drop (m + 1) (c :: r) = r') as E2.
    { rewrite <- drop_drop, E'. done. }
    rewrite E2 in Hj.
    assert (cstring (drop (o + k + m + 1) (<[o + k + m:=Chr NUL]> C))
            = Some r') as Hnext.
    { rewrite drop_insert_lt by lia.
      replace (o + k + m + 1) with ((o + k) + (m + 1)) by lia.
      rewrite <- drop_drop, <- E2. apply cstring_drop; [done|lia]. }
    destruct j as [|j].
    + injection Hj as <- <-.
      apply (cstring_prefix (<[o + k + m:=Chr NUL]> C) _ _ _ (o + k + m + 1)).
      * apply cstring_cut; [done|lia].
      * rewrite length_take. lia.
      * by rewrite nul_out_prefix.
    + simpl in Hj. by eapply IH.
Qed.

(** ** What [parseLine] leaves in memory *)

Lemma lookup_tokens_of s j t :
  tokens_of s !! j = Some t →
  ∃ q, scan (S (length s)) 0 s !! j = Some (q, t).
Proof.
  unfold tokens_of. rewrite list_lookup_fmap.
  destruct (scan (S (length s)) 0 s !! j) as [[q t']|]; [|done].
  intros [= <-]. by exists q.
Qed.

Lemma block_at_app_0 (h : heap_t) x l : block_at (h ++ x :: l) (length h) = x.
Proof.
  unfold block_at. rewrite lookup_app_r by lia. by rewrite Nat.sub_diag.
Qed.

Lemma block_at_app_1 (h : heap_t) x y l :
  block_at (h ++ x :: y :: l) (S (length h)) = y.
Proof.
  unfold block_at. rewrite lookup_app_r by lia.
  by replace (S (length h) - length h) with 1 by lia.
Qed.


Lemma parsed_heap_array st s :
  block_at (parsed_heap ptr_size st s) (length (heap st)) =
    Some (store_slots ptr_size (fresh_array ptr_size st) 0
            (ptr_in (S (length (heap st))) <$> scan (S (length s)) 0 s)).
Proof.
  apply block_at_app_0.
Qed.

Lemma parsed_heap_dup st s :
  block_at (parsed_heap ptr_size st s) (S (length (heap st))) =
    Some (nul_out (S (length s)) 0 s ((Chr <$> s) ++ [Chr NUL])).
Proof.
  apply block_at_app_1.
Qed.

Lemma tokens_fit st s :
  0 < ptr_size → length s < buffer_size st →
  length (scan (S (length s)) 0 s) * ptr_size
    ≤ length (fresh_array ptr_size st).
Proof.
  intros HP Hlen. rewrite length_fresh_array.
  pose proof (scan_length (S (length s)) 0 s) as H2.
  assert (length (scan (S (length s)) 0 s) ≤ buffer_size st / 2) as H3.
  { apply Nat.div_le_lower_bound; lia. }
  rewrite Nat.mul_comm. by apply Nat.mul_le_mono_l.
Qed.

(** Entry [j] of the token array points to the [j]-th token. *)
Lemma parsed_token st s j t :
  0 < ptr_size → no_nul s → length s < buffer_size st →
  tokens_of s !! j = Some t →
  ∃ p, index ptr_size (parsed_heap ptr_size st s) (Vptr (Ptr (length (heap st)) 0)) j
         = Some (Vptr p)
       ∧ load_string (parsed_heap ptr_size st s) (Vptr p) = Some t.
Proof.
  intros HP Hnn Hlen Hj. apply lookup_tokens_of in Hj as [q Hq].
  exists (Ptr (S (length (heap st))) q). split.
  - eapply index_store_slots; [done|apply parsed_heap_array| |].
    + rewrite length_fmap. by apply tokens_fit.
    + by rewrite list_lookup_fmap, Hq.
  - rewrite (load_string_eq _ _ _ _ (parsed_heap_dup st s)).
    eapply scan_tokens; [|done]. rewrite drop_0. by apply cstring_chars.
Qed.

Lemma token_seq_parsed st s :
  0 < ptr_size → no_nul s → length s < buffer_size st →
  token_seq ptr_size (parsed_heap ptr_size st s) (Vptr (Ptr (length (heap st)) 0))
    (length (tokens_of s)) = Some (tokens_of s).
Proof.
  intros HP Hnn Hlen. unfold token_seq. apply mapM_Some.
  apply Forall2_same_length_lookup. split; [by rewrite length_seq|].
  intros j x t Hx Ht. apply lookup_seq in Hx as [-> _]. simpl.
  destruct (parsed_token st s j t HP Hnn Hlen Ht) as [p [-> Hp]]. done.
Qed.

(** The entry after the last token: the cells the allocator gave, cleared
    as far as [memset] went. *)
Lemma parsed_sentinel_cells st s n :
  0 < ptr_size → length s < buffer_size st →
  length (tokens_of s) ≤ n →
  (n + 1) * ptr_size ≤ ptr_size * (buffer_size st / 2) →
  index ptr_size (parsed_heap ptr_size st s) (Vptr (Ptr (length (heap st)) 0)) n =
    Some (decode ptr_size
            (take ptr_size (drop (n * ptr_size) (fresh_array ptr_size st)))).
Proof.
  intros HP Hlen Hn Hfit.
  eapply index_past_slots; [apply parsed_heap_array| |].
  - unfold tokens_of in Hn. rewrite length_fmap in Hn.
    by rewrite length_fmap.
  - by rewrite length_fresh_array.
Qed.

Lemma fresh_array_zero st y :
  0 < ptr_size → y < buffer_size st / 2 →
  fresh_array ptr_size st !! y = Some (Chr NUL).
Proof.
  intros HP Hy. unfold fresh_array.
  rewrite list_lookup_inserts.
  - rewrite Nat.sub_0_r. by apply lookup_replicate_2.
  - rewrite length_replicate. lia.
  - rewrite length_fmap, length_seq.
    generalize dependent (buffer_size st / 2). intros. nia.
Qed.

Lemma fresh_array_junk st y :
  buffer_size st / 2 ≤ y → y < ptr_size * (buffer_size st / 2) →
  fresh_array ptr_size st !! y = Some (junk st (length (heap st)) y).
Proof.
  intros Hy Hy'. unfold fresh_array.
  rewrite list_lookup_inserts_ge by (rewrite length_replicate; lia).
  by rewrite list_lookup_fmap, lookup_seq_lt.
Qed.

(** Within the cleared part the entry after the last token is null. *)
Lemma parsed_sentinel st s :
  0 < ptr_size → length s < buffer_size st →
  (length (tokens_of s) + 1) * ptr_size ≤ buffer_size st / 2 →
  index ptr_size (parsed_heap ptr_size st s) (Vptr (Ptr (length (heap st)) 0))
    (length (tokens_of s)) = Some Vnull.
Proof.
  intros HP Hlen Hn.
  assert (buffer_size st / 2 ≤ ptr_size * (buffer_size st / 2)) as Hle.
  { generalize (buffer_size st / 2). intros. nia. }
  rewrite parsed_sentinel_cells by (done || lia).
  rewrite <- decode_zero. do 2 f_equal.
  rewrite <- (length_replicate ptr_size (Chr NUL)) at 1.
  apply take_drop_lookup.
  - rewrite length_replicate, length_fresh_array. lia.
  - intros x Hx. rewrite length_replicate in Hx.
    rewrite fresh_array_zero by (done || nia).
    symmetry. by apply lookup_replicate_2.
Qed.

Lemma parsed_args_array st s :
  0 < ptr_size → no_nul s → length s < buffer_size st →
  (length (tokens_of s) + 1) * ptr_size ≤ buffer_size st / 2 →
  args_array ptr_size (parsed_heap ptr_size st s) (Vptr (Ptr (length (heap st)) 0))
    (tokens_of s).
Proof.
  intros HP Hnn Hlen Hn. split.
  - intros j t Hj. by apply parsed_token.
  - by apply parsed_sentinel.
Qed.

Lemma decode_null cells :
  decode ptr_size cells = Vnull → cells = replicate ptr_size (Chr NUL).
Proof.
  unfold decode. case_decide; [done|].
  destruct cells as [|[c|p k] cells]; try done. by case_decide.
Qed.

(** Beyond the cleared part the entry is what the allocator left there. *)
Lemma parsed_no_sentinel st s :
  0 < ptr_size → length s < buffer_size st →
  buffer_size st / 2 < (length (tokens_of s) + 1) * ptr_size →
  junk st (length (heap st)) ((length (tokens_of s) + 1) * ptr_size - 1)
    ≠ Chr NUL →
  index ptr_size (parsed_heap ptr_size st s) (Vptr (Ptr (length (heap st)) 0))
    (length (tokens_of s)) ≠ Some Vnull.
Proof.
  intros HP Hlen Hn Hjunk Hidx.
  assert (length (scan (S (length s)) 0 s) = length (tokens_of s)) as Hsc.
  { unfold tokens_of. by rewrite length_fmap. }
  revert Hn Hjunk Hidx Hsc. generalize (length (tokens_of s)).
  intros n Hn Hjunk Hidx Hsc.
  unfold index, load_cells, slot, ptr_add in Hidx. simpl in Hidx.
  rewrite parsed_heap_array in Hidx. simpl in Hidx.
  rewrite length_store_slots, length_fresh_array in Hidx.
  case_decide as Hfit; [|done]. simpl in Hidx. injection Hidx as Hidx.
  apply decode_null in Hidx.
  apply (f_equal (fun l => l !! (ptr_size - 1))) in Hidx.
  rewrite lookup_take_lt, lookup_drop in Hidx by lia.
  rewrite store_slots_outside in Hidx.
  2:{ right. rewrite length_fmap, Hsc. simpl. nia. }
  rewrite lookup_replicate_2 in Hidx by lia.
  rewrite fresh_array_junk in Hidx by nia.
  injection Hidx as Hidx. apply Hjunk. rewrite <- Hidx. f_equal. nia.
Qed.

(** ** Builtins *)

Lemma get_Some {A} (f : state → option A) st a :
  f st = Some a → get f st = Ret a st.
Proof. unfold get. by intros ->. Qed.

Lemma load_index_eq st a i v :
  index ptr_size (heap st) a i = Some v →
  load_index ptr_size a i st = Ret v st.
Proof. intros H. unfold load_index, get. by rewrite H. Qed.

Lemma index_in_bounds h a j v :
  index ptr_size h a j = Some v →
  ∃ b o T, a = Vptr (Ptr b o) ∧ block_at h b = Some T
           ∧ o + j * ptr_size + ptr_size ≤ length T.
Proof.
  unfold index, load_cells, slot. destruct a as [|[b o]|]; try done.
  simpl. destruct (block_at h b) as [T|] eqn:E; [|done]. simpl.
  case_decide; [|done]. intros _. exists b, o, T. split_and!; [done..|lia].
Qed.

Lemma echo_loop_unfold fuel a i :
  echo_loop ptr_size fuel a i =
    (let* go := echo_test ptr_size a i in
     if go : bool
     then match fuel with
          | 0 => fun st => Fuel st
          | S fuel' =>
              let* v := load_index ptr_size a i in
              let* s := get (fun st => load_string (heap st) v) in
              let* _ := printf (s ++ [SP]) in
              echo_loop ptr_size fuel' a (i + 1)
          end
     else ret tt).
Proof. by destruct fuel. Qed.

Lemma echo_test_null st a i :
  index ptr_size (heap st) a i = Some Vnull →
  echo_test ptr_size a i st = Ret false st.
Proof.
  intros H. unfold echo_test.
  mstep (load_index_eq st a i _ H).
  mstep (eq_refl : get (fun _ => is_null Vnull) st = Ret true st).
  done.
Qed.

Lemma echo_test_ptr st a i p :
  index ptr_size (heap st) a i = Some (Vptr p) →
  echo_test ptr_size a i st = Ret true st.
Proof.
  intros H. unfold echo_test.
  mstep (load_index_eq st a i _ H).
  mstep (eq_refl : get (fun _ => is_null (Vptr p)) st = Ret false st).
  mstep (load_index_eq st a i _ H).
  mstep (eq_refl : get (fun _ => is_null (Vptr p)) st = Ret false st).
  done.
Qed.

Lemma echo_loop_spec a rest : ∀ i fuel st,
  (∀ j t, rest !! j = Some t →
     ∃ p, index ptr_size (heap st) a (i + j) = Some (Vptr p)
          ∧ load_string (heap st) (Vptr p) = Some t) →
  index ptr_size (heap st) a (i + length rest) = Some Vnull →
  length rest ≤ fuel →
  echo_loop ptr_size fuel a i st =
    Ret tt (set_stdout (stdout st ++ echo_text rest) st).
Proof.
  induction rest as [|t rest IH]; intros i fuel st Hargs Hnull Hfuel.
  - rewrite echo_loop_unfold. simpl in Hnull. rewrite Nat.add_0_r in Hnull.
    mstep (echo_test_null st a i Hnull).
    unfold ret, echo_text. simpl. rewrite app_nil_r. by destruct st.
  - destruct fuel as [|fuel]; [simpl in Hfuel; lia|].
    destruct (Hargs 0 t eq_refl) as [p [Hp Ht]]. rewrite Nat.add_0_r in Hp.
    rewrite echo_loop_unfold.
    mstep (echo_test_ptr st a i p Hp).
    mstep (load_index_eq st a i _ Hp).
    mstep (get_Some (fun st => load_string (heap st) (Vptr p)) st t Ht).
    mstep (eq_refl : printf (t ++ [SP]) st
                     = Ret tt (set_stdout (stdout st ++ t ++ [SP]) st)).
    rewrite IH.
    + unfold echo_text. simpl. rewrite <- !app_assoc. done.
    + intros j t' Hj. destruct (Hargs (S j) t' Hj) as [p' [Hp' Ht']].
      exists p'. simpl. by replace (i + 1 + j) with (i + S j) by lia.
    + simpl. simpl in Hnull.
      by replace (i + 1 + length rest) with (i + S (length rest)) by lia.
    + simpl in Hfuel. lia.
Qed.

Lemma block_size_eq h b o T :
  block_at h b = Some T → block_size h (Vptr (Ptr b o)) = Some (length T).
Proof. unfold block_size. simpl. by intros ->. Qed.

(** [simpleShellEcho] on a well-formed argument array. *)
Lemma simpleShellEcho_spec st a cmd args :
  0 < ptr_size →
  args_array ptr_size (heap st) a (cmd :: args) →
  simpleShellEcho ptr_size a st =
    Ret 1%Z (set_stdout (stdout st ++ echo_text args ++ [LF]) st).
Proof.
  intros HP [Hargs Hnull].
  destruct (index_in_bounds _ _ _ _ Hnull) as (b & o & T & -> & HT & Hlen).
  unfold simpleShellEcho.
  mstep (get_Some (fun st => block_size (heap st) (Vptr (Ptr b o))) st _
           (block_size_eq _ _ o _ HT)).
  assert (length args ≤ length T) as Hfuel by (simpl in Hlen; nia).
  mstep (echo_loop_spec (Vptr (Ptr b o)) args 1 (length T) st
           (fun j t Hj => Hargs (S j) t Hj) Hnull Hfuel).
  unfold bind, printf, modify, ret. simpl. by rewrite <- app_assoc.
Qed.

(** ** simpleShellCd *)

Lemma simpleShellCd_no_path st a :
  index ptr_size (heap st) a 1 = Some Vnull →
  simpleShellCd ptr_size a st = Ret 1%Z st.
Proof.
  intros H. unfold simpleShellCd.
  mstep (load_index_eq st a 1 _ H).
  mstep (eq_refl : get (fun _ => is_null Vnull) st = Ret true st).
  done.
Qed.

Lemma chdir_eq st p path :
  load_string (heap st) (Vptr p) = Some path →
  chdir (Vptr p) st =
    match fs st (cwd st) path with
    | Some d => Ret 0%Z (log (EvChdir path true) (set_cwd d st))
    | None => Ret (-1)%Z (log (EvChdir path false) st)
    end.
Proof.
  intros H. unfold chdir.
  mstep (get_Some (fun st => load_string (heap st) (Vptr p)) st _ H). done.
Qed.

Lemma simpleShellCd_path st a p path :
  index ptr_size (heap st) a 1 = Some (Vptr p) →
  load_string (heap st) (Vptr p) = Some path →
  simpleShellCd ptr_size a st =
    match fs st (cwd st) path with
    | Some d => Ret 1%Z (log (EvChdir path true) (set_cwd d st))
    | None =>
        Ret 1%Z (set_stdout
                   (stdout st ++ chars "cd failed, check your path" ++ [LF])
                   (log (EvChdir path false) st))
    end.
Proof.
  intros H Hpath. unfold simpleShellCd.
  mstep (load_index_eq st a 1 _ H).
  mstep (eq_refl : get (fun _ => is_null (Vptr p)) st = Ret false st).
  rewrite bind_assoc. pose proof (chdir_eq st p path Hpath) as Hcd.
  destruct (fs st (cwd st) path) as [d|]; mstep Hcd; done.
Qed.

(** ** executeCommand *)

Lemma executeCommand_empty st a :
  index ptr_size (heap st) a 0 = Some Vnull →
  executeCommand ptr_size a st = Ret 1%Z st.
Proof.
  intros H. unfold executeCommand.
  mstep (load_index_eq st a 0 _ H).
  mstep (eq_refl : get (fun _ => is_null Vnull) st = Ret true st).
  done.
Qed.

(** The table lookup: the command named [name] runs the handler found at
    the first index [i] with [builtin_commands[i] = name]. *)
Lemma builtin_loop_found st a p name : ∀ n i f,
  index ptr_size (heap st) a 0 = Some (Vptr p) →
  load_string (heap st) (Vptr p) = Some name →
  builtin_commands !! i = Some name →
  builtin_pointers ptr_size !! i = Some f →
  builtin_loop ptr_size (S n) i a st = f a st.
Proof.
  intros n i f Ha Hn Hi Hf. cbn [builtin_loop].
  mstep (load_index_eq st a 0 _ Ha).
  mstep (get_Some (fun _ => builtin_commands !! i) st _ Hi).
  unfold strcmp0. rewrite bind_assoc.
  mstep (get_Some (fun st => load_string (heap st) (Vptr p)) st _ Hn).
  unfold bind at 1. unfold ret at 1. rewrite bool_decide_eq_true_2 by done.
  mstep (get_Some (fun _ => builtin_pointers ptr_size !! i) st _ Hf).
  done.
Qed.

Lemma builtin_loop_skip st a p name other : ∀ n i,
  index ptr_size (heap st) a 0 = Some (Vptr p) →
  load_string (heap st) (Vptr p) = Some name →
  builtin_commands !! i = Some other → name ≠ other →
  builtin_loop ptr_size (S n) i a st = builtin_loop ptr_size n (i + 1) a st.
Proof.
  intros n i Ha Hn Hi Hne. cbn [builtin_loop].
  mstep (load_index_eq st a 0 _ Ha).
  mstep (get_Some (fun _ => builtin_commands !! i) st _ Hi).
  unfold strcmp0. rewrite bind_assoc.
  mstep (get_Some (fun st => load_string (heap st) (Vptr p)) st _ Hn).
  unfold bind at 1. unfold ret at 1. rewrite bool_decide_eq_false_2 by done.
  done.
Qed.

Lemma executeCommand_nonempty st a p :
  index ptr_size (heap st) a 0 = Some (Vptr p) →
  executeCommand ptr_size a st = builtin_loop ptr_size num_builtins 0 a st.
Proof.
  intros H. unfold executeCommand.
  mstep (load_index_eq st a 0 _ H).
  mstep (eq_refl : get (fun _ => is_null (Vptr p)) st = Ret false st).
  done.
Qed.

(** A line whose first token is [echo] runs [simpleShellEcho]. *)
Lemma executeCommand_echo st a args :
  args_array ptr_size (heap st) a (chars "echo" :: args) →
  executeCommand ptr_size a st = simpleShellEcho ptr_size a st.
Proof.
  intros [Hargs _]. destruct (Hargs 0 _ eq_refl) as [p [Hp Hs]].
  rewrite (executeCommand_nonempty _ _ _ Hp). unfold num_builtins.
  rewrite (builtin_loop_skip _ _ _ _ (chars "cd") 3 0 Hp Hs) by done.
  cbn [Nat.add].
  rewrite (builtin_loop_skip _ _ _ _ (chars "help") 2 1 Hp Hs) by done.
  cbn [Nat.add].
  by rewrite (builtin_loop_found _ _ _ _ 1 2 (simpleShellEcho ptr_size) Hp Hs).
Qed.

(** ** startProcess *)


Lemma wait_loop_final fuel w st :
  final w = true → wait_loop fuel w st = Ret tt st.
Proof. by destruct fuel, w. Qed.

Lemma wait_loop_unfold fuel sig st :
  wait_loop (S fuel) (WStopped sig) st =
    (let* w := waitpid (pid st) in wait_loop fuel w) st.
Proof. done. Qed.

(** The parent keeps waiting through the stop notifications and returns at
    the first final status. *)
Lemma wait_loop_stops stops : ∀ fuel sig st fin rest,
  waits st = (WStopped <$> stops) ++ fin :: rest →
  final fin = true →
  length stops < fuel →
  wait_loop fuel (WStopped sig) st =
    Ret tt (set_trace
              (trace st ++
               (EvWaitpid (pid st) <$> ((WStopped <$> stops) ++ [fin])))
              (set_waits rest st)).
Proof.
  induction stops as [|s0 stops IH]; intros fuel sig st fin rest Hw Hfin Hfuel;
    (destruct fuel as [|fuel]; [simpl in Hfuel; lia|]);
    rewrite wait_loop_unfold; unfold bind, waitpid; rewrite Hw; simpl.
  - by rewrite wait_loop_final.
  - rewrite (IH fuel s0 _ fin rest); [|done|done|simpl in Hfuel; lia].
    unfold log, set_trace, set_waits. simpl. by rewrite <- app_assoc.
Qed.

(** With only stop notifications ahead the parent never returns. *)
Lemma wait_loop_blocks stops : ∀ fuel sig st,
  waits st = WStopped <$> stops →
  length stops < fuel →
  wait_loop fuel (WStopped sig) st =
    Blocked (set_trace
               (trace st ++ (EvWaitpid (pid st) <$> (WStopped <$> stops)))
               (set_waits [] st)).
Proof.
  induction stops as [|s0 stops IH]; intros fuel sig st Hw Hfuel;
    (destruct fuel as [|fuel]; [simpl in Hfuel; lia|]);
    rewrite wait_loop_unfold; unfold bind, waitpid; rewrite Hw; simpl.
  - rewrite app_nil_r. destruct st; simpl in *. by subst.
  - rewrite (IH fuel s0); [|done|simpl in Hfuel; lia].
    unfold log, set_trace, set_waits. simpl. by rewrite <- app_assoc.
Qed.


#[local] Arguments child_of_fork : simpl never.

Lemma fork_parent st a c fk :
  forks st = c :: fk → (0 < c)%Z →
  fork (after_fork ptr_size a) st =
    Ret c (log (EvFork c (Some (child_of_fork ptr_size a st))) (set_forks fk st)).
Proof.
  intros Hf Hc. unfold fork, child_of_fork. rewrite Hf. cbn [tail].
  by rewrite (proj2 (Z.ltb_lt 0 c) Hc).
Qed.

Lemma after_fork_parent st a c :
  (0 < c)%Z →
  after_fork ptr_size a c st =
    (let* child_status := waitpid c in
     let* st1 := state_of in
     let* _ := wait_loop (S (length (waits st1))) child_status in
     let* _ := modify (set_pid (-1)%Z) in
     ret 1%Z) (set_pid c st).
Proof.
  intros Hc. unfold after_fork.
  mstep (eq_refl : modify (set_pid c) st = Ret tt (set_pid c st)).
  mstep (eq_refl : state_of (set_pid c st) = Ret (set_pid c st) (set_pid c st)).
  simpl pid. rewrite (proj2 (Z.eqb_neq c 0)) by lia.
  rewrite (proj2 (Z.ltb_ge c 0)) by lia.
  unfold bind, state_of. destruct (waitpid c (set_pid c st)); try done.
  by destruct (wait_loop _ _ _).
Qed.

(** Normal form of a state built from nested updates: every field is
    computed without expanding the updates first. *)
Ltac state_simpl :=
  cbn [heap buffer_size pid olds stdin stdout cwd trace on_sigint junk forks
       waits fs runnable set_heap set_buffer_size set_pid set_olds set_stdin
       set_stdout set_cwd set_trace set_forks set_waits set_on_sigint log].

Lemma state_ext s1 s2 :
  heap s1 = heap s2 → buffer_size s1 = buffer_size s2 → pid s1 = pid s2 →
  olds s1 = olds s2 → stdin s1 = stdin s2 → stdout s1 = stdout s2 →
  cwd s1 = cwd s2 → trace s1 = trace s2 → on_sigint s1 = on_sigint s2 →
  junk s1 = junk s2 → forks s1 = forks s2 → waits s1 = waits s2 →
  fs s1 = fs s2 → runnable s1 = runnable s2 → s1 = s2.
Proof. destruct s1, s2; simpl; intros; by subst. Qed.

(** Two states are equal when their fields are. *)
Ltac state_eq := apply state_ext; state_simpl; try done.

Lemma waitpid_eq st p w ws :
  waits st = w :: ws →
  waitpid p st = Ret w (log (EvWaitpid p w) (set_waits ws st)).
Proof. intros H. unfold waitpid. by rewrite H. Qed.

Lemma waitpid_blocked st p : waits st = [] → waitpid p st = Blocked st.
Proof. intros H. unfold waitpid. by rewrite H. Qed.

Lemma bind_Blocked {A B} (m : M A) (k : A → M B) st st' :
  m st = Blocked st' → bind m k st = Blocked st'.
Proof. unfold bind. by intros ->. Qed.

(** [startProcess] in the parent when the child ends after the stop
    notifications [stops]. *)
Lemma startProcess_returns st a c fk stops fin rest :
  forks st = c :: fk → (0 < c)%Z →
  waits st = (WStopped <$> stops) ++ fin :: rest →
  final fin = true →
  startProcess ptr_size a st =
    Ret 1%Z
      (set_pid (-1)%Z
         (set_trace
            (trace st ++ EvFork c (Some (child_of_fork ptr_size a st)) ::
             (EvWaitpid c <$> ((WStopped <$> stops) ++ [fin])))
            (set_waits rest (set_forks fk st)))).
Proof.
  intros Hf Hc Hw Hfin. unfold startProcess.
  mstep (fork_parent st a c fk Hf Hc).
  rewrite after_fork_parent by done.
  set (st1 := set_pid c (log (EvFork c (Some (child_of_fork ptr_size a st)))
                           (set_forks fk st))).
  destruct stops as [|s0 stops]; cbn [fmap list_fmap app] in Hw.
  - mstep (waitpid_eq st1 c _ _ Hw).
    set (st2 := log (EvWaitpid c fin) (set_waits rest st1)).
    mstep (eq_refl : state_of st2 = Ret st2 st2).
    mstep (wait_loop_final (S (length (waits st2))) fin st2 Hfin).
    unfold bind, modify, ret, st2, st1. f_equal. state_eq.
    cbn [fmap list_fmap app]. by rewrite <- app_assoc.
  - mstep (waitpid_eq st1 c _ _ Hw).
    lazymatch goal with |- bind _ _ ?s = _ => set (st2 := s) end.
    mstep (eq_refl : state_of st2 = Ret st2 st2).
    assert (length stops < S (length (waits st2))) as Hfuel.
    { unfold st2. state_simpl. rewrite length_app, length_fmap. lia. }
    mstep (wait_loop_stops stops (S (length (waits st2))) s0 st2 fin rest
             eq_refl Hfin Hfuel).
    unfold bind, modify, ret, st2, st1. f_equal. state_eq.
    cbn [fmap list_fmap app]. by rewrite <- !app_assoc.
Qed.

(** [startProcess] in the parent when the child is only ever stopped: the
    call blocks, with the child still recorded in [pid]. *)
Lemma startProcess_blocks st a c fk stops :
  forks st = c :: fk → (0 < c)%Z →
  waits st = WStopped <$> stops →
  startProcess ptr_size a st =
    Blocked
      (set_pid c
         (set_trace
            (trace st ++ EvFork c (Some (child_of_fork ptr_size a st)) ::
             (EvWaitpid c <$> (WStopped <$> stops)))
            (set_waits [] (set_forks fk st)))).
Proof.
  intros Hf Hc Hw. unfold startProcess.
  mstep (fork_parent st a c fk Hf Hc).
  rewrite after_fork_parent by done.
  set (st1 := set_pid c (log (EvFork c (Some (child_of_fork ptr_size a st)))
                           (set_forks fk st))).
  destruct stops as [|s0 stops]; cbn [fmap list_fmap app] in Hw.
  - rewrite (bind_Blocked _ _ _ _ (waitpid_blocked st1 c Hw)).
    unfold st1. f_equal. state_eq.
  - mstep (waitpid_eq st1 c _ _ Hw).
    lazymatch goal with |- bind _ _ ?s = _ => set (st2 := s) end.
    mstep (eq_refl : state_of st2 = Ret st2 st2).
    assert (length stops < S (length (waits st2))) as Hfuel.
    { unfold st2. state_simpl. rewrite length_fmap. lia. }
    rewrite (bind_Blocked _ _ _ _
               (wait_loop_blocks stops (S (length (waits st2))) s0 st2
                  eq_refl Hfuel)).
    unfold st2, st1. f_equal. state_eq.
    cbn [fmap list_fmap app]. by rewrite <- !app_assoc.
Qed.

(** ** The argument vector of the child *)

Lemma read_argv_spec h a rest : ∀ i fuel,
  (∀ j t, rest !! j = Some t →
     ∃ p, index ptr_size h a (i + j) = Some (Vptr p)
          ∧ load_string h (Vptr p) = Some t) →
  index ptr_size h a (i + length rest) = Some Vnull →
  length rest < fuel →
  read_argv ptr_size fuel h a i = Some rest.
Proof.
  induction rest as [|t rest IH]; intros i fuel Hargs Hnull Hfuel;
    (destruct fuel as [|fuel]; [simpl in Hfuel; lia|]); cbn [read_argv].
  - simpl in Hnull. rewrite Nat.add_0_r in Hnull. by rewrite Hnull.
  - destruct (Hargs 0 t eq_refl) as [p [Hp Ht]]. rewrite Nat.add_0_r in Hp.
    rewrite Hp. cbn [mbind option_bind is_null]. rewrite Ht.
    cbn [mbind option_bind]. rewrite IH; [done| | |].
    + intros j t' Hj. destruct (Hargs (S j) t' Hj) as [p' [Hp' Ht']].
      exists p'. by replace (i + 1 + j) with (i + S j) by lia.
    + simpl in Hnull.
      by replace (i + 1 + length rest) with (i + S (length rest)) by lia.
    + simpl in Hfuel. lia.
Qed.

(** With the null pointer in place, [execvp] is given exactly the
    tokens. *)
Lemma argv_of_args_array h a toks :
  0 < ptr_size →
  args_array ptr_size h a toks → argv_of ptr_size h a = Some toks.
Proof.
  intros HP [Hargs Hnull].
  destruct (index_in_bounds _ _ _ _ Hnull) as (b & o & T & -> & HT & Hlen).
  unfold argv_of. rewrite (block_size_eq _ _ o _ HT).
  cbn [mbind option_bind]. apply read_argv_spec; [done|done|nia].
Qed.

(** In the child, [startProcess] runs the program named by the first
    token with the tokens as its arguments; when the program cannot be
    started it reports the error and ends the child with status 1. *)
Lemma after_fork_child st a prog args :
  0 < ptr_size →
  args_array ptr_size (heap st) a (prog :: args) →
  after_fork ptr_size a 0%Z st =
    if runnable st prog
    then Exec prog (prog :: args) (set_pid 0%Z st)
    else Exit 1%Z (log (EvPerror (chars "simple-shell")) (set_pid 0%Z st)).
Proof.
  intros HP Harr. pose proof Harr as [Hargs _].
  destruct (Hargs 0 prog eq_refl) as [p [Hp Hs]].
  unfold after_fork.
  mstep (eq_refl : modify (set_pid 0%Z) st = Ret tt (set_pid 0%Z st)).
  mstep (eq_refl : state_of (set_pid 0%Z st)
                   = Ret (set_pid 0%Z st) (set_pid 0%Z st)).
  cbn [pid set_pid Z.eqb]. rewrite !bind_assoc.
  mstep (load_index_eq (set_pid 0%Z st) a 0 _ Hp).
  unfold execvp. rewrite !bind_assoc.
  mstep (get_Some (fun st => load_string (heap st) (Vptr p))
           (set_pid 0%Z st) _ Hs).
  rewrite !bind_assoc.
  mstep (get_Some (fun st => argv_of ptr_size (heap st) a) (set_pid 0%Z st) _
           (argv_of_args_array _ _ _ HP Harr)).
  unfold bind. cbn [runnable set_pid]. by destruct (runnable st prog).
Qed.

Lemma child_of_fork_spec st a prog args :
  0 < ptr_size →
  args_array ptr_size (heap st) a (prog :: args) →
  child_of_fork ptr_size a st =
    if runnable st prog then ChildExec prog (prog :: args) else ChildExit 1.
Proof.
  intros HP Harr. unfold child_of_fork.
  rewrite (after_fork_child (set_forks (tail (forks st)) st) a prog args
             HP Harr).
  cbn [runnable set_forks]. by destruct (runnable st prog).
Qed.

(** ** signalHandler *)


Lemma signalHandler_eq sig st :
  signalHandler sig st =
    Exit 0%Z
      (if bool_decide (pid st ≠ (-1)%Z)
       then log (EvKill (pid st) SIGINT)
                (set_stdout (stdout st ++ notice) st)
       else set_stdout (stdout st ++ notice) st).
Proof.
  unfold signalHandler, bind, printf, modify, state_of, exit, kill, ret.
  simpl. by destruct (bool_decide (pid st ≠ (-1)%Z)).
Qed.

(** ** readLine *)

Lemma readLine_eof st :
  stdin st = [] →
  readLine st =
    Ret (Vptr (Ptr (length (heap st)) 0))
        (set_heap
           (heap st ++
            [Some (junk st (length (heap st)) <$> seq 0 (1 * buffer_size st))])
           st).
Proof.
  intros Hin. unfold readLine.
  mstep (eq_refl : state_of st = Ret st st).
  mstep (malloc_eq (1 * buffer_size st) st).
  unfold bind, getline. simpl stdin. by rewrite Hin.
Qed.

Lemma list_inserts_0_prefix {A} (new J : list A) :
  length new ≤ length J →
  list_inserts 0 new J = new ++ drop (length new) J.
Proof.
  intros H. rewrite <- (take_drop (length new) J) at 1.
  apply list_inserts_0_r. rewrite length_take. lia.
Qed.


Lemma size_for_fits st n : n < size_for st n.
Proof. unfold size_for. case_decide; lia. Qed.

Lemma size_for_grows st n : buffer_size st ≤ size_for st n.
Proof. unfold size_for. case_decide; lia. Qed.

(** [readLine] when input is left: the buffer holds the next line and a
    NUL, [buffer_size] is the size of the buffer and exceeds the length of
    the line. *)
Lemma readLine_line st c r :
  stdin st = c :: r →
  let l := (next_line (c :: r)).1 in
  let size := size_for st (length l) in
  readLine st =
    Ret (Vptr (Ptr (length (heap st)) 0))
        (set_stdin (next_line (c :: r)).2
           (set_buffer_size size
              (set_heap
                 (heap st ++
                  [Some ((Chr <$> l) ++ Chr NUL ::
                         drop (length l + 1)
                           (junk st (length (heap st)) <$> seq 0 size))])
                 st))).
Proof.
  intros Hin l size. unfold readLine.
  mstep (eq_refl : state_of st = Ret st st).
  mstep (malloc_eq (1 * buffer_size st) st).
  set (n0 := length (heap st)).
  set (J := junk st n0 <$> seq 0 (1 * buffer_size st)).
  set (st1 := set_heap (heap st ++ [Some J]) st).
  assert (getline (Vptr (Ptr n0 0)) st1 =
          Ret (Z.of_nat (length l))
            (set_stdin (next_line (c :: r)).2
               (set_buffer_size size
                  (set_heap
                     (heap st ++
                      [Some ((Chr <$> l) ++ Chr NUL ::
                             drop (length l + 1) (junk st n0 <$> seq 0 size))])
                     st)))) as Hget.
  { unfold getline. simpl stdin. rewrite Hin.
    destruct (next_line (c :: r)) as [l' rest] eqn:E. simpl in l. subst l.
    simpl snd. simpl buffer_size. fold (size_for st (length l')). unfold size.
    unfold size_for. case_decide as Hgrow.
    - set (sz := (length l' + 1) `max` (2 * buffer_size st)).
      assert (grow (Vptr (Ptr n0 0)) sz st1 =
              Ret tt (set_heap (heap st ++ [Some (junk st n0 <$> seq 0 sz)])
                        st)) as Hgrow'.
      { unfold grow, st1. simpl. unfold n0. rewrite block_at_app_0.
        rewrite insert_app_r_alt, Nat.sub_diag by lia. simpl.
        f_equal. state_eq. do 3 f_equal. unfold J, n0.
        rewrite length_fmap, length_seq, <- fmap_app. f_equal.
        rewrite Nat.mul_1_l. rewrite <- seq_app. f_equal. unfold sz. lia. }
      set (J2 := junk st n0 <$> seq 0 sz) in *.
      set (st2 := set_heap (heap st ++ [Some J2]) st) in *.
      set (st3 := set_buffer_size sz st2).
      assert (length ((Chr <$> l') ++ [Chr NUL]) ≤ length J2) as Hfit.
      { unfold J2, sz. rewrite length_app, !length_fmap, length_seq.
        simpl. lia. }
      rewrite bind_assoc. mstep Hgrow'.
      mstep (eq_refl : modify (set_buffer_size sz) st2 = Ret tt st3).
      mstep (store_last st3 (heap st) J2 ((Chr <$> l') ++ [Chr NUL])
               eq_refl Hfit).
      unfold bind, modify, ret. f_equal. unfold st3, st2. state_eq.
      do 3 f_equal. rewrite list_inserts_0_prefix by done.
      rewrite <- app_assoc, length_app, length_fmap. done.
    - assert (length ((Chr <$> l') ++ [Chr NUL]) ≤ length J) as Hfit.
      { unfold J. rewrite length_app, !length_fmap, length_seq.
        simpl. lia. }
      mstep (eq_refl : ret tt st1 = Ret tt st1).
      mstep (store_last st1 (heap st) J ((Chr <$> l') ++ [Chr NUL])
               eq_refl Hfit).
      unfold bind, modify, ret. f_equal. unfold st1. state_eq.
      do 3 f_equal. rewrite list_inserts_0_prefix by done.
      rewrite <- app_assoc, length_app, length_fmap. unfold J.
      by rewrite Nat.mul_1_l. }
  mstep Hget. done.
Qed.

(** The C string at the start of a buffer that holds the characters [l]
    and then a NUL: [l] itself, or its part before an earlier NUL. *)
Lemma cstring_line l tail :
  ∃ s, cstring ((Chr <$> l) ++ Chr NUL :: tail) = Some s
       ∧ length s ≤ length l ∧ (no_nul l → s = l).
Proof.
  induction l as [|c l (s & Hs & Hlen & Heq)].
  - exists []. by split_and!.
  - cbn [fmap list_fmap app cstring]. destruct (is_nul c) eqn:E.
    + exists []. split_and!; [done|simpl; lia|].
      intros Hn. apply Forall_cons in Hn as [Hn _]. congruence.
    + exists (c :: s). cbn [fmap list_fmap] in Hs. rewrite Hs.
      split_and!; [done|simpl; lia|].
      intros Hn. apply Forall_cons in Hn as [_ Hn]. by rewrite Heq.
Qed.

(** Every line [readLine] returns is a C string shorter than
    [buffer_size]: what [parseLine] relies on for its token array. *)
Lemma readLine_fits st c r :
  stdin st = c :: r →
  ∃ st' L s,
    readLine st = Ret (Vptr (Ptr (length (heap st)) 0)) st'
    ∧ block_at (heap st') (length (heap st)) = Some L
    ∧ cstring (drop 0 L) = Some s
    ∧ length s < buffer_size st'
    ∧ buffer_size st ≤ buffer_size st'
    ∧ (no_nul (next_line (c :: r)).1 → s = (next_line (c :: r)).1).
Proof.
  intros Hin. pose proof (readLine_line st c r Hin) as H. cbv zeta in H.
  set (l := (next_line (c :: r)).1) in *.
  destruct (cstring_line l
              (drop (length l + 1)
                 (junk st (length (heap st)) <$>
                  seq 0 (size_for st (length l))))) as (s & Hs & Hlen & Heq).
  eexists _, _, s. split; [exact H|]. simpl.
  split; [apply block_at_app_0|]. split; [done|].
  pose proof (size_for_fits st (length l)).
  pose proof (size_for_grows st (length l)).
  split_and!; [lia|done|done].
Qed.

(** ** The main loop at end of input *)

Lemma main_while_unfold fuel status tokens :
  main_while ptr_size (S fuel) status tokens =
    if (status =? 0)%Z then ret tt
    else
      let* line := readLine in
      let* isnull := get (fun _ => is_null line) in
      let* r :=
        if negb isnull
        then let* t := parseLine ptr_size line in
             let* status' := executeCommand ptr_size (fst t) in
             let* _ := printf prompt in
             ret (status', fst t)
        else ret (status, tokens) in
      let* _ := free line in
      let* _ := free (snd r) in
      main_while ptr_size fuel (fst r) (snd r).
Proof. done. Qed.

Lemma free_block st b T :
  block_at (heap st) b = Some T →
  free (Vptr (Ptr b 0)) st = Ret tt (set_heap (<[b := None]> (heap st)) st).
Proof. intros H. unfold free. by rewrite H. Qed.

(** One iteration at end of input, when fresh memory reads as zero: the
    buffer [readLine] returns holds the empty string, which is tokenized
    and executed as an empty command; a prompt is printed and the loop goes
    on with status 1. *)
Lemma main_while_eof_step fuel st tokens :
  0 < ptr_size → 2 * ptr_size ≤ buffer_size st →
  stdin st = [] →
  (∀ b i, junk st b i = Chr NUL) →
  ∃ st' tokens',
    main_while ptr_size (S fuel) 1%Z tokens st =
      main_while ptr_size fuel 1%Z tokens' st'
    ∧ stdout st' = stdout st ++ prompt
    ∧ stdin st' = [] ∧ junk st' = junk st
    ∧ buffer_size st' = buffer_size st
    ∧ trace st' = trace st ∧ pid st' = pid st.
Proof.
  intros HP Hbs Hin Hjunk. rewrite main_while_unfold. cbn [Z.eqb].
  set (n0 := length (heap st)).
  set (Z0 := junk st n0 <$> seq 0 (1 * buffer_size st)).
  set (st1 := set_heap (heap st ++ [Some Z0]) st).
  assert (HZ : block_at (heap st1) n0 = Some Z0) by apply block_at_app_0.
  assert (Hs : cstring (drop 0 Z0) = Some []).
  { unfold Z0. destruct (buffer_size st) as [|k]; [lia|].
    rewrite Nat.mul_1_l. simpl. by rewrite Hjunk. }
  destruct (parseLine_spec st1 n0 0 Z0 [] HP HZ Hs) as [v Hparse];
    [simpl; lia|].
  fold (parsed_heap ptr_size st1 []) in Hparse.
  set (st2 := set_olds v (set_heap (parsed_heap ptr_size st1 []) st1)) in *.
  set (n1 := length (heap st1)) in *.
  assert (Hnull : index ptr_size (heap st2) (Vptr (Ptr n1 0)) 0 = Some Vnull).
  { apply (parsed_sentinel st1 []); [done|simpl; lia|].
    change (length (tokens_of [])) with 0. change (buffer_size st1)
      with (buffer_size st).
    apply Nat.div_le_lower_bound; lia. }
  set (st3 := set_stdout (stdout st2 ++ prompt) st2).
  assert (Hline : block_at (heap st3) n0 = Some Z0).
  { simpl. unfold parsed_heap. rewrite block_at_app_l; [done|].
    unfold st1. simpl. rewrite length_app. simpl. unfold n0. lia. }
  set (st4 := set_heap (<[n0 := None]> (heap st3)) st3).
  assert (Htok : is_Some (block_at (heap st4) n1)).
  { simpl. rewrite block_at_insert_ne.
    - rewrite parsed_heap_array. done.
    - unfold n1, st1. simpl. rewrite length_app. simpl. unfold n0. lia. }
  destruct Htok as [T Htok].
  exists (set_heap (<[n1 := None]> (heap st4)) st4), (Vptr (Ptr n1 0)).
  split; [|by split_and!].
  mstep (readLine_eof st Hin).
  mstep (eq_refl : get (fun _ => is_null (Vptr (Ptr n0 0))) st1
                   = Ret false st1).
  cbn [negb]. rewrite !bind_assoc. mstep Hparse.
  cbn [fst]. rewrite !bind_assoc.
  mstep (executeCommand_empty st2 (Vptr (Ptr n1 0)) Hnull).
  rewrite !bind_assoc.
  mstep (eq_refl : printf prompt st2 = Ret tt st3).
  mstep (eq_refl : ret (1%Z, Vptr (Ptr n1 0)) st3
                   = Ret (1%Z, Vptr (Ptr n1 0)) st3).
  mstep (free_block st3 n0 Z0 Hline). cbn [snd fst].
  mstep (free_block st4 n1 T Htok). done.
Qed.

(** At end of input the loop never stops: after any number [n] of
    iterations it is still running, and has printed [n] more prompts. *)
Lemma main_while_eof n : ∀ st tokens,
  0 < ptr_size → 2 * ptr_size ≤ buffer_size st →
  stdin st = [] →
  (∀ b i, junk st b i = Chr NUL) →
  ∃ st',
    main_while ptr_size n 1%Z tokens st = Fuel st'
    ∧ stdout st' = stdout st ++ concat (replicate n prompt)
    ∧ trace st' = trace st ∧ pid st' = pid st.
Proof.
  induction n as [|n IH]; intros st tokens HP Hbs Hin Hjunk.
  - exists st. simpl. by rewrite app_nil_r.
  - destruct (main_while_eof_step n st tokens HP Hbs Hin Hjunk)
      as (st1 & tokens1 & -> & Hout & Hin1 & Hjunk1 & Hbs1 & Htr & Hpid).
    destruct (IH st1 tokens1 HP) as (st' & -> & Hout' & Htr' & Hpid').
    + lia.
    + done.
    + intros b i. by rewrite Hjunk1.
    + exists st'. split; [done|]. rewrite Hout', Hout, <- app_assoc.
      split; [done|]. split; congruence.
Qed.

(** * The claims *)

Lemma split_whitespace_blank s :
  Forall (fun c => is_space c = true) s → split_whitespace s = [].
Proof.
  induction 1 as [|c s Hc _ IH]; [done|].
  unfold split_whitespace in *. simpl. rewrite Hc.
  by rewrite filter_cons_False by (intros H; by apply H).
Qed.

Lemma parseLine_returns st bl ol L s :
  0 < ptr_size →
  block_at (heap st) bl = Some L →
  cstring (drop ol L) = Some s →
  length s < buffer_size st →
  ∃ st',
    parseLine ptr_size (Vptr (Ptr bl ol)) st =
      Ret (Vptr (Ptr (length (heap st)) 0), length (tokens_of s)) st'
    ∧ heap st' = parsed_heap ptr_size st s
    ∧ buffer_size st' = buffer_size st ∧ junk st' = junk st
    ∧ stdout st' = stdout st ∧ trace st' = trace st ∧ cwd st' = cwd st
    ∧ pid st' = pid st ∧ stdin st' = stdin st.
Proof.
  intros HP HL Hs Hlen.
  destruct (parseLine_spec st bl ol L s HP HL Hs Hlen) as [v Hv].
  eexists. split; [exact Hv|]. by split_and!.
Qed.

(** The line reader and the tokenizer together: for every line of input
    without NUL characters, reading it and tokenizing it gives its
    non-empty fields. *)
Lemma read_and_parse_tokens st c r :
  0 < ptr_size →
  stdin st = c :: r →
  no_nul (next_line (c :: r)).1 →
  ∃ buffer st',
    read_and_parse ptr_size st =
      Ret (buffer, length (split_whitespace (next_line (c :: r)).1)) st'
    ∧ token_seq ptr_size (heap st') buffer
        (length (split_whitespace (next_line (c :: r)).1))
      = Some (split_whitespace (next_line (c :: r)).1)
    ∧ stdin st' = (next_line (c :: r)).2.
Proof.
  intros HP Hin Hnn.
  pose proof (readLine_line st c r Hin) as Hread. cbv zeta in Hread.
  destruct (readLine_fits st c r Hin)
    as (st1 & L & s & Hread' & HL & Hs & Hfit & _ & Heq).
  rewrite Hread in Hread'. injection Hread' as <-.
  rewrite (Heq Hnn) in Hs, Hfit. clear Heq.
  set (l := (next_line (c :: r)).1) in *.
  match type of Hread with _ = Ret _ ?x => set (st1 := x) in * end.
  destruct (parseLine_returns st1 (length (heap st)) 0 L l HP HL Hs Hfit)
    as (st' & Hparse & Hheap & _ & _ & _ & _ & _ & _ & Hstdin).
  exists (Vptr (Ptr (length (heap st1)) 0)), st'.
  rewrite <- tokens_of_split. split; [|split].
  - unfold read_and_parse. mstep Hread. exact Hparse.
  - rewrite Hheap. by apply token_seq_parsed.
  - by rewrite Hstdin.
Qed.

(** C1, as the code behaves.  At end of input [readLine] still returns its
    buffer, so the loop does not stop: when input ends at the very first
    read and fresh memory reads as zero, the buffer holds the empty string,
    which is tokenized and executed as an empty command.  Whatever the
    number [n] of iterations followed, the loop is still running, a prompt
    was printed for each of them after the first one, and no exit took
    place. *)
Theorem eof_never_stops n dir fk ws fsys run :
  0 < ptr_size → ptr_size ≤ 40 →
  ∃ st',
    main ptr_size n (initial [] dir (fun _ _ => Chr NUL) fk ws fsys run)
      = Fuel st'
    ∧ stdout st' = concat (replicate (S n) prompt)
    ∧ trace st' = [].
Proof.
  intros HP HP'.
  set (st0 := set_stdout prompt
                (set_on_sigint true
                   (initial [] dir (fun _ _ => Chr NUL) fk ws fsys run))).
  destruct (main_while_eof n st0 (Vraw []) HP) as (st' & Hrun & Hout & Htr & _);
    [simpl; lia|done|done|].
  exists st'. split; [|by split].
  unfold main, mainLoop, bind, modify, printf. simpl.
  fold st0. by rewrite Hrun.
Qed.

(** C2.  For every line, [parseLine] returns the non-empty fields obtained
    by splitting the line at spaces and newlines, in order; the line
    ["  echo   a  b \n"] gives [echo], [a], [b]; and an empty or
    all-whitespace line gives no token, and executing its token array
    changes nothing and returns 1, the continue status.  The line is the C
    string at the pointer given, shorter than [buffer_size] as every line
    [readLine] returns is. *)
Theorem tokenizer_splits_on_whitespace st bl ol L s :
  0 < ptr_size →
  block_at (heap st) bl = Some L →
  cstring (drop ol L) = Some s →
  length s < buffer_size st →
  ∃ buffer st',
    parseLine ptr_size (Vptr (Ptr bl ol)) st =
      Ret (buffer, length (split_whitespace s)) st'
    ∧ token_seq ptr_size (heap st') buffer (length (split_whitespace s))
        = Some (split_whitespace s)
    ∧ split_whitespace (chars "  echo   a  b " ++ [LF])
        = [chars "echo"; chars "a"; chars "b"]
    ∧ (Forall (fun c => is_space c = true) s →
       2 * ptr_size ≤ buffer_size st →
       split_whitespace s = []
       ∧ executeCommand ptr_size buffer st' = Ret 1%Z st').
Proof.
  intros HP HL Hs Hlen.
  destruct (cstring_inv _ _ Hs) as [Hnn _].
  destruct (parseLine_returns st bl ol L s HP HL Hs Hlen)
    as (st' & Hparse & Hheap & _).
  rewrite tokens_of_split in Hparse.
  exists (Vptr (Ptr (length (heap st)) 0)), st'.
  split; [done|]. split.
  { rewrite Hheap, <- tokens_of_split. by apply token_seq_parsed. }
  split; [done|].
  intros Hblank Hbs. pose proof (split_whitespace_blank s Hblank) as Hnil.
  split; [done|]. apply executeCommand_empty. rewrite Hheap.
  assert (length (tokens_of s) = 0) as H0.
  { by rewrite tokens_of_split, Hnil. }
  rewrite <- H0 at 2. apply parsed_sentinel; [done|done|].
  rewrite H0. change ((0 + 1) * ptr_size) with (1 * ptr_size).
  apply Nat.div_le_lower_bound; lia.
Qed.

(** C3, amended.  For every argument list, [simpleShellEcho] prints each
    argument followed by a single space, then exactly one newline: with no
    argument it prints exactly one newline, and [echo a b] prints the six
    characters ["a b \n"]. *)
Theorem echo_prints_each_argument_then_space st a cmd args :
  0 < ptr_size →
  args_array ptr_size (heap st) a (cmd :: args) →
  simpleShellEcho ptr_size a st =
    Ret 1%Z (set_stdout (stdout st ++ echo_text args ++ [LF]) st)
  ∧ echo_text [] ++ [LF] = [LF]
  ∧ echo_text [chars "a"; chars "b"] ++ [LF] = chars "a b " ++ [LF].
Proof.
  intros HP Harr. split; [by eapply simpleShellEcho_spec|]. by split.
Qed.

(** C5.  For every launch in which [fork] returns a child's pid [c]: the
    parent records [c] in [pid] and waits for that child, with
    [waitpid(pid, ...)]; it goes on waiting through every stop
    notification; at the first final status (exited or signaled) it resets
    [pid] to -1 and returns 1, the continue status.  As long as only stop
    notifications arrive the call does not return, and [pid] still holds
    [c]. *)
Theorem startProcess_waits_for_the_child st a c fk stops fin rest :
  forks st = c :: fk → (0 < c)%Z → final fin = true →
  (waits st = (WStopped <$> stops) ++ fin :: rest →
   startProcess ptr_size a st =
     Ret 1%Z
       (set_pid (-1)%Z
          (set_trace
             (trace st ++ EvFork c (Some (child_of_fork ptr_size a st)) ::
              (EvWaitpid c <$> ((WStopped <$> stops) ++ [fin])))
             (set_waits rest (set_forks fk st)))))
  ∧ (waits st = WStopped <$> stops →
     startProcess ptr_size a st =
       Blocked
         (set_pid c
            (set_trace
               (trace st ++ EvFork c (Some (child_of_fork ptr_size a st)) ::
                (EvWaitpid c <$> (WStopped <$> stops)))
               (set_waits [] (set_forks fk st))))).
Proof.
  intros Hf Hc Hfin. split; intros Hw.
  - by apply startProcess_returns.
  - by apply startProcess_blocks.
Qed.

(** C6.  In every state, [signalHandler] prints the termination notice,
    sends SIGINT to the process recorded in [pid] if and only if [pid] is
    not -1, and then ends the interpreter with [exit]: whatever was to
    follow the handler is not run.  Once [main] has installed it, this is
    what the delivery of SIGINT does. *)
Theorem interrupt_relay st :
  ∃ st',
    signalHandler SIGINT st = Exit 0%Z st'
    ∧ stdout st' = stdout st ++ notice
    ∧ (pid st = (-1)%Z → trace st' = trace st)
    ∧ (pid st ≠ (-1)%Z → trace st' = trace st ++ [EvKill (pid st) SIGINT])
    ∧ (∀ A (k : unit → M A),
         (let* x := signalHandler SIGINT in k x) st = Exit 0%Z st')
    ∧ (on_sigint st = true → interrupt st = Exit 0%Z st').
Proof.
  eexists. split; [apply signalHandler_eq|].
  split; [by case_bool_decide|].
  split; [intros Hp; by rewrite bool_decide_eq_false_2 by (by intros H)|].
  split; [intros Hp; by rewrite bool_decide_eq_true_2|].
  split.
  - intros A k. unfold bind. by rewrite signalHandler_eq.
  - intros Hon. unfold interrupt. rewrite Hon. apply signalHandler_eq.
Qed.

(** C7.  [simpleShellCd] with no path argument does nothing and returns 1;
    with a path it calls [chdir]; on failure it prints an error, leaves the
    working directory as it was and returns 1, the continue status; on
    success the working directory is the one [chdir] resolved. *)
Theorem cd_failure_is_recoverable st a :
  (index ptr_size (heap st) a 1 = Some Vnull →
   simpleShellCd ptr_size a st = Ret 1%Z st)
  ∧ (∀ p path,
       index ptr_size (heap st) a 1 = Some (Vptr p) →
       load_string (heap st) (Vptr p) = Some path →
       (fs st (cwd st) path = None →
        ∃ st', simpleShellCd ptr_size a st = Ret 1%Z st'
               ∧ cwd st' = cwd st
               ∧ stdout st' =
                   stdout st ++ chars "cd failed, check your path" ++ [LF]
               ∧ trace st' = trace st ++ [EvChdir path false])
       ∧ (∀ d, fs st (cwd st) path = Some d →
          ∃ st', simpleShellCd ptr_size a st = Ret 1%Z st'
                 ∧ cwd st' = d ∧ stdout st' = stdout st)).
Proof.
  split; [apply simpleShellCd_no_path|].
  intros p path Hp Hpath.
  pose proof (simpleShellCd_path st a p path Hp Hpath) as H.
  split.
  - intros Hfs. rewrite Hfs in H. eexists. split; [exact H|]. by split_and!.
  - intros d Hfs. rewrite Hfs in H. eexists. split; [exact H|]. by split.
Qed.

(** C8, amended.  [parseLine] clears only the first [buffer_size / 2]
    bytes of the token array.  For every line whose token count [n]
    satisfies [(n + 1) * sizeof(char * ) <= buffer_size / 2] the entry at
    index [n] is the null pointer; for larger token counts it is not
    guaranteed: when the last byte of that entry, as the allocator handed it
    out, is not zero, the entry is not the null pointer. *)
Theorem sentinel_only_within_cleared_bytes st bl ol L s :
  0 < ptr_size →
  block_at (heap st) bl = Some L →
  cstring (drop ol L) = Some s →
  length s < buffer_size st →
  ∃ buffer st',
    parseLine ptr_size (Vptr (Ptr bl ol)) st =
      Ret (buffer, length (tokens_of s)) st'
    ∧ ((length (tokens_of s) + 1) * ptr_size ≤ buffer_size st / 2 →
       index ptr_size (heap st') buffer (length (tokens_of s)) = Some Vnull)
    ∧ (buffer_size st / 2 < (length (tokens_of s) + 1) * ptr_size →
       junk st (length (heap st)) ((length (tokens_of s) + 1) * ptr_size - 1)
         ≠ Chr NUL →
       index ptr_size (heap st') buffer (length (tokens_of s)) ≠ Some Vnull).
Proof.
  intros HP HL Hs Hlen.
  destruct (parseLine_returns st bl ol L s HP HL Hs Hlen)
    as (st' & Hparse & Hheap & _).
  exists (Vptr (Ptr (length (heap st)) 0)), st'.
  split; [done|]. rewrite Hheap. split.
  - intros Hn. by apply parsed_sentinel.
  - intros Hn Hj. by apply parsed_no_sentinel.
Qed.

(** C9.  [parseLine] does not modify the line it is given: it returns, and
    afterwards the block that holds the line has the content it had, the
    line reads as the same string, and so does every block that existed
    before the call. *)
Theorem parseLine_leaves_the_line_unchanged st bl ol L s :
  0 < ptr_size →
  block_at (heap st) bl = Some L →
  cstring (drop ol L) = Some s →
  length s < buffer_size st →
  ∃ r st',
    parseLine ptr_size (Vptr (Ptr bl ol)) st = Ret r st'
    ∧ block_at (heap st') bl = Some L
    ∧ load_string (heap st') (Vptr (Ptr bl ol)) = Some s
    ∧ (∀ b, b < length (heap st) → heap st' !! b = heap st !! b).
Proof.
  intros HP HL Hs Hlen.
  destruct (parseLine_returns st bl ol L s HP HL Hs Hlen)
    as (st' & Hparse & Hheap & _).
  pose proof (block_at_lt _ _ _ HL) as Hbl.
  assert (block_at (heap st') bl = Some L) as HL'.
  { rewrite Hheap. unfold parsed_heap. by rewrite block_at_app_l. }
  eexists _, st'. split; [exact Hparse|]. split; [done|]. split.
  - by rewrite (load_string_eq _ _ _ _ HL').
  - intros b Hb. rewrite Hheap. unfold parsed_heap. by rewrite lookup_app_l.
Qed.

(** C10.  Whatever the signal number passed and whatever the state, with a
    child recorded or not, [signalHandler] ends the process with exit
    status 0; this is also the status with which [main] returns whenever
    its loop ends, which the [exit] builtin brings about by returning 0 as
    the loop status. *)
Theorem interrupt_exits_with_status_zero sig st fuel a :
  (∃ st', signalHandler sig st = Exit 0%Z st')
  ∧ match main ptr_size fuel st with
    | Ret r _ => r = 0%Z
    | Exit _ _ | Killed _ _ | Exec _ _ _ | Blocked _ | Fuel _ | Undef => True
    end
  ∧ simpleShellExit a st = Ret 0%Z st.
Proof.
  split; [eexists; apply signalHandler_eq|]. split; [|done].
  unfold main. unfold bind at 1. unfold modify at 1. unfold bind.
  by destruct (mainLoop ptr_size fuel _).
Qed.


(** * Further properties *)

(** ** More on the tokenizer *)

Lemma strcspn_take s d :
  Forall (fun c => in_set d c = false) (take (strcspn s d) s).
Proof.
  induction s as [|c s IH]; [constructor|].
  unfold strcspn; fold strcspn. destruct (in_set d c) eqn:E; [constructor|].
  simpl. by constructor.
Qed.

Lemma strcspn_app t x r d :
  Forall (fun c => in_set d c = false) t → in_set d x = true →
  strcspn (t ++ x :: r) d = length t.
Proof.
  intros Ht Hx. induction Ht as [|c t Hc _ IH]; simpl.
  - unfold strcspn. by rewrite Hx.
  - unfold strcspn; fold strcspn. rewrite Hc. by rewrite IH.
Qed.

Lemma scan_words fuel : ∀ o s,
  Forall (fun qt : nat * list ascii =>
            qt.2 ≠ [] ∧ Forall (fun c => is_space c = false) qt.2
            ∧ o ≤ qt.1
            ∧ take (length qt.2) (drop (qt.1 - o) s) = qt.2)
         (scan fuel o s).
Proof.
  induction fuel as [|fuel IH]; intros o s; [constructor|].
  rewrite scan_S.
  destruct (drop (strspn s delimiters) s) as [|c r] eqn:E; [constructor|].
  cbv beta iota zeta.
  set (k := strspn s delimiters) in *.
  set (m := strcspn (c :: r) delimiters) in *.
  pose proof (strcspn_pos delimiters c r (strspn_stop _ _ _ _ E)) as Hpos.
  fold m in Hpos.
  pose proof (strcspn_le (c :: r) delimiters) as Hm. fold m in Hm.
  constructor.
  - cbn [fst snd]. split_and!.
    + intros H. apply (f_equal length) in H. rewrite length_take in H.
      simpl in *. lia.
    + apply strcspn_take.
    + lia.
    + replace (o + k - o) with k by lia. rewrite E.
      by rewrite length_take, Nat.min_l by done.
  - eapply Forall_impl; [apply (IH (o + k + m + 1) (drop (m + 1) (c :: r)))|].
    intros [q t] (Hne & Hsp & Hq & Hsub). cbn [fst snd] in *.
    split_and!; [done|done| lia|].
    etrans; [|exact Hsub]. f_equal. rewrite <- E, !drop_drop. f_equal. lia.
Qed.

(** X1.  The tokens [parseLine] returns are words of the line: each one
    is non-empty, holds no space and no newline, and is a piece of the
    line.  There are at most [buffer_size / 2] of them, the number of
    entries of the token array: no token is stored outside the array. *)
Theorem tokens_are_words st bl ol L s :
  0 < ptr_size →
  block_at (heap st) bl = Some L →
  cstring (drop ol L) = Some s →
  length s < buffer_size st →
  ∃ buffer n st' toks,
    parseLine ptr_size (Vptr (Ptr bl ol)) st = Ret (buffer, n) st'
    ∧ token_seq ptr_size (heap st') buffer n = Some toks
    ∧ Forall (fun t => word t ∧ ∃ q, take (length t) (drop q s) = t) toks
    ∧ n ≤ buffer_size st / 2.
Proof.
  intros HP HL Hs Hlen.
  destruct (cstring_inv _ _ Hs) as [Hnn _].
  destruct (parseLine_returns st bl ol L s HP HL Hs Hlen)
    as (st' & Hparse & Hheap & _).
  exists (Vptr (Ptr (length (heap st)) 0)), (length (tokens_of s)), st',
    (tokens_of s).
  split; [done|]. split; [rewrite Hheap; by apply token_seq_parsed|]. split.
  - unfold tokens_of. apply Forall_fmap.
    eapply Forall_impl; [apply (scan_words (S (length s)) 0 s)|].
    intros [q t] (Hne & Hsp & _ & Hsub). cbn [fst snd] in *.
    split; [done|]. exists (q - 0). exact Hsub.
  - pose proof (scan_length (S (length s)) 0 s) as H2.
    unfold tokens_of. rewrite length_fmap.
    apply Nat.div_le_lower_bound; lia.
Qed.

Lemma split_whitespace_word t rest :
  t ≠ [] → Forall (fun c => is_space c = false) t →
  split_whitespace (t ++ SP :: rest) = t :: split_whitespace rest.
Proof.
  intros Hne Ht. destruct t as [|c t]; [done|].
  apply Forall_cons in Ht as Hc. destruct Hc as [Hc _].
  change ((c :: t) ++ SP :: rest) with (c :: (t ++ SP :: rest)).
  rewrite split_whitespace_token by done.
  change (c :: (t ++ SP :: rest)) with ((c :: t) ++ SP :: rest).
  rewrite (strcspn_app (c :: t) SP rest delimiters Ht eq_refl).
  rewrite take_app_length. f_equal.
  rewrite <- drop_drop, drop_app_length. done.
Qed.

(** X2.  Round trip between [echo] and the tokenizer: the text
    [simpleShellEcho] prints for a list of words, tokenized again, gives
    back the same words. *)
Theorem echo_text_tokenizes_back args :
  Forall word args →
  tokens_of (echo_text args ++ [LF]) = args.
Proof.
  intros H. rewrite tokens_of_split.
  induction H as [|t args [Hne Ht] _ IH]; [done|].
  unfold echo_text in *. cbn [fmap list_fmap concat].
  rewrite <- !app_assoc. cbn [app].
  rewrite split_whitespace_word by done. by rewrite IH.
Qed.

(** ** Rules for outcomes *)

Lemma wp_bind {A B} (m : M A) (k : A → M B) Q E st :
  wp m (fun a st1 => wp (k a) Q E st1) E st → wp (bind m k) Q E st.
Proof. unfold wp, bind. by destruct (m st). Qed.

Lemma wp_ret {A} (a : A) (Q : A → state → Prop) E st :
  Q a st → wp (ret a) Q E st.
Proof. done. Qed.

Lemma wp_get {A} (f : state → option A) (Q : A → state → Prop) E st :
  (∀ a, f st = Some a → Q a st) → wp (get f) Q E st.
Proof. unfold wp, get. destruct (f st); [auto|done]. Qed.

Lemma wp_modify f (Q : unit → state → Prop) E st :
  Q tt (f st) → wp (modify f) Q E st.
Proof. done. Qed.

Lemma wp_state_of (Q : state → state → Prop) E st :
  Q st st → wp state_of Q E st.
Proof. done. Qed.

Lemma wp_exit {A} c (Q : A → state → Prop) (E : state → Prop) st :
  E st → wp (exit c) Q E st.
Proof. done. Qed.

Lemma wp_mono {A} (m : M A) (Q Q' : A → state → Prop) (E E' : state → Prop) st :
  wp m Q E st → (∀ a s, Q a s → Q' a s) → (∀ s, E s → E' s) → wp m Q' E' st.
Proof. unfold wp. destruct (m st); auto. Qed.

Lemma wp_any {A} (m : M A) (Q : A → state → Prop) (E : state → Prop) st :
  (∀ a s, Q a s) → (∀ s, E s) → wp m Q E st.
Proof. unfold wp. destruct (m st); auto. Qed.

Lemma wp_Ret {A} (m : M A) Q E st a st' :
  wp m Q E st → m st = Ret a st' → Q a st'.
Proof. unfold wp. intros H Hm. by rewrite Hm in H. Qed.

Lemma same_memory_refl st : same_memory st st.
Proof. by repeat split. Qed.

Lemma same_memory_trans st1 st2 st3 :
  same_memory st1 st2 → same_memory st2 st3 → same_memory st1 st3.
Proof.
  unfold same_memory. intros H1 H2. destruct_and!. split_and!; congruence.
Qed.

Lemma same_processes_refl st : same_processes st st.
Proof. by repeat split. Qed.

Lemma same_processes_trans st1 st2 st3 :
  same_processes st1 st2 → same_processes st2 st3 → same_processes st1 st3.
Proof.
  unfold same_processes, same_memory. intros H1 H2. destruct_and!.
  split_and!; congruence.
Qed.

Section Frame.

Variable R : state → state → Prop.

Lemma keeps_ret {A} (a : A) : keeps R (ret a).
Proof. by intros st0 st H. Qed.

Lemma keeps_get {A} (f : state → option A) : keeps R (get f).
Proof. intros st0 st H. by apply wp_get. Qed.

Lemma keeps_state_of : keeps R state_of.
Proof. by intros st0 st H. Qed.

Lemma keeps_exit {A} c : keeps R (exit (A := A) c).
Proof. by intros st0 st H. Qed.

Lemma keeps_modify f :
  (∀ st0 st, R st0 st → R st0 (f st)) → keeps R (modify f).
Proof. intros Hf st0 st H. apply wp_modify. by apply Hf. Qed.

Lemma keeps_bind {A B} (m : M A) (k : A → M B) :
  keeps R m → (∀ a, keeps R (k a)) → keeps R (bind m k).
Proof.
  intros Hm Hk st0 st H. apply wp_bind.
  eapply wp_mono; [apply (Hm st0 st H)| |done].
  intros a s Hs. by apply Hk.
Qed.

(** A value read from a table and then used. *)
Lemma keeps_bind_get {A B} (f : state → option A) (k : A → M B) :
  (∀ a st, f st = Some a → keeps R (k a)) → keeps R (bind (get f) k).
Proof.
  intros Hk st0 st H. apply wp_bind, wp_get. intros a Ha.
  by apply (Hk a st Ha).
Qed.

Lemma keeps_if {A} (b : bool) (m1 m2 : M A) :
  keeps R m1 → keeps R m2 → keeps R (if b then m1 else m2).
Proof. by destruct b. Qed.

End Frame.

Lemma keeps_printf R s :
  (∀ st0 st o, R st0 st → R st0 (set_stdout o st)) → keeps R (printf s).
Proof. intros H. apply keeps_modify. intros st0 st. apply H. Qed.

Lemma keeps_perror R s :
  (∀ st0 st t, R st0 st → R st0 (set_trace t st)) → keeps R (perror s).
Proof. intros H. apply keeps_modify. intros st0 st. apply H. Qed.

Lemma same_memory_stdout st0 st o :
  same_memory st0 st → same_memory st0 (set_stdout o st).
Proof. done. Qed.
Lemma same_memory_trace st0 st t :
  same_memory st0 st → same_memory st0 (set_trace t st).
Proof. done. Qed.
Lemma same_memory_cwd st0 st d :
  same_memory st0 st → same_memory st0 (set_cwd d st).
Proof. done. Qed.
Lemma same_memory_pid st0 st p :
  same_memory st0 st → same_memory st0 (set_pid p st).
Proof. done. Qed.
Lemma same_memory_forks st0 st l :
  same_memory st0 st → same_memory st0 (set_forks l st).
Proof. done. Qed.
Lemma same_memory_waits st0 st l :
  same_memory st0 st → same_memory st0 (set_waits l st).
Proof. done. Qed.
Lemma same_processes_stdout st0 st o :
  same_processes st0 st → same_processes st0 (set_stdout o st).
Proof. done. Qed.
Lemma same_processes_trace st0 st t :
  same_processes st0 st → same_processes st0 (set_trace t st).
Proof. done. Qed.
Lemma same_processes_cwd st0 st d :
  same_processes st0 st → same_processes st0 (set_cwd d st).
Proof. done. Qed.

(** The builtins, for a relation that output, the working directory and
    the trace do not affect. *)
Section Builtins.

Variable R : state → state → Prop.
Hypothesis R_stdout : ∀ st0 st o, R st0 st → R st0 (set_stdout o st).
Hypothesis R_trace : ∀ st0 st t, R st0 st → R st0 (set_trace t st).
Hypothesis R_cwd : ∀ st0 st d, R st0 st → R st0 (set_cwd d st).

Lemma keeps_chdir path : keeps R (chdir path).
Proof.
  unfold chdir. apply keeps_bind; [apply keeps_get|].
  intros p st0 st H. unfold wp.
  destruct (fs st (cwd st) p); unfold log; eauto.
Qed.

Lemma keeps_simpleShellCd a : keeps R (simpleShellCd ptr_size a).
Proof.
  unfold simpleShellCd, load_index.
  repeat first
    [ apply keeps_chdir | apply keeps_printf, R_stdout | apply keeps_get
    | apply keeps_ret | apply keeps_if | apply keeps_bind; [|intros ?] ].
Qed.

Lemma keeps_simpleShellHelp a : keeps R (simpleShellHelp a).
Proof.
  unfold simpleShellHelp.
  apply keeps_bind; [apply keeps_printf, R_stdout|]. intros _. apply keeps_ret.
Qed.

Lemma keeps_echo_test a i : keeps R (echo_test ptr_size a i).
Proof.
  unfold echo_test, load_index.
  repeat first
    [ apply keeps_get | apply keeps_ret | apply keeps_if
    | apply keeps_bind; [|intros ?] ].
Qed.

Lemma keeps_echo_loop a fuel : ∀ i, keeps R (echo_loop ptr_size fuel a i).
Proof.
  induction fuel as [|fuel IH]; intros i; cbn [echo_loop];
    (apply keeps_bind; [apply keeps_echo_test|]); intros go;
    (apply keeps_if; [|apply keeps_ret]).
  - by intros st0 st H.
  - unfold load_index.
    repeat first
      [ apply IH | apply keeps_get | apply keeps_printf, R_stdout
      | apply keeps_bind; [|intros ?] ].
Qed.

Lemma keeps_simpleShellEcho a : keeps R (simpleShellEcho ptr_size a).
Proof.
  unfold simpleShellEcho.
  repeat first
    [ apply keeps_echo_loop | apply keeps_get | apply keeps_ret
    | apply keeps_printf, R_stdout | apply keeps_bind; [|intros ?] ].
Qed.

Lemma keeps_simpleShellExit a : keeps R (simpleShellExit a).
Proof. apply keeps_ret. Qed.

Lemma keeps_builtin i f a :
  builtin_pointers ptr_size !! i = Some f → keeps R (f a).
Proof.
  intros H. destruct i as [|[|[|[|i]]]]; [injection H as <-..|done].
  - apply keeps_simpleShellCd.
  - apply keeps_simpleShellHelp.
  - apply keeps_simpleShellEcho.
  - apply keeps_simpleShellExit.
Qed.

End Builtins.

(** The launch of a process, for a relation that the bookkeeping of
    processes does not affect either. *)
Section Launch.

Variable R : state → state → Prop.
Hypothesis R_stdout : ∀ st0 st o, R st0 st → R st0 (set_stdout o st).
Hypothesis R_trace : ∀ st0 st t, R st0 st → R st0 (set_trace t st).
Hypothesis R_cwd : ∀ st0 st d, R st0 st → R st0 (set_cwd d st).
Hypothesis R_pid : ∀ st0 st p, R st0 st → R st0 (set_pid p st).
Hypothesis R_forks : ∀ st0 st l, R st0 st → R st0 (set_forks l st).
Hypothesis R_waits : ∀ st0 st l, R st0 st → R st0 (set_waits l st).

Lemma keeps_execvp f a : keeps R (execvp ptr_size f a).
Proof.
  unfold execvp. apply keeps_bind; [apply keeps_get|]; intros prog.
  apply keeps_bind; [apply keeps_get|]; intros argv.
  intros st0 st H. unfold wp. by destruct (runnable st prog).
Qed.

Lemma keeps_waitpid p : keeps R (waitpid p).
Proof.
  intros st0 st H. unfold wp, waitpid.
  destruct (waits st); [done|]. unfold log. by apply R_trace, R_waits.
Qed.

Lemma keeps_wait_loop fuel : ∀ w, keeps R (wait_loop fuel w).
Proof.
  induction fuel as [|fuel IH]; intros w; unfold wait_loop; fold wait_loop;
    (apply keeps_if; [|apply keeps_ret]).
  - by intros st0 st H.
  - apply keeps_bind; [apply keeps_state_of|]; intros st1.
    apply keeps_bind; [apply keeps_waitpid|]; intros w'. apply IH.
Qed.

Lemma keeps_after_fork a r : keeps R (after_fork ptr_size a r).
Proof.
  assert (Hfail : keeps R (let* _ := perror (chars "simple-shell") in
                           exit (A := unit) 1%Z)).
  { apply keeps_bind; [apply keeps_perror, R_trace|]. intros _.
    apply keeps_exit. }
  unfold after_fork.
  apply keeps_bind; [apply keeps_modify; intros ? ?; apply R_pid|]; intros _.
  apply keeps_bind; [apply keeps_state_of|]; intros st1.
  apply keeps_bind; [|intros _; apply keeps_ret].
  apply keeps_if; [|apply keeps_if; [exact Hfail|]].
  - apply keeps_bind; [apply keeps_get|]; intros a0.
    apply keeps_bind; [apply keeps_execvp|]; intros e.
    apply keeps_if; [exact Hfail|apply keeps_ret].
  - apply keeps_bind; [apply keeps_waitpid|]; intros w.
    apply keeps_bind; [apply keeps_state_of|]; intros st2.
    apply keeps_bind; [apply keeps_wait_loop|]; intros _.
    apply keeps_modify; intros ? ?; apply R_pid.
Qed.

Lemma keeps_fork k : keeps R (fork k).
Proof.
  intros st0 st H. unfold wp, fork.
  destruct (forks st) as [|r rest]; [by apply R_trace|].
  destruct (0 <? r)%Z; unfold log; by apply R_trace, R_forks.
Qed.

Lemma keeps_startProcess a : keeps R (startProcess ptr_size a).
Proof.
  unfold startProcess. apply keeps_bind; [apply keeps_fork|].
  intros r. apply keeps_after_fork.
Qed.

Lemma keeps_builtin_loop a n : ∀ i, keeps R (builtin_loop ptr_size n i a).
Proof.
  induction n as [|n IH]; intros i; cbn [builtin_loop];
    [apply keeps_startProcess|].
  unfold load_index, strcmp0.
  apply keeps_bind; [apply keeps_get|]; intros a0.
  apply keeps_bind; [apply keeps_get|]; intros name.
  apply keeps_bind;
    [apply keeps_bind; [apply keeps_get|intros ?; apply keeps_ret]|].
  intros same. apply keeps_if; [|apply IH].
  apply keeps_bind_get. intros f _ Hf. by apply (keeps_builtin R) with i.
Qed.

Lemma keeps_executeCommand a : keeps R (executeCommand ptr_size a).
Proof.
  unfold executeCommand, load_index.
  apply keeps_bind; [apply keeps_get|]; intros a0.
  apply keeps_bind; [apply keeps_get|]; intros isnull.
  apply keeps_if; [apply keeps_ret|apply keeps_builtin_loop].
Qed.

End Launch.

(** The table lookup, name by name. *)
Lemma builtin_loop_table st a p name :
  index ptr_size (heap st) a 0 = Some (Vptr p) →
  load_string (heap st) (Vptr p) = Some name →
  builtin_loop ptr_size num_builtins 0 a st =
    if decide (name = chars "cd") then simpleShellCd ptr_size a st
    else if decide (name = chars "help") then simpleShellHelp a st
    else if decide (name = chars "echo") then simpleShellEcho ptr_size a st
    else if decide (name = chars "exit") then simpleShellExit a st
    else startProcess ptr_size a st.
Proof.
  intros Hp Hs. unfold num_builtins.
  case_decide as H0.
  { subst name.
    by rewrite (builtin_loop_found _ _ _ _ 3 0 (simpleShellCd ptr_size) Hp Hs). }
  rewrite (builtin_loop_skip _ _ _ _ (chars "cd") 3 0 Hp Hs) by done.
  cbn [Nat.add]. case_decide as H1.
  { subst name.
    by rewrite (builtin_loop_found _ _ _ _ 2 1 simpleShellHelp Hp Hs). }
  rewrite (builtin_loop_skip _ _ _ _ (chars "help") 2 1 Hp Hs) by done.
  cbn [Nat.add]. case_decide as H2.
  { subst name.
    by rewrite (builtin_loop_found _ _ _ _ 1 2 (simpleShellEcho ptr_size)
                  Hp Hs). }
  rewrite (builtin_loop_skip _ _ _ _ (chars "echo") 1 2 Hp Hs) by done.
  cbn [Nat.add]. case_decide as H3.
  { subst name.
    by rewrite (builtin_loop_found _ _ _ _ 0 3 simpleShellExit Hp Hs). }
  by rewrite (builtin_loop_skip _ _ _ _ (chars "exit") 0 3 Hp Hs).
Qed.

(** What [executeCommand] needs to run at all: a first entry of the array
    that is null, or a pointer to a string. *)
Lemma executeCommand_inv st a :
  executeCommand ptr_size a st ≠ Undef →
  (index ptr_size (heap st) a 0 = Some Vnull
   ∨ ∃ cs, index ptr_size (heap st) a 0 = Some (Vraw cs)
           ∧ is_null (Vraw cs) = Some true)
  ∨ ∃ p name, index ptr_size (heap st) a 0 = Some (Vptr p)
              ∧ load_string (heap st) (Vptr p) = Some name.
Proof.
  unfold executeCommand, load_index, bind at 1, get at 1.
  destruct (index ptr_size (heap st) a 0) as [a0|] eqn:Ha; [|done].
  unfold bind at 1, get at 1.
  destruct (is_null a0) as [[]|] eqn:Hn; [| |done].
  - intros _. left. destruct a0; [by left|done|right; eauto].
  - unfold num_builtins. cbn [builtin_loop].
    unfold load_index, bind at 1, get at 1. rewrite Ha.
    unfold bind at 1, get at 1. cbn [builtin_commands lookup list_lookup].
    unfold strcmp0, bind at 1, bind at 1, get at 1.
    destruct (load_string (heap st) a0) as [name|] eqn:Hs; [|done].
    intros _. right. destruct a0; [done| |done]. eauto.
Qed.

Lemma wp_bind_all {A B} (m : M A) (k : A → M B) Q (E : state → Prop) st :
  (∀ a s, wp (k a) Q E s) → (∀ s, E s) → wp (bind m k) Q E st.
Proof. intros Hk HE. apply wp_bind. unfold wp at 1. destruct (m st); auto. Qed.

(** Each of [cd], [help] and [echo] returns 1. *)
Ltac returns_one :=
  repeat (apply wp_bind_all; [cbv beta; intros ? ?|done]); by apply wp_ret.

Lemma simpleShellCd_one a st :
  wp (simpleShellCd ptr_size a) (fun s _ => s = 1%Z) (fun _ => True) st.
Proof. unfold simpleShellCd. returns_one. Qed.

Lemma simpleShellHelp_one a st :
  wp (simpleShellHelp a) (fun s _ => s = 1%Z) (fun _ => True) st.
Proof. unfold simpleShellHelp. returns_one. Qed.

Lemma simpleShellEcho_one a st :
  wp (simpleShellEcho ptr_size a) (fun s _ => s = 1%Z) (fun _ => True) st.
Proof. unfold simpleShellEcho. returns_one. Qed.

(** When [execvp] returns, it has failed. *)
Lemma wp_execvp f a (Q : Z → state → Prop) st :
  (∀ s, Q (-1)%Z s) → wp (execvp ptr_size f a) Q (fun _ => True) st.
Proof.
  intros HQ. unfold execvp.
  apply wp_bind_all; [intros prog s1|done].
  apply wp_bind_all; [intros argv s2|done].
  unfold wp. by destruct (runnable s2 prog).
Qed.

(** When [startProcess] returns, it is in the parent, after the wait: the
    status is 1 and no child is recorded any more. *)
Lemma after_fork_post a r st :
  wp (after_fork ptr_size a r)
     (fun s st' => s = 1%Z ∧ pid st' = (-1)%Z) (fun _ => True) st.
Proof.
  unfold after_fork. apply wp_bind, wp_modify. apply wp_bind, wp_state_of.
  cbn [pid set_pid]. apply wp_bind.
  destruct (r =? 0)%Z; [|destruct (r <? 0)%Z].
  - apply wp_bind_all; [intros a0 s1|done].
    apply wp_bind, wp_execvp. intros s2. cbn [Z.eqb Pos.eqb].
    apply wp_bind, wp_modify. by apply wp_exit.
  - apply wp_bind, wp_modify. by apply wp_exit.
  - apply wp_bind_all; [intros w s1|done].
    apply wp_bind_all; [intros st1 s2|done].
    apply wp_bind_all; [intros [] s3|done].
    by apply wp_modify, wp_ret.
Qed.

Lemma startProcess_post a st :
  wp (startProcess ptr_size a)
     (fun s st' => s = 1%Z ∧ pid st' = (-1)%Z) (fun _ => True) st.
Proof.
  unfold startProcess. apply wp_bind_all; [|done].
  intros r s. apply after_fork_post.
Qed.

Lemma executeCommand_null st a a0 :
  index ptr_size (heap st) a 0 = Some a0 → is_null a0 = Some true →
  executeCommand ptr_size a st = Ret 1%Z st.
Proof.
  intros H Hn. unfold executeCommand.
  mstep (load_index_eq st a 0 _ H).
  mstep (get_Some (fun _ => is_null a0) st _ Hn).
  done.
Qed.

Lemma keeps_state_after R {A} (m : M A) st st' :
  keeps R m → R st st → state_after (m st) = Some st' → R st st'.
Proof.
  intros Hm Hr H. specialize (Hm st st Hr). unfold wp in Hm.
  destruct (m st); simplify_eq/=; done.
Qed.

(** When a command returns and no child was recorded before it, none is
    recorded after it. *)
Lemma executeCommand_pid a st s st' :
  executeCommand ptr_size a st = Ret s st' →
  pid st = (-1)%Z → pid st' = (-1)%Z.
Proof.
  intros H Hpid.
  destruct (executeCommand_inv st a) as [[Hn|(cs&Hn&Hz)]|(p&name&Hp&Hs)];
    [by rewrite H|..].
  - rewrite (executeCommand_null st a _ Hn eq_refl) in H.
    by injection H as <- <-.
  - rewrite (executeCommand_null st a _ Hn Hz) in H.
    by injection H as <- <-.
  - assert (state_after (executeCommand ptr_size a st) = Some st') as Hst
      by (by rewrite H).
    rewrite (executeCommand_nonempty _ _ _ Hp) in H, Hst.
    rewrite (builtin_loop_table st a p name Hp Hs) in H, Hst.
    assert (∀ i f, builtin_pointers ptr_size !! i = Some f →
                   state_after (f a st) = Some st' → pid st' = pid st)
      as Hf.
    { intros i f Hi Hr.
      apply (keeps_state_after same_processes (f a) st st');
        [|apply same_processes_refl|done].
      apply (keeps_builtin same_processes) with i; [..|done];
        intros st0 s0 x H0; exact H0. }
    repeat case_decide.
    + by rewrite (Hf 0 _ eq_refl Hst).
    + by rewrite (Hf 1 _ eq_refl Hst).
    + by rewrite (Hf 2 _ eq_refl Hst).
    + by rewrite (Hf 3 _ eq_refl Hst).
    + by destruct (wp_Ret _ _ _ _ _ _ (startProcess_post a st) H) as [_ ->].
Qed.

(** X3.  [executeCommand] compares the first token with the names of the
    table in turn and runs the handler of the first one that is equal:
    [cd], [help], [echo] and [exit], spelled exactly so, are the builtins
    and every other name is launched as a process. *)
Theorem executeCommand_dispatch st a p name :
  index ptr_size (heap st) a 0 = Some (Vptr p) →
  load_string (heap st) (Vptr p) = Some name →
  executeCommand ptr_size a st =
    if decide (name = chars "cd") then simpleShellCd ptr_size a st
    else if decide (name = chars "help") then simpleShellHelp a st
    else if decide (name = chars "echo") then simpleShellEcho ptr_size a st
    else if decide (name = chars "exit") then simpleShellExit a st
    else startProcess ptr_size a st.
Proof.
  intros Hp Hs. rewrite (executeCommand_nonempty _ _ _ Hp).
  exact (builtin_loop_table st a p name Hp Hs).
Qed.

(** X4.  Whatever the command is and however it ends, [executeCommand]
    leaves the memory as it found it, and with it [buffer_size] and the
    input not yet read: the line and the token array are still there for
    the two calls of [free] that follow in the loop. *)
Theorem executeCommand_keeps_the_memory a st st' :
  state_after (executeCommand ptr_size a st) = Some st' →
  same_memory st st'.
Proof.
  apply (keeps_state_after same_memory); [|apply same_memory_refl].
  apply keeps_executeCommand; intros st0 s x H; exact H.
Qed.

(** X5.  The four builtins never create a process, never wait for one and
    never change the recorded [pid]. *)
Theorem builtins_leave_processes_alone st a p name st' :
  index ptr_size (heap st) a 0 = Some (Vptr p) →
  load_string (heap st) (Vptr p) = Some name →
  name ∈ builtin_commands →
  state_after (executeCommand ptr_size a st) = Some st' →
  same_processes st st'.
Proof.
  intros Hp Hs Hin. rewrite (executeCommand_nonempty _ _ _ Hp).
  rewrite (builtin_loop_table st a p name Hp Hs).
  assert (∀ i f, builtin_pointers ptr_size !! i = Some f →
                 state_after (f a st) = Some st' → same_processes st st')
    as Hf.
  { intros i f Hi. apply (keeps_state_after same_processes);
      [|apply same_processes_refl].
    apply (keeps_builtin same_processes) with i; [..|done];
      intros st0 s x H; exact H. }
  repeat case_decide.
  - by apply (Hf 0).
  - by apply (Hf 1).
  - by apply (Hf 2).
  - by apply (Hf 3).
  - unfold builtin_commands in Hin.
    rewrite !elem_of_cons, elem_of_nil in Hin.
    by destruct Hin as [?|[?|[?|[?|[]]]]].
Qed.

(** X6.  The status [executeCommand] returns is 1, except for [exit],
    where it is 0 and nothing else happened; so only [exit] ends the loop.
    And when no child was recorded before the command, none is recorded
    after it: at every prompt [pid] is -1. *)
Theorem executeCommand_status a st s st' :
  executeCommand ptr_size a st = Ret s st' →
  (s = 1%Z ∧ (pid st = (-1)%Z → pid st' = (-1)%Z))
  ∨ (s = 0%Z ∧ st' = st
     ∧ ∃ p, index ptr_size (heap st) a 0 = Some (Vptr p)
            ∧ load_string (heap st) (Vptr p) = Some (chars "exit")).
Proof.
  intros H. pose proof (executeCommand_pid a st s st' H) as Hpid.
  destruct (executeCommand_inv st a) as [[Hn|(cs&Hn&Hz)]|(p&name&Hp&Hs)];
    [by rewrite H|..].
  - rewrite (executeCommand_null st a _ Hn eq_refl) in H.
    injection H as <- <-. by left.
  - rewrite (executeCommand_null st a _ Hn Hz) in H.
    injection H as <- <-. by left.
  - rewrite (executeCommand_nonempty _ _ _ Hp) in H.
    rewrite (builtin_loop_table st a p name Hp Hs) in H.
    repeat case_decide.
    + left. by rewrite (wp_Ret _ _ _ _ _ _ (simpleShellCd_one a st) H).
    + left. by rewrite (wp_Ret _ _ _ _ _ _ (simpleShellHelp_one a st) H).
    + left. by rewrite (wp_Ret _ _ _ _ _ _ (simpleShellEcho_one a st) H).
    + right. injection H as <- <-. subst name. eauto.
    + left. by destruct (wp_Ret _ _ _ _ _ _ (startProcess_post a st) H)
        as [-> _].
Qed.

(** X7.  A [fork] that fails is fatal: [startProcess] records the negative
    value in [pid], reports the error and ends the interpreter with exit
    status 1; no child was created, nothing is waited for and nothing is
    printed on standard output. *)
Theorem fork_failure_is_fatal st a r fk :
  forks st = r :: fk → (r < 0)%Z →
  ∃ st',
    startProcess ptr_size a st = Exit 1%Z st'
    ∧ trace st' =
        trace st ++ [EvFork r None; EvPerror (chars "simple-shell")]
    ∧ pid st' = r ∧ waits st' = waits st ∧ stdout st' = stdout st
    ∧ heap st' = heap st.
Proof.
  intros Hf Hr. unfold startProcess, bind at 1, fork. rewrite Hf.
  assert ((0 <? r)%Z = false) as -> by lia.
  unfold after_fork, bind at 1, modify at 1.
  unfold bind at 1, state_of at 1. cbn [pid set_pid log].
  assert ((r =? 0)%Z = false) as -> by lia.
  assert ((r <? 0)%Z = true) as -> by lia.
  eexists. split; [reflexivity|]. cbn. rewrite <- app_assoc. by split_and!.
Qed.

(** X8.  From the line to the new program.  A line with few enough tokens
    for the null pointer to be in place, whose first token is not the name
    of a builtin, is launched: the child runs the program named by the
    first token with exactly the tokens of the line as its arguments, or
    exits with status 1 when the program cannot be started; the parent
    waits for it and returns 1 with nothing printed. *)
Theorem launch_passes_the_tokens st bl ol L s prog args c fk fin rest :
  0 < ptr_size →
  block_at (heap st) bl = Some L →
  cstring (drop ol L) = Some s →
  length s < buffer_size st →
  (length (tokens_of s) + 1) * ptr_size ≤ buffer_size st / 2 →
  tokens_of s = prog :: args →
  prog ∉ builtin_commands →
  forks st = c :: fk → (0 < c)%Z →
  waits st = fin :: rest → final fin = true →
  ∃ st',
    (let* t := parseLine ptr_size (Vptr (Ptr bl ol)) in
     executeCommand ptr_size (fst t)) st = Ret 1%Z st'
    ∧ trace st' =
        trace st ++
        [EvFork c (Some (if runnable st prog
                         then ChildExec prog (prog :: args)
                         else ChildExit 1));
         EvWaitpid c fin]
    ∧ pid st' = (-1)%Z ∧ stdout st' = stdout st ∧ cwd st' = cwd st.
Proof.
  intros HP HL Hs Hlen Hbound Htok Hnb Hf Hc Hw Hfin.
  destruct (cstring_inv _ _ Hs) as [Hnn _].
  destruct (parseLine_spec st bl ol L s HP HL Hs Hlen) as [v Hparse].
  fold (parsed_heap ptr_size st s) in Hparse.
  set (st1 := set_olds v (set_heap (parsed_heap ptr_size st s) st)) in *.
  set (a := Vptr (Ptr (length (heap st)) 0)) in *.
  assert (args_array ptr_size (heap st1) a (prog :: args)) as Harr.
  { rewrite <- Htok. by apply parsed_args_array. }
  destruct (proj1 Harr 0 prog eq_refl) as (p & Hp & Hname).
  assert (startProcess ptr_size a st1 =
          Ret 1%Z
            (set_pid (-1)%Z
               (set_trace
                  (trace st1 ++
                   EvFork c (Some (child_of_fork ptr_size a st1)) ::
                   (EvWaitpid c <$> ((WStopped <$> []) ++ [fin])))
                  (set_waits rest (set_forks fk st1))))) as Hstart
    by (by apply startProcess_returns).
  eexists. split.
  - mstep Hparse. cbn [fst].
    rewrite (executeCommand_nonempty _ _ _ Hp).
    rewrite (builtin_loop_table st1 a p prog Hp Hname).
    unfold builtin_commands in Hnb.
    rewrite !elem_of_cons, elem_of_nil in Hnb.
    repeat (case_decide; [exfalso; apply Hnb; by eauto 6|]).
    exact Hstart.
  - rewrite (child_of_fork_spec st1 a prog args HP Harr). by split_and!.
Qed.

(** ** More on the line reader *)

Lemma next_line_app inp : (next_line inp).1 ++ (next_line inp).2 = inp.
Proof.
  induction inp as [|c r IH]; [done|]. cbn [next_line].
  destruct (Ascii.eqb c LF); [done|].
  destruct (next_line r) as [l r']. cbn [fst snd app] in *. by rewrite IH.
Qed.

Lemma next_line_shape inp :
  (∃ body, (LF ∉ body) ∧ (next_line inp).1 = body ++ [LF])
  ∨ ((LF ∉ (next_line inp).1) ∧ (next_line inp).2 = []).
Proof.
  induction inp as [|c r IH]; [right; split; [apply not_elem_of_nil|done]|].
  cbn [next_line]. destruct (Ascii.eqb c LF) eqn:E.
  - apply Ascii.eqb_eq in E as ->. left. exists [].
    split; [apply not_elem_of_nil|done].
  - apply Ascii.eqb_neq in E.
    destruct (next_line r) as [l r']. cbn [fst snd] in *.
    destruct IH as [(body & Hb & ->)|[Hl ->]].
    + left. exists (c :: body). split; [|done].
      rewrite not_elem_of_cons. by split.
    + right. split; [|done]. rewrite not_elem_of_cons. by split.
Qed.

(** X9.  [readLine] takes exactly one line off the input, whatever its
    length: the characters up to and including the first newline, or all
    that is left when there is no newline.  The buffer it returns is a new
    block that starts with these characters and a NUL; [buffer_size] is the
    size of that block, exceeds the length of the line, never decreases,
    and is unchanged when the line fits.  Memory allocated before is not
    touched. *)
Theorem readLine_reads_one_line st c r :
  stdin st = c :: r →
  ∃ st' L,
    readLine st = Ret (Vptr (Ptr (length (heap st)) 0)) st'
    ∧ block_at (heap st') (length (heap st)) = Some L
    ∧ take (length (next_line (c :: r)).1 + 1) L
        = (Chr <$> (next_line (c :: r)).1) ++ [Chr NUL]
    ∧ length L = buffer_size st'
    ∧ length (next_line (c :: r)).1 < buffer_size st'
    ∧ buffer_size st ≤ buffer_size st'
    ∧ (length (next_line (c :: r)).1 < buffer_size st →
       buffer_size st' = buffer_size st)
    ∧ (next_line (c :: r)).1 ++ stdin st' = stdin st
    ∧ ((∃ body, (LF ∉ body) ∧ (next_line (c :: r)).1 = body ++ [LF])
       ∨ ((LF ∉ (next_line (c :: r)).1) ∧ stdin st' = []))
    ∧ (∀ b, b < length (heap st) → heap st' !! b = heap st !! b).
Proof.
  intros Hin. pose proof (readLine_line st c r Hin) as H. cbv zeta in H.
  set (l := (next_line (c :: r)).1) in *.
  pose proof (size_for_fits st (length l)) as Hfit.
  pose proof (size_for_grows st (length l)) as Hgrow.
  eexists _, _. split; [exact H|]. state_simpl.
  split; [apply block_at_app_0|].
  split.
  { change (Chr NUL :: ?t) with ([Chr NUL] ++ t). rewrite app_assoc.
    rewrite take_app_length'; [done|].
    rewrite length_app, length_fmap. simpl. lia. }
  split.
  { rewrite length_app, length_fmap. cbn [length].
    rewrite length_drop, length_fmap, length_seq. lia. }
  split; [done|]. split; [done|]. split.
  { intros Hl. unfold size_for. case_decide; [lia|done]. }
  split; [rewrite Hin; apply next_line_app|].
  split; [apply next_line_shape|].
  intros b Hb. by rewrite lookup_app_l.
Qed.

(** ** One iteration of the main loop *)

Lemma main_while_stop fuel tokens st :
  main_while ptr_size fuel 0%Z tokens st = Ret tt st.
Proof. by destruct fuel. Qed.

(** One iteration on a line of input: the line is read and tokenized,
    which leaves the state [st2] and the token array [a]; when the command
    returns, a prompt is printed, the line and the token array are freed,
    and the loop goes on with the status of the command. *)
Lemma main_while_iteration st c r :
  0 < ptr_size → stdin st = c :: r →
  ∃ a n st2 D,
    read_and_parse ptr_size st = Ret (a, n) st2
    ∧ stdin st2 = (next_line (c :: r)).2
    ∧ stdout st2 = stdout st ∧ trace st2 = trace st ∧ cwd st2 = cwd st
    ∧ pid st2 = pid st ∧ forks st2 = forks st ∧ waits st2 = waits st
    ∧ runnable st2 = runnable st ∧ fs st2 = fs st
    ∧ on_sigint st2 = on_sigint st
    ∧ buffer_size st ≤ buffer_size st2
    ∧ (no_nul (next_line (c :: r)).1 →
       n = length (tokens_of (next_line (c :: r)).1)
       ∧ (∀ j t, tokens_of (next_line (c :: r)).1 !! j = Some t →
            ∃ p, index ptr_size (heap st2) a j = Some (Vptr p)
                 ∧ load_string (heap st2) (Vptr p) = Some t)
       ∧ ((n + 1) * ptr_size ≤ buffer_size st2 / 2 →
          index ptr_size (heap st2) a n = Some Vnull))
    ∧ ∀ fuel tokens status st3,
        executeCommand ptr_size a st2 = Ret status st3 →
        main_while ptr_size (S fuel) 1%Z tokens st =
          main_while ptr_size fuel status a
            (set_heap (heap st ++ [None; None; Some D])
               (set_stdout (stdout st3 ++ prompt) st3)).
Proof.
  intros HP Hin.
  pose proof (readLine_line st c r Hin) as Hread. cbv zeta in Hread.
  set (l := (next_line (c :: r)).1) in *.
  set (n0 := length (heap st)) in *.
  set (L := (Chr <$> l) ++ Chr NUL ::
            drop (length l + 1)
              (junk st n0 <$> seq 0 (size_for st (length l)))) in *.
  destruct (cstring_line l
              (drop (length l + 1)
                 (junk st n0 <$> seq 0 (size_for st (length l)))))
    as (s & Hs & Hlen & Heq).
  fold L in Hs.
  match type of Hread with _ = Ret _ ?x => set (st1 := x) in * end.
  pose proof (size_for_fits st (length l)) as Hfits.
  pose proof (size_for_grows st (length l)) as Hgrow.
  assert (heap st1 = heap st ++ [Some L]) as Hh1 by done.
  assert (HL : block_at (heap st1) n0 = Some L).
  { rewrite Hh1. apply block_at_app_0. }
  assert (Hfit : length s < buffer_size st1).
  { unfold st1. state_simpl. lia. }
  assert (length (heap st1) = S n0) as Hn1.
  { rewrite Hh1, length_app. unfold n0. simpl. lia. }
  destruct (parseLine_spec st1 n0 0 L s HP HL Hs Hfit) as [v Hparse].
  fold (parsed_heap ptr_size st1 s) in Hparse.
  set (st2 := set_olds v (set_heap (parsed_heap ptr_size st1 s) st1)) in *.
  set (D := nul_out (S (length s)) 0 s ((Chr <$> s) ++ [Chr NUL])).
  exists (Vptr (Ptr (length (heap st1)) 0)), (length (tokens_of s)), st2, D.
  split; [unfold read_and_parse; mstep Hread; exact Hparse|].
  repeat (split; [done|]). split.
  { intros Hnn. pose proof (Heq Hnn) as Hsl. rewrite <- Hsl in Hnn |- *.
    split; [done|]. split.
    - intros j t Hj. by apply (parsed_token st1 s j t).
    - intros Hb. by apply (parsed_sentinel st1 s). }
  intros fuel tokens status st3 Hexec.
  assert (same_memory st2 st3) as (Hheap3 & _).
  { apply (keeps_state_after same_memory
             (executeCommand ptr_size (Vptr (Ptr (length (heap st1)) 0))));
      [|apply same_memory_refl|by rewrite Hexec].
    apply keeps_executeCommand; intros st0 s0 x H; exact H. }
  assert (heap st3 = heap st ++ [Some L; Some (store_slots ptr_size
            (fresh_array ptr_size st1) 0
            (ptr_in (S (length (heap st1))) <$> scan (S (length s)) 0 s));
            Some D]) as Hh3.
  { rewrite Hheap3. unfold st2. state_simpl. unfold parsed_heap.
    rewrite Hh1 at 1. by rewrite <- app_assoc. }
  set (T := store_slots ptr_size (fresh_array ptr_size st1) 0
              (ptr_in (S (length (heap st1))) <$> scan (S (length s)) 0 s))
    in *.
  set (st4 := set_stdout (stdout st3 ++ prompt) st3).
  assert (Hline : block_at (heap st4) n0 = Some L).
  { unfold st4. state_simpl. rewrite Hh3. apply block_at_app_0. }
  set (st5 := set_heap (<[n0 := None]> (heap st4)) st4).
  assert (heap st5 = heap st ++ [None; Some T; Some D]) as Hh5.
  { unfold st5, st4. state_simpl. rewrite Hh3.
    rewrite insert_app_r_alt by (unfold n0; lia).
    unfold n0. by rewrite Nat.sub_diag. }
  assert (Htok : block_at (heap st5) (length (heap st1)) = Some T).
  { rewrite Hh5, Hn1. unfold n0. apply block_at_app_1. }
  rewrite main_while_unfold. cbn [Z.eqb].
  mstep Hread.
  mstep (eq_refl : get (fun _ => is_null (Vptr (Ptr n0 0))) st1
                   = Ret false st1).
  cbn [negb]. rewrite !bind_assoc. mstep Hparse.
  cbn [fst]. rewrite !bind_assoc. mstep Hexec.
  rewrite !bind_assoc.
  mstep (eq_refl : printf prompt st3 = Ret tt st4).
  mstep (eq_refl : ret (status, Vptr (Ptr (length (heap st1)) 0)) st4
                   = Ret (status, Vptr (Ptr (length (heap st1)) 0)) st4).
  mstep (free_block st4 n0 L Hline). cbn [snd fst]. fold st5.
  mstep (free_block st5 (length (heap st1)) T Htok).
  f_equal. state_eq. rewrite Hh5, Hn1.
  rewrite insert_app_r_alt by (unfold n0; lia).
  unfold n0. by replace (S (length (heap st)) - length (heap st)) with 1 by lia.
Qed.

(** X10.  One iteration of the loop on a line of input.  The line is read
    and tokenized; when the command returns, the prompt is printed after
    whatever the command printed and the next iteration starts with the
    status of the command; exactly that line is gone from the input and
    [buffer_size] has not decreased.  The line buffer and the token array
    are freed, the duplicate of the line that [parseLine] made is not:
    every line read leaves one block allocated. *)
Theorem one_line_one_iteration fuel st tokens c r :
  0 < ptr_size → stdin st = c :: r →
  ∃ a n st2 D,
    read_and_parse ptr_size st = Ret (a, n) st2
    ∧ ∀ status st3,
        executeCommand ptr_size a st2 = Ret status st3 →
        ∃ st',
          main_while ptr_size (S fuel) 1%Z tokens st =
            main_while ptr_size fuel status a st'
          ∧ stdout st' = stdout st3 ++ prompt
          ∧ heap st' = heap st ++ [None; None; Some D]
          ∧ stdin st' = (next_line (c :: r)).2
          ∧ buffer_size st ≤ buffer_size st'
          ∧ trace st' = trace st3 ∧ cwd st' = cwd st3 ∧ pid st' = pid st3.
Proof.
  intros HP Hin.
  destruct (main_while_iteration st c r HP Hin)
    as (a & n & st2 & D & Hparse & Hstdin & _ & _ & _ & _ & _ & _ & _ & _ & _
        & Hbs & _ & Hloop).
  exists a, n, st2, D. split; [done|].
  intros status st3 Hexec.
  assert (same_memory st2 st3) as (_ & Hbs3 & Hin3 & _).
  { apply (keeps_state_after same_memory (executeCommand ptr_size a));
      [|apply same_memory_refl|by rewrite Hexec].
    apply keeps_executeCommand; intros st0 s0 x H; exact H. }
  eexists. split; [apply (Hloop fuel tokens status st3 Hexec)|].
  state_simpl. split_and!; [done|done|congruence|lia|done|done|done].
Qed.

(** X11.  A line whose first token is [exit] ends the session, whatever
    follows on the line and however long it is: the loop stops after this
    iteration and [main] returns 0.  By then the prompt has been printed
    once more, followed by a newline; the rest of the input is left
    unread and nothing was launched. *)
Theorem exit_ends_the_session fuel st c r args :
  0 < ptr_size → stdin st = c :: r →
  no_nul (next_line (c :: r)).1 →
  tokens_of (next_line (c :: r)).1 = chars "exit" :: args →
  ∃ st',
    main ptr_size (S fuel) st = Ret 0%Z st'
    ∧ stdout st' = stdout st ++ prompt ++ prompt ++ [LF]
    ∧ stdin st' = (next_line (c :: r)).2
    ∧ trace st' = trace st ∧ cwd st' = cwd st ∧ pid st' = pid st.
Proof.
  intros HP Hin Hnn Htok.
  set (st0 := set_stdout (stdout st ++ prompt) (set_on_sigint true st)).
  destruct (main_while_iteration st0 c r HP Hin)
    as (a & n & st2 & D & _ & Hstdin & Hout & Htr & Hcwd & Hpid & _ & _ & _
        & _ & _ & _ & Htoks & Hloop).
  destruct (Htoks Hnn) as (_ & Hargs & _).
  destruct (Hargs 0 (chars "exit")) as (p & Hp & Hname);
    [by rewrite Htok|].
  assert (executeCommand ptr_size a st2 = Ret 0%Z st2) as Hexec.
  { rewrite (executeCommand_nonempty _ _ _ Hp).
    rewrite (builtin_loop_table st2 a p _ Hp Hname).
    repeat (case_decide; [done|]). done. }
  eexists. split.
  - unfold main, mainLoop.
    mstep (eq_refl : modify (set_on_sigint true) st
                     = Ret tt (set_on_sigint true st)).
    rewrite !bind_assoc.
    mstep (eq_refl : printf prompt (set_on_sigint true st) = Ret tt st0).
    rewrite !bind_assoc.
    rewrite (bind_Ret _ _ _ _ _
               (eq_trans (Hloop fuel (Vraw []) 0%Z st2 Hexec)
                         (main_while_stop fuel a _))).
    reflexivity.
  - cbn. rewrite Hout. unfold st0. state_simpl.
    rewrite <- !app_assoc. by split_and!.
Qed.

(** X12.  [echo] in the loop.  On a line whose first token is [echo], with
    few enough tokens for the null pointer to be in place, the iteration
    prints the other tokens, each followed by one space, then a newline
    and the prompt, and the loop goes on: runs of spaces between the words
    are not reproduced. *)
Theorem echo_line_in_the_loop fuel st tokens c r args :
  0 < ptr_size → stdin st = c :: r →
  no_nul (next_line (c :: r)).1 →
  tokens_of (next_line (c :: r)).1 = chars "echo" :: args →
  (length args + 2) * ptr_size ≤ buffer_size st / 2 →
  ∃ a st',
    main_while ptr_size (S fuel) 1%Z tokens st =
      main_while ptr_size fuel 1%Z a st'
    ∧ stdout st' = stdout st ++ echo_text args ++ [LF] ++ prompt
    ∧ stdin st' = (next_line (c :: r)).2
    ∧ trace st' = trace st ∧ cwd st' = cwd st ∧ pid st' = pid st.
Proof.
  intros HP Hin Hnn Htok Hbound.
  destruct (main_while_iteration st c r HP Hin)
    as (a & n & st2 & D & _ & Hstdin & Hout & Htr & Hcwd & Hpid & _ & _ & _
        & _ & _ & Hbs & Htoks & Hloop).
  destruct (Htoks Hnn) as (Hn & Hargs & Hnull).
  rewrite Htok in Hn, Hargs. cbn [length] in Hn.
  assert (args_array ptr_size (heap st2) a (chars "echo" :: args)) as Harr.
  { split; [done|]. cbn [length]. rewrite <- Hn. apply Hnull.
    etrans; [|apply Nat.Div0.div_le_mono, Hbs]. rewrite Hn.
    etrans; [|exact Hbound]. apply Nat.mul_le_mono_r. lia. }
  pose proof (simpleShellEcho_spec st2 a _ args HP Harr) as Hecho.
  rewrite <- (executeCommand_echo st2 a args Harr) in Hecho.
  exists a. eexists. split; [apply (Hloop fuel tokens _ _ Hecho)|].
  state_simpl. rewrite Hout, <- !app_assoc. by split_and!.
Qed.

(** X13.  Whom an interrupt reaches.  While [startProcess] is waiting for
    the child [c], the delivery of SIGINT makes the handler send SIGINT to
    [c], and to nobody else, before the interpreter exits; after a command
    has returned, back at the prompt, the handler signals no process. *)
Theorem interrupt_reaches_only_a_running_child st a :
  on_sigint st = true →
  (∀ c fk stops,
     forks st = c :: fk → (0 < c)%Z → waits st = WStopped <$> stops →
     ∃ st1 st2,
       startProcess ptr_size a st = Blocked st1
       ∧ interrupt st1 = Exit 0%Z st2
       ∧ trace st2 = trace st1 ++ [EvKill c SIGINT])
  ∧ (∀ s st1,
       pid st = (-1)%Z → executeCommand ptr_size a st = Ret s st1 →
       ∃ st2, interrupt st1 = Exit 0%Z st2 ∧ trace st2 = trace st1).
Proof.
  intros Hon. split.
  - intros c fk stops Hf Hc Hw. eexists _, _.
    split; [by apply startProcess_blocks|].
    unfold interrupt. state_simpl. rewrite Hon, signalHandler_eq.
    state_simpl. rewrite bool_decide_eq_true_2 by lia. by split.
  - intros s st1 Hpid Hexec.
    pose proof (executeCommand_pid a st s st1 Hexec Hpid) as Hpid1.
    assert (same_memory st st1) as (_ & _ & _ & _ & Hon1 & _).
    { apply (keeps_state_after same_memory (executeCommand ptr_size a));
        [|apply same_memory_refl|by rewrite Hexec].
      apply keeps_executeCommand; intros st0 s0 x H; exact H. }
    eexists. unfold interrupt. rewrite Hon1, Hon, signalHandler_eq.
    rewrite bool_decide_eq_false_2 by (by intros H). by split.
Qed.

(** ** A token array with no room for the null pointer *)

Lemma bind_Undef {A B} (m : M A) (k : A → M B) st :
  m st = Undef → bind m k st = Undef.
Proof. unfold bind. by intros ->. Qed.

Lemma get_None {A} (f : state → option A) st :
  f st = None → get f st = Undef.
Proof. unfold get. by intros ->. Qed.

Lemma read_argv_overrun h a rest : ∀ i fuel,
  (∀ j t, rest !! j = Some t →
     ∃ p, index ptr_size h a (i + j) = Some (Vptr p)
          ∧ load_string h (Vptr p) = Some t) →
  index ptr_size h a (i + length rest) = None →
  read_argv ptr_size fuel h a i = None.
Proof.
  induction rest as [|t rest IH]; intros i fuel Hargs Hnone;
    (destruct fuel as [|fuel]; [done|]); cbn [read_argv].
  - simpl in Hnone. rewrite Nat.add_0_r in Hnone. by rewrite Hnone.
  - destruct (Hargs 0 t eq_refl) as (p & Hp & Ht).
    rewrite Nat.add_0_r in Hp. rewrite Hp. cbn [mbind option_bind is_null].
    rewrite Ht. cbn [mbind option_bind].
    rewrite IH; [done| |].
    + intros j t' Hj. destruct (Hargs (S j) t' Hj) as (p' & Hp' & Ht').
      exists p'. by replace (i + 1 + j) with (i + S j) by lia.
    + simpl in Hnone.
      by replace (i + 1 + length rest) with (i + S (length rest)) by lia.
Qed.

(** X14.  The token array has [buffer_size / 2] entries, and a line can
    have that many tokens: then every entry holds a token and the array
    has no room for the null pointer.  The entry after the last token lies
    outside the array, and so does the end of the argument vector that
    [execvp] is given: the child of the launch reads past the array. *)
Theorem full_token_array_has_no_terminator st bl ol L s :
  0 < ptr_size →
  block_at (heap st) bl = Some L →
  cstring (drop ol L) = Some s →
  length s < buffer_size st →
  length (tokens_of s) = buffer_size st / 2 →
  ∃ buffer st',
    parseLine ptr_size (Vptr (Ptr bl ol)) st =
      Ret (buffer, length (tokens_of s)) st'
    ∧ token_seq ptr_size (heap st') buffer (length (tokens_of s))
        = Some (tokens_of s)
    ∧ index ptr_size (heap st') buffer (length (tokens_of s)) = None
    ∧ argv_of ptr_size (heap st') buffer = None
    ∧ child_of_fork ptr_size buffer st' = ChildUndefined.
Proof.
  intros HP HL Hs Hlen Hfull.
  destruct (cstring_inv _ _ Hs) as [Hnn _].
  destruct (parseLine_spec st bl ol L s HP HL Hs Hlen) as [v Hparse].
  fold (parsed_heap ptr_size st s) in Hparse.
  set (st1 := set_olds v (set_heap (parsed_heap ptr_size st s) st)) in *.
  set (a := Vptr (Ptr (length (heap st)) 0)) in *.
  assert (heap st1 = parsed_heap ptr_size st s) as Hheap by done.
  assert (index ptr_size (heap st1) a (length (tokens_of s)) = None) as Hnone.
  { rewrite Hheap. unfold index, load_cells, slot, ptr_add, a.
    cbn [blk off]. rewrite parsed_heap_array. cbn [mbind option_bind].
    rewrite decide_False; [done|].
    rewrite length_store_slots, length_fresh_array, Hfull. nia. }
  assert (argv_of ptr_size (heap st1) a = None) as Hargv.
  { rewrite Hheap. unfold argv_of, a.
    rewrite (block_size_eq _ _ 0 _ (parsed_heap_array st s)).
    cbn [mbind option_bind].
    apply (read_argv_overrun _ _ (tokens_of s) 0); [|by rewrite <- Hheap].
    intros j t Hj. by apply parsed_token. }
  exists a, st1. split; [done|].
  split; [rewrite Hheap; by apply token_seq_parsed|].
  split; [done|]. split; [done|].
  unfold child_of_fork.
  set (st2 := set_forks (tail (forks st1)) st1).
  assert (after_fork ptr_size a 0%Z st2 = Undef) as ->; [|done].
  unfold after_fork.
  mstep (eq_refl : modify (set_pid 0%Z) st2 = Ret tt (set_pid 0%Z st2)).
  mstep (eq_refl : state_of (set_pid 0%Z st2)
                   = Ret (set_pid 0%Z st2) (set_pid 0%Z st2)).
  cbn [pid set_pid Z.eqb]. rewrite !bind_assoc.
  destruct (tokens_of s) as [|prog args] eqn:Htok.
  - apply bind_Undef, get_None. exact Hnone.
  - destruct (parsed_token st s 0 prog HP Hnn Hlen) as (p & Hp & Hprog);
      [by rewrite Htok|].
    rewrite <- Hheap in Hp, Hprog.
    mstep (load_index_eq (set_pid 0%Z st2) a 0 _ Hp).
    unfold execvp. rewrite !bind_assoc.
    mstep (get_Some (fun st => load_string (heap st) (Vptr p))
             (set_pid 0%Z st2) _ Hprog).
    rewrite !bind_assoc. apply bind_Undef, get_None. exact Hargv.
Qed.

(** X15.  An empty or all-blank line in the loop: the iteration prints the
    prompt and nothing else, issues no system call and goes on. *)
Theorem blank_line_in_the_loop fuel st tokens c r :
  0 < ptr_size → 2 * ptr_size ≤ buffer_size st →
  stdin st = c :: r →
  Forall (fun x => is_space x = true) (next_line (c :: r)).1 →
  ∃ a st',
    main_while ptr_size (S fuel) 1%Z tokens st =
      main_while ptr_size fuel 1%Z a st'
    ∧ stdout st' = stdout st ++ prompt
    ∧ stdin st' = (next_line (c :: r)).2
    ∧ trace st' = trace st ∧ cwd st' = cwd st ∧ pid st' = pid st.
Proof.
  intros HP Hbs Hin Hblank.
  assert (no_nul (next_line (c :: r)).1) as Hnn.
  { eapply Forall_impl; [exact Hblank|]. intros x Hx.
    destruct (is_nul x) eqn:E; [|done].
    apply Ascii.eqb_eq in E. by subst x. }
  destruct (main_while_iteration st c r HP Hin)
    as (a & n & st2 & D & _ & Hstdin & Hout & Htr & Hcwd & Hpid & _ & _ & _
        & _ & _ & Hbs2 & Htoks & Hloop).
  destruct (Htoks Hnn) as (Hn & _ & Hnull).
  rewrite tokens_of_split, (split_whitespace_blank _ Hblank) in Hn.
  cbn [length] in Hn. subst n.
  assert (executeCommand ptr_size a st2 = Ret 1%Z st2) as Hexec.
  { apply executeCommand_empty, Hnull.
    apply Nat.div_le_lower_bound; lia. }
  exists a. eexists. split; [apply (Hloop fuel tokens _ _ Hexec)|].
  state_simpl. rewrite Hout. by split_and!.
Qed.

(** X16.  At end of input [readLine] hands the buffer to [parseLine] as
    [malloc] returned it, [getline] having stored nothing: the command
    that is tokenized, and then executed, is whatever string the allocator
    left in the fresh block. *)
Theorem eof_runs_what_malloc_left st l tail :
  0 < ptr_size → stdin st = [] → no_nul l →
  junk st (length (heap st)) <$> seq 0 (buffer_size st)
    = (Chr <$> l) ++ Chr NUL :: tail →
  ∃ a st2,
    read_and_parse ptr_size st = Ret (a, length (tokens_of l)) st2
    ∧ token_seq ptr_size (heap st2) a (length (tokens_of l))
        = Some (tokens_of l)
    ∧ stdin st2 = [] ∧ buffer_size st2 = buffer_size st
    ∧ stdout st2 = stdout st.
Proof.
  intros HP Hin Hnn Hjunk.
  pose proof (readLine_eof st Hin) as Hread.
  rewrite Nat.mul_1_l, Hjunk in Hread.
  match type of Hread with _ = Ret _ ?x => set (st1 := x) in * end.
  assert (block_at (heap st1) (length (heap st))
          = Some ((Chr <$> l) ++ Chr NUL :: tail)) as HL
    by apply block_at_app_0.
  assert (length l < buffer_size st1) as Hlen.
  { apply (f_equal length) in Hjunk.
    rewrite length_fmap, length_seq, length_app, length_fmap in Hjunk.
    simpl in Hjunk. unfold st1. state_simpl. lia. }
  destruct (parseLine_returns st1 (length (heap st)) 0 _ l HP HL
              (cstring_chars l tail Hnn) Hlen)
    as (st2 & Hparse & Hheap & Hbs & _ & Hout & _ & _ & _ & Hstdin).
  exists (Vptr (Ptr (length (heap st1)) 0)), st2.
  split; [unfold read_and_parse; mstep Hread; exact Hparse|].
  split; [rewrite Hheap; by apply token_seq_parsed|].
  rewrite Hstdin, Hbs, Hout. unfold st1. state_simpl. by split_and!.
Qed.
End Proofs.

(** * The claims on sample runs *)

Lemma eof_never_stops_witness :
  ∃ st',
    main 8 3 (initial [] (chars "/") (fun _ _ => Chr NUL) [] [] no_fs
                any_program) = Fuel st'
    ∧ stdout st' = concat (replicate 4 prompt)
    ∧ trace st' = [].
Proof. apply (eof_never_stops 8 3); lia. Defined.

Lemma tokenizer_witness :
  ∃ buffer st',
    parseLine 8 (Vptr (Ptr 0 0)) (with_line blank_line ff_junk)
      = Ret (buffer, 0) st'
    ∧ token_seq 8 (heap st') buffer 0 = Some []
    ∧ executeCommand 8 buffer st' = Ret 1%Z st'.
Proof.
  destruct (tokenizer_splits_on_whitespace 8 (with_line blank_line ff_junk)
              0 0 ((Chr <$> blank_line) ++ [Chr NUL]) blank_line)
    as (buffer & st' & Hp & Hseq & _ & Hempty).
  - lia.
  - reflexivity.
  - reflexivity.
  - simpl. lia.
  - destruct Hempty as [Hnil Hexec].
    + repeat constructor.
    + simpl. lia.
    + exists buffer, st'. split; [exact Hp|]. split; [exact Hseq|exact Hexec].
Defined.

(** C3 as stated fails: [echo a b] prints six characters, with a space
    before the newline, not the five of ["a b\n"]. *)
Lemma echo_a_b_prints_a_trailing_space :
  run_line 8 echo_a_b = Some (1%Z, chars "a b " ++ [LF])
  ∧ run_line 8 echo_a_b ≠ Some (1%Z, chars "a b" ++ [LF]).
Proof. split; [vm_compute; reflexivity|vm_compute; discriminate]. Qed.

Lemma echo_args_array :
  args_array 8 (heap (parsed echo_a_b zero_junk)) (Vptr (Ptr 1 0))
    [chars "echo"; chars "a"; chars "b"].
Proof.
  split.
  - intros [|[|[|j]]] t Hj; simpl in Hj; try discriminate Hj;
      injection Hj as <-.
    + exists (Ptr 2 0). split; vm_compute; reflexivity.
    + exists (Ptr 2 5). split; vm_compute; reflexivity.
    + exists (Ptr 2 7). split; vm_compute; reflexivity.
  - vm_compute. reflexivity.
Defined.

Lemma echo_witness :
  simpleShellEcho 8 (Vptr (Ptr 1 0)) (parsed echo_a_b zero_junk) =
    Ret 1%Z (set_stdout (chars "a b " ++ [LF]) (parsed echo_a_b zero_junk)).
Proof.
  apply (echo_prints_each_argument_then_space 8 (parsed echo_a_b zero_junk)
           (Vptr (Ptr 1 0)) (chars "echo") [chars "a"; chars "b"]).
  - lia.
  - exact echo_args_array.
Defined.

(** C4 at a failing input: the second command, [ls a b c d], has five
    tokens, one more than the cleared part of the token array covers; the
    array is a reused chunk that still holds pointers of the first
    command, and [execvp] is given seven arguments. *)
Theorem stale_pointers_reach_the_child :
  trace_of (main 8 2 (session two_commands stale_junk [7%Z] [WExited 0])) =
    [EvFork 7 (Some (ChildExec (chars "ls")
                       [chars "ls"; chars "a"; chars "b"; chars "c";
                        chars "d"; chars "5"; chars "6"]));
     EvWaitpid 7 (WExited 0)]
  ∧ tokens_of (chars "ls a b c d" ++ [LF]) =
      [chars "ls"; chars "a"; chars "b"; chars "c"; chars "d"].
Proof. split; vm_compute; reflexivity. Qed.

Lemma startProcess_witness :
  (∃ st',
     startProcess 8 (Vptr (Ptr 1 0)) (launching [WStopped 19; WExited 0])
       = Ret 1%Z st'
     ∧ pid st' = (-1)%Z ∧ waits st' = []
     ∧ trace st' =
         [EvFork 7 (Some (ChildExec (chars "ls") [chars "ls"; chars "-l"]));
          EvWaitpid 7 (WStopped 19); EvWaitpid 7 (WExited 0)])
  ∧ (∃ st',
       startProcess 8 (Vptr (Ptr 1 0)) (launching [WStopped 19; WStopped 18])
         = Blocked st'
       ∧ pid st' = 7%Z).
Proof.
  split.
  - eexists. split.
    + apply (startProcess_waits_for_the_child 8
               (launching [WStopped 19; WExited 0]) (Vptr (Ptr 1 0)) 7 []
               [19%Z] (WExited 0) []); reflexivity.
    + split; [reflexivity|]. split; [reflexivity|]. vm_compute. reflexivity.
  - eexists. split.
    + apply (startProcess_waits_for_the_child 8
               (launching [WStopped 19; WStopped 18]) (Vptr (Ptr 1 0)) 7 []
               [19%Z; 18%Z] (WExited 0) []); reflexivity.
    + reflexivity.
Defined.

Lemma interrupt_relay_witness :
  (∃ st', interrupt idle = Exit 0%Z st'
          ∧ stdout st' = notice ∧ trace st' = [])
  ∧ (∃ st', interrupt busy = Exit 0%Z st'
            ∧ stdout st' = notice ∧ trace st' = [EvKill 7 SIGINT]).
Proof.
  split.
  - destruct (interrupt_relay idle) as (st' & _ & Hout & Hnone & _ & _ & Hint).
    exists st'. split; [exact (Hint eq_refl)|].
    split; [exact Hout|exact (Hnone eq_refl)].
  - destruct (interrupt_relay busy) as (st' & _ & Hout & _ & Hsome & _ & Hint).
    exists st'. split; [exact (Hint eq_refl)|].
    split; [exact Hout|]. apply Hsome. discriminate.
Defined.

Lemma cd_witness :
  simpleShellCd 8 (Vptr (Ptr 1 0)) (parsed cd_alone zero_junk)
    = Ret 1%Z (parsed cd_alone zero_junk)
  ∧ (∃ st', simpleShellCd 8 (Vptr (Ptr 1 0)) (parsed cd_x zero_junk)
              = Ret 1%Z st'
            ∧ cwd st' = chars "/"
            ∧ stdout st' = chars "cd failed, check your path" ++ [LF])
  ∧ (∃ st', simpleShellCd 8 (Vptr (Ptr 1 0))
              (set_fs flat_fs (parsed cd_x zero_junk)) = Ret 1%Z st'
            ∧ cwd st' = chars "/x").
Proof.
  split; [|split].
  - apply (proj1 (cd_failure_is_recoverable 8 (parsed cd_alone zero_junk)
                    (Vptr (Ptr 1 0)))).
    vm_compute. reflexivity.
  - destruct (proj2 (cd_failure_is_recoverable 8 (parsed cd_x zero_junk)
                       (Vptr (Ptr 1 0))) (Ptr 2 3) (chars "/x"))
      as [Hfail _]; [vm_compute; reflexivity..|].
    destruct (Hfail eq_refl) as (st' & H & Hcwd & Hout & _).
    exists st'. split; [exact H|]. split; [exact Hcwd|exact Hout].
  - destruct (proj2 (cd_failure_is_recoverable 8
                       (set_fs flat_fs (parsed cd_x zero_junk))
                       (Vptr (Ptr 1 0))) (Ptr 2 3) (chars "/x"))
      as [_ Hok]; [vm_compute; reflexivity..|].
    destruct (Hok (chars "/x") eq_refl) as (st' & H & Hcwd & _).
    exists st'. split; [exact H|exact Hcwd].
Defined.

(** C8 as stated fails: after a line of 200 characters [buffer_size] is
    201; a line of 12 tokens then satisfies [12 * 8 < 201 / 2], but only
    the first four bytes of entry 12 are cleared, and with other bytes left
    by the allocator the entry is not the null pointer. *)
Lemma sentinel_missing_within_the_claimed_bound :
  sentinel_of 8 (read_and_parse 8 (session long_line ff_junk [] [])) =
    Some (12, 201,
          Some (Vraw (replicate 4 (Chr NUL) ++ replicate 4 (Chr "255"%char))))
  ∧ 12 * 8 < 201 / 2
  ∧ is_null (Vraw (replicate 4 (Chr NUL) ++ replicate 4 (Chr "255"%char)))
      = Some false.
Proof.
  split; [vm_compute; reflexivity|]. split; [vm_compute; lia|reflexivity].
Qed.

Lemma sentinel_witness :
  (∃ buffer st',
     parseLine 8 (Vptr (Ptr 0 0)) (with_line four_tokens ff_junk)
       = Ret (buffer, 4) st'
     ∧ index 8 (heap st') buffer 4 = Some Vnull)
  ∧ (∃ buffer st',
       parseLine 8 (Vptr (Ptr 0 0)) (with_line five_tokens ff_junk)
         = Ret (buffer, 5) st'
       ∧ index 8 (heap st') buffer 5 ≠ Some Vnull).
Proof.
  split.
  - destruct (sentinel_only_within_cleared_bytes 8
                (with_line four_tokens ff_junk) 0 0
                ((Chr <$> four_tokens) ++ [Chr NUL]) four_tokens)
      as (buffer & st' & Hp & Hin & _);
      [lia|reflexivity|reflexivity|simpl; lia|].
    exists buffer, st'. split; [exact Hp|]. apply Hin. vm_compute. lia.
  - destruct (sentinel_only_within_cleared_bytes 8
                (with_line five_tokens ff_junk) 0 0
                ((Chr <$> five_tokens) ++ [Chr NUL]) five_tokens)
      as (buffer & st' & Hp & _ & Hout);
      [lia|reflexivity|reflexivity|simpl; lia|].
    exists buffer, st'. split; [exact Hp|]. apply Hout.
    + vm_compute. lia.
    + vm_compute. discriminate.
Defined.

Lemma parseLine_leaves_the_line_unchanged_witness :
  ∃ r st',
    parseLine 8 (Vptr (Ptr 0 0)) (with_line echo_a_b zero_junk) = Ret r st'
    ∧ block_at (heap st') 0 = Some ((Chr <$> echo_a_b) ++ [Chr NUL])
    ∧ load_string (heap st') (Vptr (Ptr 0 0)) = Some echo_a_b.
Proof.
  destruct (parseLine_leaves_the_line_unchanged 8
              (with_line echo_a_b zero_junk) 0 0
              ((Chr <$> echo_a_b) ++ [Chr NUL]) echo_a_b)
    as (r & st' & Hp & Hblock & Hstr & _);
    [lia|reflexivity|reflexivity|simpl; lia|].
  exists r, st'. split; [exact Hp|]. split; [exact Hblock|exact Hstr].
Defined.

(** * The further properties on sample runs *)

Lemma tokens_are_words_witness :
  ∃ buffer n st' toks,
    parseLine 8 (Vptr (Ptr 0 0)) (with_line echo_a_b zero_junk)
      = Ret (buffer, n) st'
    ∧ token_seq 8 (heap st') buffer n = Some toks
    ∧ n ≤ 40.
Proof.
  destruct (tokens_are_words 8 (with_line echo_a_b zero_junk) 0 0
              ((Chr <$> echo_a_b) ++ [Chr NUL]) echo_a_b)
    as (buffer & n & st' & toks & H & Hseq & _ & Hn).
  - lia.
  - reflexivity.
  - reflexivity.
  - simpl. lia.
  - exists buffer, n, st', toks. split; [exact H|]. split; [exact Hseq|].
    exact Hn.
Defined.

Lemma echo_text_tokenizes_back_witness :
  tokens_of (chars "a b " ++ [LF]) = [chars "a"; chars "b"].
Proof.
  apply (echo_text_tokenizes_back [chars "a"; chars "b"]).
  repeat constructor; discriminate.
Defined.

Lemma executeCommand_dispatch_witness :
  executeCommand 8 (Vptr (Ptr 1 0)) (parsed echo_a_b zero_junk) =
    simpleShellEcho 8 (Vptr (Ptr 1 0)) (parsed echo_a_b zero_junk).
Proof.
  apply (executeCommand_dispatch 8 (parsed echo_a_b zero_junk)
           (Vptr (Ptr 1 0)) (Ptr 2 0) (chars "echo"));
    vm_compute; reflexivity.
Defined.

Lemma executeCommand_keeps_the_memory_witness :
  same_memory (parsed echo_a_b zero_junk)
    (set_stdout (chars "a b " ++ [LF]) (parsed echo_a_b zero_junk)).
Proof.
  apply (executeCommand_keeps_the_memory 8 (Vptr (Ptr 1 0))).
  vm_compute. reflexivity.
Defined.

Lemma builtins_leave_processes_alone_witness :
  same_processes (parsed echo_a_b zero_junk)
    (set_stdout (chars "a b " ++ [LF]) (parsed echo_a_b zero_junk)).
Proof.
  apply (builtins_leave_processes_alone 8 (parsed echo_a_b zero_junk)
           (Vptr (Ptr 1 0)) (Ptr 2 0) (chars "echo")).
  - vm_compute. reflexivity.
  - vm_compute. reflexivity.
  - repeat constructor.
  - vm_compute. reflexivity.
Defined.

Lemma executeCommand_status_witness :
  (0 = 1 ∧ (pid (parsed exit_line zero_junk) = (-1) →
            pid (parsed exit_line zero_junk) = (-1)))%Z
  ∨ (0%Z = 0%Z ∧ parsed exit_line zero_junk = parsed exit_line zero_junk
     ∧ ∃ p, index 8 (heap (parsed exit_line zero_junk)) (Vptr (Ptr 1 0)) 0
              = Some (Vptr p)
            ∧ load_string (heap (parsed exit_line zero_junk)) (Vptr p)
              = Some (chars "exit")).
Proof.
  apply (executeCommand_status 8 (Vptr (Ptr 1 0))
           (parsed exit_line zero_junk) 0 (parsed exit_line zero_junk)).
  vm_compute. reflexivity.
Defined.

Lemma fork_failure_is_fatal_witness :
  ∃ st',
    startProcess 8 (Vptr (Ptr 1 0)) no_more_processes = Exit 1%Z st'
    ∧ trace st' = [EvFork (-1) None; EvPerror (chars "simple-shell")]
    ∧ pid st' = (-1)%Z.
Proof.
  destruct (fork_failure_is_fatal 8 no_more_processes (Vptr (Ptr 1 0))
              (-1) []) as (st' & H & Htr & Hpid & _).
  - reflexivity.
  - lia.
  - exists st'. split; [exact H|]. split; [exact Htr|exact Hpid].
Defined.

Lemma launch_passes_the_tokens_witness :
  ∃ st',
    (let* t := parseLine 8 (Vptr (Ptr 0 0)) in executeCommand 8 (fst t))
      before_launch = Ret 1%Z st'
    ∧ trace st' =
        [EvFork 7 (Some (ChildExec (chars "ls") [chars "ls"; chars "-l"]));
         EvWaitpid 7 (WExited 0)].
Proof.
  destruct (launch_passes_the_tokens 8 before_launch 0 0
              ((Chr <$> ls_l) ++ [Chr NUL]) ls_l (chars "ls") [chars "-l"]
              7 [] (WExited 0) []) as (st' & H & Htr & _).
  - lia.
  - reflexivity.
  - reflexivity.
  - simpl. lia.
  - vm_compute. lia.
  - vm_compute. reflexivity.
  - unfold builtin_commands. rewrite !not_elem_of_cons.
    repeat split; try discriminate.
    apply not_elem_of_nil.
  - reflexivity.
  - lia.
  - reflexivity.
  - reflexivity.
  - exists st'. split; [exact H|exact Htr].
Defined.

Lemma readLine_reads_one_line_witness :
  ∃ st' L,
    readLine (session (echo_a_b ++ ls_l) zero_junk [] [])
      = Ret (Vptr (Ptr 0 0)) st'
    ∧ block_at (heap st') 0 = Some L
    ∧ take 10 L = (Chr <$> echo_a_b) ++ [Chr NUL]
    ∧ buffer_size st' = 80
    ∧ echo_a_b ++ stdin st' = echo_a_b ++ ls_l.
Proof.
  destruct (readLine_reads_one_line (session (echo_a_b ++ ls_l) zero_junk [] [])
              "e"%char (chars "cho a b" ++ [LF] ++ ls_l))
    as (st' & L & H & HL & Htake & _ & _ & _ & Hsame & Happ & _).
  - reflexivity.
  - exists st', L. split; [exact H|]. split; [exact HL|].
    split; [exact Htake|]. split; [|exact Happ].
    apply Hsame. vm_compute. lia.
Defined.

Lemma one_line_one_iteration_witness :
  ∃ a n st2,
    read_and_parse 8 (session echo_a_b zero_junk [] []) = Ret (a, n) st2.
Proof.
  destruct (one_line_one_iteration 8 0 (session echo_a_b zero_junk [] [])
              (Vraw []) "e"%char (chars "cho a b" ++ [LF]))
    as (a & n & st2 & D & Hparse & _).
  - lia.
  - reflexivity.
  - exists a, n, st2. exact Hparse.
Defined.

Lemma exit_ends_the_session_witness :
  ∃ st',
    main 8 1 (session (exit_line ++ ls_l) zero_junk [] []) = Ret 0%Z st'
    ∧ stdout st' = prompt ++ prompt ++ [LF]
    ∧ trace st' = [].
Proof.
  destruct (exit_ends_the_session 8 0
              (session (exit_line ++ ls_l) zero_junk [] [])
              "e"%char (chars "xit now" ++ [LF] ++ ls_l) [chars "now"])
    as (st' & H & Hout & _ & Htr & _).
  - lia.
  - reflexivity.
  - repeat constructor.
  - vm_compute. reflexivity.
  - exists st'. split; [exact H|]. split; [exact Hout|exact Htr].
Defined.

Lemma echo_line_in_the_loop_witness :
  ∃ a st',
    main_while 8 1 1%Z (Vraw []) (session echo_a_b zero_junk [] []) =
      main_while 8 0 1%Z a st'
    ∧ stdout st' = chars "a b " ++ [LF] ++ prompt.
Proof.
  destruct (echo_line_in_the_loop 8 0 (session echo_a_b zero_junk [] [])
              (Vraw []) "e"%char (chars "cho a b" ++ [LF])
              [chars "a"; chars "b"])
    as (a & st' & H & Hout & _).
  - lia.
  - reflexivity.
  - repeat constructor.
  - vm_compute. reflexivity.
  - vm_compute. lia.
  - exists a, st'. split; [exact H|exact Hout].
Defined.

Lemma interrupt_reaches_only_a_running_child_witness :
  ∃ st1 st2,
    startProcess 8 (Vptr (Ptr 1 0)) waiting = Blocked st1
    ∧ interrupt st1 = Exit 0%Z st2
    ∧ trace st2 = trace st1 ++ [EvKill 7 SIGINT].
Proof.
  apply (proj1 (interrupt_reaches_only_a_running_child 8 waiting
                  (Vptr (Ptr 1 0)) eq_refl) 7%Z [] [19%Z]).
  - reflexivity.
  - lia.
  - reflexivity.
Defined.

Lemma full_token_array_has_no_terminator_witness :
  ∃ buffer st',
    parseLine 8 (Vptr (Ptr 0 0)) (with_line full_line zero_junk)
      = Ret (buffer, 40) st'
    ∧ index 8 (heap st') buffer 40 = None
    ∧ child_of_fork 8 buffer st' = ChildUndefined.
Proof.
  destruct (full_token_array_has_no_terminator 8
              (with_line full_line zero_junk) 0 0
              ((Chr <$> full_line) ++ [Chr NUL]) full_line)
    as (buffer & st' & H & _ & Hnone & _ & Hchild).
  - lia.
  - reflexivity.
  - vm_compute. reflexivity.
  - vm_compute. lia.
  - vm_compute. reflexivity.
  - exists buffer, st'. split; [exact H|]. split; [exact Hnone|exact Hchild].
Defined.

Lemma blank_line_in_the_loop_witness :
  ∃ a st',
    main_while 8 1 1%Z (Vraw []) (session (blank_line ++ [LF]) zero_junk [] [])
      = main_while 8 0 1%Z a st'
    ∧ stdout st' = prompt ∧ trace st' = [].
Proof.
  destruct (blank_line_in_the_loop 8 0
              (session (blank_line ++ [LF]) zero_junk [] []) (Vraw [])
              " "%char (chars "  " ++ [LF]))
    as (a & st' & H & Hout & _ & Htr & _).
  - lia.
  - simpl. lia.
  - reflexivity.
  - repeat constructor.
  - exists a, st'. split; [exact H|]. split; [exact Hout|exact Htr].
Defined.

Lemma eof_runs_what_malloc_left_witness :
  ∃ a st2,
    read_and_parse 8 (session [] exit_junk [] []) = Ret (a, 1) st2
    ∧ token_seq 8 (heap st2) a 1 = Some [chars "exit"].
Proof.
  destruct (eof_runs_what_malloc_left 8 (session [] exit_junk [] [])
              (chars "exit") (replicate 75 (Chr NUL)))
    as (a & st2 & H & Hseq & _).
  - lia.
  - reflexivity.
  - repeat constructor.
  - vm_compute. reflexivity.
  - exists a, st2. split; [exact H|exact Hseq].
Defined.
